(** * tree-shaker: a shallow embedding of [src/main.ts]

    The development follows the last revision of [main.ts] (the one with
    [Chunk] and [Options.chunks]).  The classes [Module], [Graph], [Chunk]
    and the function [treeShaker] are embedded as Rocq modules [Mod],
    [Graph], [Chunk] and [TreeShaker].  The collaborators the program calls
    but does not contain (the URL resolver, the file system, the acorn
    parser, magic-string) are either parameters gathered in [World] or small
    models of their documented behaviour. *)

From Stdlib Require Import String Ascii List Bool Arith PeanoNat NArith Lia.
From Stdlib Require Import Permutation Sorted.
Import ListNotations.

Set Implicit Arguments.
Set Warnings "-register-all".

(* ================================================================== *)
(** ** Source text, exceptions *)

(** A JavaScript string is a sequence of code units; [===] on strings
    compares the sequences. *)
Definition text := list ascii.

Definition text_eq_dec : forall a b : text, {a = b} + {a <> b} :=
  list_eq_dec ascii_dec.

Definition text_eqb (a b : text) : bool :=
  if text_eq_dec a b then true else false.

(** [String.prototype.slice(start, end)] for non-negative integer
    arguments: both ends are clamped to the length, and an end at or before
    the start gives the empty string. *)
Definition slice (s : text) (from to : nat) : text :=
  firstn (to - from) (skipn from s).

(** What the program can throw. *)
Inductive Error : Type :=
| InvalidURL        (* [new URL(input, base)] throws *)
| ReadFileError     (* [readFile] rejects *)
| SyntaxError       (* acorn's [parse] throws *)
| TypeError         (* a property of [undefined] is read, or nothing to destructure *)
| OutOfBounds.      (* magic-string: a removal outside the original string *)

Inductive Res (A : Type) : Type :=
| Ok (a : A)
| Throw (e : Error).
Arguments Ok {A} a.
Arguments Throw {A} e.

(** [array.push(x)] *)
Definition push {A} (arr : list A) (x : A) : list A := arr ++ [x].

(** [for (const x of xs) { acc = body(acc, x) }] *)
Definition for_of {A S} (xs : list A) (body : S -> A -> S) (init : S) : S :=
  fold_left body xs init.

(** The elements of an array paired with their positions. *)
Definition indexed {A} (xs : list A) : list (nat * A) :=
  combine (seq 0 (length xs)) xs.

(* ================================================================== *)
(** ** [Map]: insertion-ordered, keys compared by SameValueZero *)

Module JsMap.
Section WithKey.
Variables K V : Type.
Variable same : K -> K -> bool.

Definition t := list (K * V).

Definition empty : t := [].

(** [map.set(k, v)]: an existing key keeps its place and gets the new
    value, a new key is appended. *)
Fixpoint set (k : K) (v : V) (m : t) : t :=
  match m with
  | [] => [(k, v)]
  | (k', v') :: rest =>
      if same k k' then (k', v) :: rest else (k', v') :: set k v rest
  end.

Definition values (m : t) : list V := map snd m.
Definition keys (m : t) : list K := map fst m.

End WithKey.
Arguments empty {K V}.
Arguments values {K V} m.
Arguments keys {K V} m.
End JsMap.

(* ================================================================== *)
(** ** The part of acorn's syntax tree the program reads *)

Module Acorn.

(** Every node carries [start] and [end], offsets into the source. *)
Record Node : Type := { start : nat; end_ : nat }.

Record Identifier : Type := { name : string; id_loc : Node }.

Inductive Expression : Type :=
| EIdentifier (i : Identifier)
| CallExpression (callee : Expression) (arguments : list Expression) (loc : Node)
| OtherExpression (loc : Node).

(** [ImportSpecifier.imported] is an [Identifier] or a string [Literal]. *)
Inductive Imported : Type :=
| ImportedIdentifier (i : Identifier)
| ImportedLiteral (value : string) (loc : Node).

Inductive AnyImportSpecifier : Type :=
| ImportSpecifier (imported : Imported) (local : Identifier) (loc : Node)
| ImportDefaultSpecifier (local : Identifier) (loc : Node)
| ImportNamespaceSpecifier (local : Identifier) (loc : Node).

(** [Literal.value]: a string, or one of the other literal kinds. *)
Inductive LiteralValue : Type :=
| VString (s : string)
| VOther.

Record ImportDeclaration : Type := {
  specifiers : list AnyImportSpecifier;
  source_value : LiteralValue;          (* [source.value] *)
  decl_loc : Node
}.

Inductive Statement : Type :=
| SImportDeclaration (d : ImportDeclaration)
| ExpressionStatement (expression : Expression) (loc : Node)
| OtherStatement (loc : Node).

Record Program : Type := { body : list Statement }.

Definition specifier_loc (s : AnyImportSpecifier) : Node :=
  match s with
  | ImportSpecifier _ _ loc => loc
  | ImportDefaultSpecifier _ loc => loc
  | ImportNamespaceSpecifier _ loc => loc
  end.

Definition imported_loc (i : Imported) : Node :=
  match i with
  | ImportedIdentifier i => id_loc i
  | ImportedLiteral _ loc => loc
  end.

(** A node of [program.body] is an object: two nodes are the same object
    exactly when they stand at the same position of the body.  A reference
    to a top-level node is its position together with its content. *)
Definition Ref (A : Type) : Type := (nat * A)%type.

Definition same_ref {A} (a b : Ref A) : bool := Nat.eqb (fst a) (fst b).

End Acorn.
Import Acorn.

(* ================================================================== *)
(** ** magic-string *)

Module MagicString.

(** Modelled from the spec: the edit buffer (the magic-string package) is
    not part of the repository.  The spec describes it as "constructed from
    an original string; supports remove(start, end); serializes to final
    text honoring all removals regardless of call order".  The model keeps
    the original string and the removed ranges, all of them offsets into the
    original; [remove] refuses a range outside the original, as the package
    does, and does nothing for an empty range. *)
Record t : Type := { original : text; removed : list (nat * nat) }.

Definition new (s : text) : t := {| original := s; removed := [] |}.

Definition remove (from to : nat) (ms : t) : Res t :=
  if Nat.eqb from to then Ok ms
  else if Nat.ltb (length (original ms)) to then Throw OutOfBounds
  else if Nat.ltb to from then Throw OutOfBounds
  else Ok {| original := original ms; removed := push (removed ms) (from, to) |}.

Definition covers (i : nat) (r : nat * nat) : bool :=
  Nat.leb (fst r) i && Nat.ltb i (snd r).

Definition is_removed (ms : t) (i : nat) : bool :=
  existsb (covers i) (removed ms).

Definition toString (ms : t) : text :=
  map snd (filter (fun ic => negb (is_removed ms (fst ic))) (indexed (original ms))).

End MagicString.

(* ================================================================== *)
(** ** The outside world of a build *)

(** A [URL] object.  [Map] compares object keys by identity, so the model
    gives every object created by [new URL] its own identity [oid]; [href]
    is the canonical string form of the location. *)
Record URL : Type := { oid : nat; href : string }.

Definition same_url (a b : URL) : bool := Nat.eqb (oid a) (oid b).

(** The collaborators of a build: URL resolution ([new URL(input, base)],
    [None] when it throws), the file system ([readFile], [None] when it
    rejects) and the parser (acorn's [parse], [None] when it throws). *)
Record World : Type := {
  resolve_url : string -> string -> option string;
  readFile : string -> option text;
  parse_source : text -> option Program
}.

(* ================================================================== *)
(** ** [class Module] *)

Module Mod.

(** The fields of a [Module] object; [mid] is the identity of the object
    (the key of [Map<Module, string>]). *)
Record t : Type := {
  mid : nat;
  input : string;
  parentUrl : URL;
  resolvedPath : option URL;
  source : option text;
  program : option Program
}.

Definition same (a b : t) : bool := Nat.eqb (mid a) (mid b).

(** A method: it runs on [this], may throw, and otherwise returns a value
    and the state [this] is left in. *)
Definition Meth (A : Type) : Type := t -> Res (A * t).

Definition ret {A} (a : A) : Meth A := fun this => Ok (a, this).

Definition bind {A B} (c : Meth A) (k : A -> Meth B) : Meth B :=
  fun this =>
    match c this with
    | Ok (a, this') => k a this'
    | Throw e => Throw e
    end.

Definition throw {A} (e : Error) : Meth A := fun _ => Throw e.

Notation "x <- c ;; k" := (bind c (fun x => k))
  (at level 61, c at next level, right associativity).
Notation "c ;;; k" := (bind c (fun _ => k))
  (at level 61, right associativity).

(** [this.program] and [this.source] read for a property access: a
    [TypeError] when the field is still [undefined]. *)
Definition this_program : Meth Program :=
  fun this =>
    match program this with
    | Some p => Ok (p, this)
    | None => Throw TypeError
    end.

Definition this_source : Meth text :=
  fun this =>
    match source this with
    | Some s => Ok (s, this)
    | None => Throw TypeError
    end.

(** [constructor(input, parentUrl)] *)
Definition new (id : nat) (input : string) (parentUrl : URL) : t :=
  {| mid := id; input := input; parentUrl := parentUrl;
     resolvedPath := None; source := None; program := None |}.

(** [resolve()]: [this.resolvedPath = new URL(this.input, this.parentUrl)];
    [fresh] is the identity of the new [URL] object. *)
Definition resolve (w : World) (fresh : nat) : Meth unit :=
  fun this =>
    match resolve_url w (input this) (href (parentUrl this)) with
    | Some h =>
        Ok (tt, {| mid := mid this; input := input this; parentUrl := parentUrl this;
                   resolvedPath := Some {| oid := fresh; href := h |};
                   source := source this; program := program this |})
    | None => Throw InvalidURL
    end.

(** [load()]: [this.source = String(await readFile(this.resolvedPath))] *)
Definition load (w : World) : Meth unit :=
  fun this =>
    match resolvedPath this with
    | None => Throw TypeError
    | Some u =>
        match readFile w (href u) with
        | Some s =>
            Ok (tt, {| mid := mid this; input := input this; parentUrl := parentUrl this;
                       resolvedPath := resolvedPath this;
                       source := Some s; program := program this |})
        | None => Throw ReadFileError
        end
    end.

(** [parse()]: [this.program = parse(this.source, ...)] *)
Definition parse (w : World) : Meth unit :=
  fun this =>
    match source this with
    | None => Throw TypeError
    | Some s =>
        match parse_source w s with
        | Some p =>
            Ok (tt, {| mid := mid this; input := input this; parentUrl := parentUrl this;
                       resolvedPath := resolvedPath this;
                       source := source this; program := Some p |})
        | None => Throw SyntaxError
        end
    end.

(** [init()] *)
Definition init (w : World) (fresh : nat) : Meth unit :=
  resolve w fresh ;;; load w ;;; parse w.

(** [calculateImportDeclarations()] *)
Definition calculateImportDeclarations : Meth (list (Ref ImportDeclaration)) :=
  p <- this_program ;;
  ret (for_of (indexed (body p))
         (fun importDeclarations node =>
            match snd node with
            | SImportDeclaration d => push importDeclarations (fst node, d)
            | _ => importDeclarations
            end)
         []).

(** [calculateDependencyPaths()]: the [source.value] of every import
    declaration, those that are strings. *)
Definition calculateDependencyPaths : Meth (list string) :=
  importDeclarations <- calculateImportDeclarations ;;
  ret (flat_map
         (fun value => match value with VString s => [s] | VOther => [] end)
         (map (fun importDeclaration => source_value (snd importDeclaration))
              importDeclarations)).

(** The inner loop of [calculateImportSpecifiersMap]: the specifiers of one
    declaration that are pushed. *)
Definition collectImportSpecifiers (d : ImportDeclaration) : list AnyImportSpecifier :=
  for_of (specifiers d)
    (fun importSpecifiers importSpecifier =>
       match importSpecifier with
       | ImportSpecifier (ImportedIdentifier _) _ _ =>
           push importSpecifiers importSpecifier
       | _ => importSpecifiers
       end)
    [].

(** [calculateImportSpecifiersMap()].  The source puts the empty array in
    the map and fills it afterwards; the map holds a reference to the array,
    so the entry the caller reads is the filled one. *)
Definition calculateImportSpecifiersMap
  : Meth (JsMap.t (Ref ImportDeclaration) (list AnyImportSpecifier)) :=
  importDeclarations <- calculateImportDeclarations ;;
  ret (for_of importDeclarations
         (fun importSpecifiersMap importDeclaration =>
            JsMap.set same_ref importDeclaration
              (collectImportSpecifiers (snd importDeclaration))
              importSpecifiersMap)
         JsMap.empty).

(** [calculateUsedSpecifiersInModuleBody()] *)
Definition calculateUsedSpecifiersInModuleBody : Meth (list Identifier) :=
  p <- this_program ;;
  ret (for_of (body p)
         (fun usedSpecifiers node =>
            match node with
            | ExpressionStatement (CallExpression (EIdentifier callee) _ _) _ =>
                push usedSpecifiers callee
            | _ => usedSpecifiers
            end)
         []).

(** [nodeToPlain(node)]: [this.source.slice(node.start, node.end)] *)
Definition nodeToPlain (node : Node) : Meth text :=
  s <- this_source ;;
  ret (slice s (start node) (end_ node)).

(** [array.some(callback)] with a callback that is itself a method call:
    the callback runs from the left and stops at the first [true]. *)
Fixpoint some {A} (callback : A -> Meth bool) (xs : list A) : Meth bool :=
  match xs with
  | [] => ret false
  | x :: rest =>
      b <- callback x ;;
      if b then ret true else some callback rest
  end.

(** The loop of [calculateNotUsedImportDeclarations] over the entries of
    the map. *)
Fixpoint notUsedLoop (usedSpecifiers : list Identifier)
    (entries : list (Ref ImportDeclaration * list AnyImportSpecifier))
    (notUsedSpecifiers : list (Ref ImportDeclaration))
  : Meth (list (Ref ImportDeclaration)) :=
  match entries with
  | [] => ret notUsedSpecifiers
  | (importDeclaration, importSpecifiers) :: rest =>
      anyUsed <- some (fun importSpecifier =>
                   some (fun usedSpecifier =>
                      u <- nodeToPlain (id_loc usedSpecifier) ;;
                      i <- nodeToPlain (specifier_loc importSpecifier) ;;
                      ret (text_eqb u i))
                     usedSpecifiers)
                   importSpecifiers ;;
      notUsedLoop usedSpecifiers rest
        (if negb anyUsed then push notUsedSpecifiers importDeclaration
         else notUsedSpecifiers)
  end.

(** [calculateNotUsedImportDeclarations()] *)
Definition calculateNotUsedImportDeclarations : Meth (list (Ref ImportDeclaration)) :=
  importSpecifiersMap <- calculateImportSpecifiersMap ;;
  usedSpecifiers <- calculateUsedSpecifiersInModuleBody ;;
  notUsedLoop usedSpecifiers importSpecifiersMap [].

(** [removeNodes(source, nodes)]: the reduction calls [remove] on the one
    [MagicString] object, which [remove] returns. *)
Fixpoint removeNodes (code : MagicString.t) (nodes : list Node) : Res MagicString.t :=
  match nodes with
  | [] => Ok code
  | nodeToRemove :: rest =>
      match MagicString.remove (start nodeToRemove) (end_ nodeToRemove) code with
      | Ok code' => removeNodes code' rest
      | Throw e => Throw e
      end
  end.

(** [getCode({ withRemovedNodes })] *)
Definition getCode (withRemovedNodes : list Node) : Meth text :=
  s <- this_source ;;
  let str := MagicString.new s in
  match withRemovedNodes with
  | [] => ret (MagicString.toString str)
  | _ :: _ =>
      match removeNodes str withRemovedNodes with
      | Ok str' => ret (MagicString.toString str')
      | Throw e => throw e
      end
  end.

End Mod.

(* ================================================================== *)
(** ** Ordinary objects used as string-keyed records *)

Module JsObject.

(** The own properties of an object in the order they were created (the
    order in which an object literal declares them); keys are distinct. *)
Definition t : Type := list (string * string).

Definition digit (c : ascii) : option N :=
  let n := N_of_ascii c in
  if (N.leb 48 n && N.leb n 57)%bool then Some (n - 48)%N else None.

Fixpoint digits (s : string) (acc : N) : option N :=
  match s with
  | EmptyString => Some acc
  | String c rest =>
      match digit c with
      | Some d => digits rest (acc * 10 + d)%N
      | None => None
      end
  end.

(** A key is an array index when it is the canonical decimal form of an
    integer below 2^32 - 1. *)
Definition array_index (k : string) : option N :=
  match k with
  | EmptyString => None
  | String c rest =>
      if (Ascii.eqb c "0" && negb (String.eqb rest EmptyString))%bool then None
      else match digits k 0%N with
           | Some n => if N.ltb n 4294967295 then Some n else None
           | None => None
           end
  end.

Fixpoint insert_by_index (x : N * (string * string)) (l : list (N * (string * string)))
  : list (N * (string * string)) :=
  match l with
  | [] => [x]
  | y :: rest =>
      if N.leb (fst x) (fst y) then x :: y :: rest
      else y :: insert_by_index x rest
  end.

Definition sort_by_index (l : list (N * (string * string))) : list (N * (string * string)) :=
  fold_right insert_by_index [] l.

(** [Object.entries(o)]: own property order, array-index keys first in
    ascending numeric order, then the other keys in creation order. *)
Definition entries (o : t) : list (string * string) :=
  map snd (sort_by_index
             (flat_map (fun kv => match array_index (fst kv) with
                                  | Some n => [(n, kv)]
                                  | None => []
                                  end) o))
  ++ filter (fun kv => match array_index (fst kv) with
                       | Some _ => false
                       | None => true
                       end) o.

End JsObject.

(* ================================================================== *)
(** ** Promises *)

(** The state of a promise. *)
Inductive Settled (A : Type) : Type :=
| Pending
| Fulfilled (a : A)
| Rejected (e : Error).
Arguments Pending {A}.
Arguments Fulfilled {A} a.
Arguments Rejected {A} e.

(** The first rejection wins. *)
Definition first_rejection (old new : option Error) : option Error :=
  match old with
  | Some e => Some e
  | None => new
  end.

Definition remove_nth {A} (i : nat) (l : list A) : list A :=
  firstn i l ++ skipn (S i) l.

(* ================================================================== *)
(** ** [class Graph] *)

Module Graph.

(** The fields [source], [parent] and [modules], and the state of a build
    in progress: [loading] are the modules whose [init()] is suspended at
    [await this.load()], one per call of [initModuleRecursively] that has
    not got past its first [await]; [rejected] is the first failure, the
    one [build()] rejects with; [next_oid] is the identity the next object
    gets. *)
Record t : Type := {
  source : string;
  parent : URL;
  modules : JsMap.t URL Mod.t;
  next_oid : nat;
  loading : list Mod.t;
  rejected : option Error
}.

Definition new (source : string) (parent : URL) : t :=
  {| source := source; parent := parent; modules := JsMap.empty;
     next_oid := 0; loading := []; rejected := None |}.

Definition reject (e : Error) (g : t) : t :=
  {| source := source g; parent := parent g; modules := modules g;
     next_oid := next_oid g; loading := loading g;
     rejected := first_rejection (rejected g) (Some e) |}.

(** The synchronous start of [initModuleRecursively(path, parent)]:
    [initModule] creates the [Module], [init()] runs [resolve()] and
    suspends at [await this.load()].  Two objects are created, the
    [Module] and the [URL] of [resolve()], each with an identity of its
    own. *)
Definition start (w : World) (path : string) (parent : URL) (g : t) : t :=
  let module := Mod.new (next_oid g) path parent in
  match Mod.resolve w (S (next_oid g)) module with
  | Ok (_, module') =>
      {| source := source g; parent := Graph.parent g; modules := modules g;
         next_oid := 2 + next_oid g; loading := push (loading g) module';
         rejected := rejected g |}
  | Throw e =>
      reject e {| source := source g; parent := Graph.parent g; modules := modules g;
                  next_oid := 2 + next_oid g; loading := loading g;
                  rejected := rejected g |}
  end.

(** The rest of [initModuleRecursively] for the [i]-th loading module, run
    when its [readFile] settles: [load] and [parse] finish [init()],
    [initModule] registers the module under its [resolvedPath] object, and
    every dependency path starts its own [initModuleRecursively].  The map
    holds the module object itself, so it sees the state the later method
    call leaves the module in.  [None] when no module is loading at [i].
    ([load] has read [resolvedPath], so the branch where it is [undefined]
    after [init()] is never taken.) *)
Definition resume (w : World) (i : nat) (g : t) : option t :=
  match nth_error (loading g) i with
  | None => None
  | Some module =>
      let g1 := {| source := source g; parent := parent g; modules := modules g;
                   next_oid := next_oid g; loading := remove_nth i (loading g);
                   rejected := rejected g |} in
      Some
        match Mod.bind (Mod.load w) (fun _ => Mod.parse w) module with
        | Throw e => reject e g1
        | Ok (_, module1) =>
            match Mod.resolvedPath module1 with
            | None => reject TypeError g1
            | Some url =>
                let registered module' :=
                  {| source := source g1; parent := parent g1;
                     modules := JsMap.set same_url url module' (modules g1);
                     next_oid := next_oid g1; loading := loading g1;
                     rejected := rejected g1 |} in
                match Mod.calculateDependencyPaths module1 with
                | Throw e => reject e (registered module1)
                | Ok (moduleDependencyPaths, module2) =>
                    for_of moduleDependencyPaths
                      (fun g' moduleDependencyPath => start w moduleDependencyPath url g')
                      (registered module2)
                end
            end
        end
  end.

(** [build()] up to its first suspension. *)
Definition build (w : World) (g : t) : t := start w (source g) (parent g) g.

(** A schedule is the order in which the pending [readFile]s settle, each
    named by its position among the loading modules. *)
Fixpoint run (w : World) (schedule : list nat) (g : t) : option t :=
  match schedule with
  | [] => Some g
  | i :: rest =>
      match resume w i g with
      | Some g' => run w rest g'
      | None => None
      end
  end.

(** The promise [build()] returned. *)
Definition outcome (g : t) : Settled unit :=
  match rejected g with
  | Some e => Rejected e
  | None => match loading g with
            | [] => Fulfilled tt
            | _ :: _ => Pending
            end
  end.

(** The loop of [removeUnusedImports] over [this.modules.values()]; the
    second component is the modules as the loop leaves them. *)
Fixpoint removeUnusedImportsLoop (entries : list (URL * Mod.t))
    (modulesWithNoUnusedImports : JsMap.t Mod.t text)
  : Res (JsMap.t Mod.t text * list (URL * Mod.t)) :=
  match entries with
  | [] => Ok (modulesWithNoUnusedImports, [])
  | (url, module) :: rest =>
      match Mod.calculateNotUsedImportDeclarations module with
      | Throw e => Throw e
      | Ok (notUsedDeclarations, module1) =>
          match Mod.getCode (map (fun d => decl_loc (snd d)) notUsedDeclarations) module1 with
          | Throw e => Throw e
          | Ok (modifiedCode, module2) =>
              match removeUnusedImportsLoop rest
                      (JsMap.set Mod.same module2 modifiedCode modulesWithNoUnusedImports) with
              | Throw e => Throw e
              | Ok (result, rest') => Ok (result, (url, module2) :: rest')
              end
          end
      end
  end.

(** [removeUnusedImports()] *)
Definition removeUnusedImports (g : t) : Res (JsMap.t Mod.t text * t) :=
  match removeUnusedImportsLoop (modules g) JsMap.empty with
  | Throw e => Throw e
  | Ok (result, modules') =>
      Ok (result, {| source := source g; parent := parent g; modules := modules';
                     next_oid := next_oid g; loading := loading g;
                     rejected := rejected g |})
  end.

End Graph.

(* ================================================================== *)
(** ** [class Chunk] *)

Module Chunk.

Record t : Type := {
  source : string;
  destination : string;
  parent : URL;
  graph : Graph.t
}.

Definition new (source destination : string) (parent : URL) : t :=
  {| source := source; destination := destination; parent := parent;
     graph := Graph.new source parent |}.

Definition with_graph (c : t) (g : Graph.t) : t :=
  {| source := source c; destination := destination c; parent := parent c;
     graph := g |}.

(** [build()] up to its first suspension. *)
Definition build (w : World) (c : t) : t := with_graph c (Graph.build w (graph c)).

(** [generate()]: [const [[, code]] = withRemovedImports] takes the value of
    the first entry and throws when there is none. *)
Definition generate (c : t) : Res (text * t) :=
  match Graph.removeUnusedImports (graph c) with
  | Throw e => Throw e
  | Ok (withRemovedImports, g) =>
      match withRemovedImports with
      | (_, code) :: _ => Ok (code, with_graph c g)
      | [] => Throw TypeError
      end
  end.

End Chunk.

(* ================================================================== *)
(** ** [treeShaker] *)

Module TreeShaker.

Record Options : Type := {
  chunks : JsObject.t;
  parent : URL
}.

(** The array [chunks] of the closure and the state of the [Promise.all]. *)
Record t : Type := {
  built : list Chunk.t;
  rejected : option Error
}.

(** The callback of [Object.entries(options.chunks).map(...)] up to its
    [await]: the chunk is created, pushed and its build started. *)
Definition start (w : World) (options : Options) : t :=
  for_of (JsObject.entries (chunks options))
    (fun st entry =>
       let chunk := Chunk.build w (Chunk.new (snd entry) (fst entry) (parent options)) in
       {| built := push (built st) chunk;
          rejected := first_rejection (rejected st)
                        (Graph.rejected (Chunk.graph chunk)) |})
    {| built := []; rejected := None |}.

Definition replace_nth {A} (j : nat) (x : A) (l : list A) : list A :=
  firstn j l ++ x :: skipn (S j) l.

(** One [readFile] settles: the [i]-th loading module of the [j]-th chunk
    resumes. *)
Definition resume (w : World) (j i : nat) (st : t) : option t :=
  match nth_error (built st) j with
  | None => None
  | Some chunk =>
      match Graph.resume w i (Chunk.graph chunk) with
      | None => None
      | Some g =>
          Some {| built := replace_nth j (Chunk.with_graph chunk g) (built st);
                  rejected := first_rejection (rejected st) (Graph.rejected g) |}
      end
  end.

Fixpoint run (w : World) (schedule : list (nat * nat)) (st : t) : option t :=
  match schedule with
  | [] => Some st
  | (j, i) :: rest =>
      match resume w j i st with
      | Some st' => run w rest st'
      | None => None
      end
  end.

(** [generate()] of the returned object: [chunks.map((chunk) => chunk.generate())] *)
Fixpoint generate (chunks : list Chunk.t) : Res (list text * list Chunk.t) :=
  match chunks with
  | [] => Ok ([], [])
  | chunk :: rest =>
      match Chunk.generate chunk with
      | Throw e => Throw e
      | Ok (code, chunk') =>
          match generate rest with
          | Throw e => Throw e
          | Ok (codes, rest') => Ok (code :: codes, chunk' :: rest')
          end
      end
  end.

(** The promise [treeShaker(options)] returned, read once the [readFile]s of
    [schedule] have settled: rejected with the first failure of a chunk
    build, fulfilled with the object holding [generate] when every build is
    through, pending otherwise. *)
Definition outcome (st : t) : Settled (list Chunk.t) :=
  match rejected st with
  | Some e => Rejected e
  | None =>
      if forallb (fun chunk => match Graph.loading (Chunk.graph chunk) with
                               | [] => true
                               | _ :: _ => false
                               end) (built st)
      then Fulfilled (built st)
      else Pending
  end.

Definition treeShaker (w : World) (options : Options) (schedule : list (nat * nat))
  : option (Settled (list Chunk.t)) :=
  match run w schedule (start w options) with
  | Some st => Some (outcome st)
  | None => None
  end.

End TreeShaker.

(* ================================================================== *)
(** ** What a parse of a source looks like *)

(** The lexical facts about acorn's output that the properties below rest
    on.  An identifier token is made of identifier characters (letters,
    digits, [$], [_], the characters of a unicode escape, and everything
    outside ASCII); the character after an identifier token is not one; a
    string literal starts with a quote. *)
Definition ident_char (c : ascii) : bool :=
  let n := nat_of_ascii c in
  (Nat.leb 48 n && Nat.leb n 57) || (Nat.leb 65 n && Nat.leb n 90)
  || (Nat.leb 97 n && Nat.leb n 122)
  || Nat.eqb n 36 || Nat.eqb n 95 || Nat.eqb n 92 || Nat.eqb n 123 || Nat.eqb n 125
  || Nat.leb 128 n.

Definition node_eqb (a b : Node) : bool :=
  Nat.eqb (start a) (start b) && Nat.eqb (end_ a) (end_ b).

Definition plain (src : text) (node : Node) : text :=
  slice src (start node) (end_ node).

Definition not_ident_at (src : text) (k : nat) : bool :=
  match nth_error src k with
  | Some c => negb (ident_char c)
  | None => false
  end.

(** The text of an [Identifier] node is an identifier token. *)
Definition identifier_sound (src : text) (i : Identifier) : bool :=
  forallb ident_char (plain src (id_loc i)).

(** An [ImportSpecifier] node spans from its imported name to its local
    name and lies in the source.  For [{ a }] the two names are one node;
    for [{ a as b }] the local name starts after the token [a] has ended;
    for [{ 'a' as b }] the imported name is a string literal. *)
Definition specifier_sound (src : text) (s : AnyImportSpecifier) : bool :=
  match s with
  | ImportSpecifier imported local loc =>
      Nat.eqb (start loc) (start (imported_loc imported))
      && Nat.eqb (end_ loc) (end_ (id_loc local))
      && Nat.leb (end_ loc) (length src)
      && match imported with
         | ImportedIdentifier i =>
             node_eqb (id_loc i) (id_loc local)
             || (Nat.leb (start (id_loc i)) (end_ (id_loc i))
                 && Nat.ltb (end_ (id_loc i)) (start (id_loc local))
                 && Nat.leb (start (id_loc local)) (end_ (id_loc local))
                 && not_ident_at src (end_ (id_loc i)))
         | ImportedLiteral _ l =>
             Nat.ltb (start l) (end_ l)
             && Nat.leb (end_ l) (end_ (id_loc local))
             && not_ident_at src (start l)
         end
  | _ => true
  end.

(** [{ a as b }]: the imported name and the local name are two nodes. *)
Definition aliased (s : AnyImportSpecifier) : bool :=
  match s with
  | ImportSpecifier (ImportedIdentifier i) local _ =>
      negb (node_eqb (id_loc i) (id_loc local))
  | _ => false
  end.

(* ================================================================== *)
(** ** The spec's vocabulary *)

(** A named specifier, as opposed to a default or a namespace one. *)
Definition named (s : AnyImportSpecifier) : Prop :=
  match s with
  | ImportSpecifier _ _ _ => True
  | _ => False
  end.

(** An identifier that is the direct callee of a call expression that is a
    top-level expression statement. *)
Definition top_level_callee (p : Program) (u : Identifier) : Prop :=
  exists args loc loc',
    In (ExpressionStatement (CallExpression (EIdentifier u) args loc) loc') (body p).

(** A declaration is unused when no named specifier has the text of a
    top-level callee. *)
Definition unused (src : text) (p : Program) (d : ImportDeclaration) : Prop :=
  forall s u, In s (specifiers d) -> named s -> top_level_callee p u ->
              plain src (specifier_loc s) <> plain src (id_loc u).

(** The import declarations of a program with their positions in the body. *)
Definition import_refs (p : Program) : list (Ref ImportDeclaration) :=
  flat_map (fun node => match snd node with
                        | SImportDeclaration d => [(fst node, d)]
                        | _ => []
                        end)
           (indexed (body p)).

(** The identifiers called by a top-level expression statement. *)
Definition used_callees (p : Program) : list Identifier :=
  flat_map (fun node => match node with
                        | ExpressionStatement (CallExpression (EIdentifier callee) _ _) _ =>
                            [callee]
                        | _ => []
                        end)
           (body p).

Definition lexically_sound (src : text) (p : Program) : bool :=
  forallb (identifier_sound src) (used_callees p)
  && forallb (fun r => forallb (specifier_sound src) (specifiers (snd r)))
             (import_refs p).

(** The specifiers [calculateImportSpecifiersMap] pushes. *)
Definition collected (s : AnyImportSpecifier) : bool :=
  match s with
  | ImportSpecifier (ImportedIdentifier _) _ _ => true
  | _ => false
  end.

Definition any_used (src : text) (used : list Identifier)
    (importSpecifiers : list AnyImportSpecifier) : bool :=
  existsb (fun importSpecifier =>
             existsb (fun usedSpecifier =>
                        text_eqb (plain src (id_loc usedSpecifier))
                                 (plain src (specifier_loc importSpecifier)))
                     used)
          importSpecifiers.

Definition not_used (src : text) (p : Program) (r : Ref ImportDeclaration) : bool :=
  negb (any_used src (used_callees p) (Mod.collectImportSpecifiers (snd r))).

(** The spec's reading of an edited source: the characters of the original
    at the positions no removed span covers, in increasing position. *)
Definition covered (nodes : list Node) (i : nat) : bool :=
  existsb (fun n => Nat.leb (start n) i && Nat.ltb i (end_ n)) nodes.

Definition kept_positions (nodes : list Node) (len : nat) : list nat :=
  filter (fun i => negb (covered nodes i)) (seq 0 len).

Definition excise (nodes : list Node) (src : text) : text :=
  map (fun i => nth i src Ascii.zero) (kept_positions nodes (length src)).

(** A span lies inside the source. *)
Definition span_in (src : text) (n : Node) : Prop :=
  start n <= end_ n <= length src.

Definition span_inb (src : text) (n : Node) : bool :=
  Nat.leb (start n) (end_ n) && Nat.leb (end_ n) (length src).

(** The spans of the import declarations, as [getCode] receives them. *)
Definition decl_spans (rs : list (Ref ImportDeclaration)) : list Node :=
  map (fun r => decl_loc (snd r)) rs.

(** Every import declaration of the parse lies inside the source. *)
Definition declarations_in_source (src : text) (p : Program) : bool :=
  forallb (span_inb src) (decl_spans (import_refs p)).

(** Every registered module of a graph is loaded and parsed, and its
    import declarations lie inside its source. *)
Definition module_ready (m : Mod.t) : bool :=
  match Mod.source m, Mod.program m with
  | Some src, Some p => declarations_in_source src p
  | _, _ => false
  end.

Definition shakeable (g : Graph.t) : bool :=
  forallb (fun entry => module_ready (snd entry)) (Graph.modules g).

(** A method that leaves [this] as it found it. *)
Definition readonly {A} (c : Mod.Meth A) : Prop :=
  forall m r m', c m = Ok (r, m') -> m' = m.

(** Two invocations of a method in a row, on the same object. *)
Definition twice {A} (c : Mod.Meth A) : Mod.Meth (A * A) :=
  Mod.bind c (fun r1 => Mod.bind c (fun r2 => Mod.ret (r1, r2))).

(** The dependency paths of a parsed program. *)
Definition dependency_paths (p : Program) : list string :=
  flat_map (fun value => match value with VString s => [s] | VOther => [] end)
           (map (fun r => source_value (snd r)) (import_refs p)).

(** A set of locations closed under one import each: every location of
    the set loads, parses, and imports a path that resolves into the set.
    A cyclic module graph is such a set (the locations on the cycle). *)
Definition cycle_closed (w : World) (C : string -> Prop) : Prop :=
  forall h, C h ->
    exists src p dep h',
      readFile w h = Some src /\ parse_source w src = Some p
      /\ In dep (dependency_paths p)
      /\ resolve_url w dep h = Some h' /\ C h'.

(** Some module of the set is being loaded. *)
Definition loading_on (C : string -> Prop) (g : Graph.t) : Prop :=
  exists m u, In m (Graph.loading g) /\ Mod.resolvedPath m = Some u /\ C (href u).

(** How many entries of the graph's map have the location [h]. *)
Definition registered (h : string) (g : Graph.t) : nat :=
  length (filter (fun entry => String.eqb (href (fst entry)) h) (Graph.modules g)).

(** [needle] is a substring of [hay]. *)
Fixpoint is_prefix (needle hay : text) : bool :=
  match needle, hay with
  | [], _ => true
  | c :: needle', d :: hay' => Ascii.eqb c d && is_prefix needle' hay'
  | _ :: _, [] => false
  end.

Fixpoint occurs_in (needle hay : text) : bool :=
  is_prefix needle hay
  || match hay with
     | [] => false
     | _ :: hay' => occurs_in needle hay'
     end.

(** The destination and the entry of a chunk, as the input mapping pairs
    them. *)
Definition chunk_entry (c : Chunk.t) : string * string :=
  (Chunk.destination c, Chunk.source c).

(** A chunk build that failed shows in the state of the [Promise.all]. *)
Definition failures_seen (st : TreeShaker.t) : Prop :=
  forall chunk, In chunk (TreeShaker.built st) ->
                Graph.rejected (Chunk.graph chunk) <> None ->
                TreeShaker.rejected st <> None.

(** The parser gives every import declaration a span inside the source. *)
Definition parser_sound (w : World) : Prop :=
  forall src p, parse_source w src = Some p -> declarations_in_source src p = true.

(** What holds of a graph at every point of its build: the registered
    modules are loaded and parsed; and a build that has registered nothing
    is still loading or has failed. *)
Definition well_built (g : Graph.t) : Prop :=
  shakeable g = true
  /\ (Graph.modules g = [] -> Graph.loading g = [] -> Graph.rejected g <> None).

(** The string-valued sources of the top-level import declarations, in
    the order of the body. *)
Definition import_sources (p : Program) : list string :=
  flat_map (fun node => match node with
                        | SImportDeclaration d =>
                            match source_value d with
                            | VString s => [s]
                            | VOther => []
                            end
                        | _ => []
                        end)
           (body p).

(** A module as [init()] leaves it: loaded and parsed. *)
Definition initialized (m : Mod.t) (src : text) (p : Program) : Prop :=
  Mod.source m = Some src /\ Mod.program m = Some p.

(* ================================================================== *)
(** ** Sources and worlds used as concrete inputs *)

Module Fixtures.

Local Open Scope string_scope.

Definition node (a b : nat) : Node := {| start := a; end_ := b |}.

Definition ident (n : string) (a b : nat) : Identifier :=
  {| name := n; id_loc := node a b |}.

Definition newline : ascii := ascii_of_nat 10.

Definition lines (ls : list string) : text :=
  flat_map (fun l => (list_ascii_of_string l ++ [newline])%list) ls.

Definition shaken_src : text :=
  lines ["import { a } from './A.js';";
         "import { b } from './B.js';";
         "import { c } from './C.js';";
         "import './side.js';";
         "import d from './D.js';";
         "import * as n from './N.js';";
         "a();";
         "b();"].

Definition shaken_ast : Program :=
  {| body := [
     SImportDeclaration {| specifiers := [ImportSpecifier (ImportedIdentifier (ident "a" 9 10)) (ident "a" 9 10) (node 9 10)];
        source_value := VString "./A.js"; decl_loc := node 0 27 |};
     SImportDeclaration {| specifiers := [ImportSpecifier (ImportedIdentifier (ident "b" 37 38)) (ident "b" 37 38) (node 37 38)];
        source_value := VString "./B.js"; decl_loc := node 28 55 |};
     SImportDeclaration {| specifiers := [ImportSpecifier (ImportedIdentifier (ident "c" 65 66)) (ident "c" 65 66) (node 65 66)];
        source_value := VString "./C.js"; decl_loc := node 56 83 |};
     SImportDeclaration {| specifiers := [];
        source_value := VString "./side.js"; decl_loc := node 84 103 |};
     SImportDeclaration {| specifiers := [ImportDefaultSpecifier (ident "d" 111 112) (node 111 112)];
        source_value := VString "./D.js"; decl_loc := node 104 127 |};
     SImportDeclaration {| specifiers := [ImportNamespaceSpecifier (ident "n" 140 141) (node 135 141)];
        source_value := VString "./N.js"; decl_loc := node 128 156 |};
     ExpressionStatement (CallExpression (EIdentifier (ident "a" 157 158)) [] (node 157 160)) (node 157 161);
     ExpressionStatement (CallExpression (EIdentifier (ident "b" 162 163)) [] (node 162 165)) (node 162 166)
  ] |}.

Definition alias_src : text :=
  lines ["import { a as b } from './m.js';";
         "a();";
         "b();"].

Definition alias_ast : Program :=
  {| body := [
     SImportDeclaration {| specifiers := [ImportSpecifier (ImportedIdentifier (ident "a" 9 10)) (ident "b" 14 15) (node 9 15)];
        source_value := VString "./m.js"; decl_loc := node 0 32 |};
     ExpressionStatement (CallExpression (EIdentifier (ident "a" 33 34)) [] (node 33 36)) (node 33 37);
     ExpressionStatement (CallExpression (EIdentifier (ident "b" 38 39)) [] (node 38 41)) (node 38 42)
  ] |}.

Definition e_js_src : text :=
  lines ["import { x } from './x.js';";
         "import { y } from './y.js';";
         "x();";
         "y();"].

Definition e_js_ast : Program :=
  {| body := [
     SImportDeclaration {| specifiers := [ImportSpecifier (ImportedIdentifier (ident "x" 9 10)) (ident "x" 9 10) (node 9 10)];
        source_value := VString "./x.js"; decl_loc := node 0 27 |};
     SImportDeclaration {| specifiers := [ImportSpecifier (ImportedIdentifier (ident "y" 37 38)) (ident "y" 37 38) (node 37 38)];
        source_value := VString "./y.js"; decl_loc := node 28 55 |};
     ExpressionStatement (CallExpression (EIdentifier (ident "x" 56 57)) [] (node 56 59)) (node 56 60);
     ExpressionStatement (CallExpression (EIdentifier (ident "y" 61 62)) [] (node 61 64)) (node 61 65)
  ] |}.

Definition x_js_src : text :=
  lines ["import { z } from './z.js';";
         "z();"].

Definition x_js_ast : Program :=
  {| body := [
     SImportDeclaration {| specifiers := [ImportSpecifier (ImportedIdentifier (ident "z" 9 10)) (ident "z" 9 10) (node 9 10)];
        source_value := VString "./z.js"; decl_loc := node 0 27 |};
     ExpressionStatement (CallExpression (EIdentifier (ident "z" 28 29)) [] (node 28 31)) (node 28 32)
  ] |}.

Definition y_js_src : text :=
  lines ["import { z } from './z.js';";
         "z();";
         "z();"].

Definition y_js_ast : Program :=
  {| body := [
     SImportDeclaration {| specifiers := [ImportSpecifier (ImportedIdentifier (ident "z" 9 10)) (ident "z" 9 10) (node 9 10)];
        source_value := VString "./z.js"; decl_loc := node 0 27 |};
     ExpressionStatement (CallExpression (EIdentifier (ident "z" 28 29)) [] (node 28 31)) (node 28 32);
     ExpressionStatement (CallExpression (EIdentifier (ident "z" 33 34)) [] (node 33 36)) (node 33 37)
  ] |}.

Definition z_js_src : text :=
  lines ["export function z() {}"].

Definition z_js_ast : Program :=
  {| body := [
     OtherStatement (node 0 22)
  ] |}.

Definition a_js_src : text :=
  lines ["import { b } from './b.js';";
         "b();"].

Definition a_js_ast : Program :=
  {| body := [
     SImportDeclaration {| specifiers := [ImportSpecifier (ImportedIdentifier (ident "b" 9 10)) (ident "b" 9 10) (node 9 10)];
        source_value := VString "./b.js"; decl_loc := node 0 27 |};
     ExpressionStatement (CallExpression (EIdentifier (ident "b" 28 29)) [] (node 28 31)) (node 28 32)
  ] |}.

Definition b_js_src : text :=
  lines ["import { a } from './a.js';";
         "a();"].

Definition b_js_ast : Program :=
  {| body := [
     SImportDeclaration {| specifiers := [ImportSpecifier (ImportedIdentifier (ident "a" 9 10)) (ident "a" 9 10) (node 9 10)];
        source_value := VString "./a.js"; decl_loc := node 0 27 |};
     ExpressionStatement (CallExpression (EIdentifier (ident "a" 28 29)) [] (node 28 31)) (node 28 32)
  ] |}.


(** The scenario of the spec: three named imports, two of them called. *)
Definition scenario_src : text :=
  lines ["import { a } from './A.js';";
         "import { b } from './B.js';";
         "import { c } from './C.js';";
         "a();";
         "b();"].

Definition scenario_ast : Program :=
  {| body := [
     SImportDeclaration {| specifiers := [ImportSpecifier (ImportedIdentifier (ident "a" 9 10)) (ident "a" 9 10) (node 9 10)];
        source_value := VString "./A.js"; decl_loc := node 0 27 |};
     SImportDeclaration {| specifiers := [ImportSpecifier (ImportedIdentifier (ident "b" 37 38)) (ident "b" 37 38) (node 37 38)];
        source_value := VString "./B.js"; decl_loc := node 28 55 |};
     SImportDeclaration {| specifiers := [ImportSpecifier (ImportedIdentifier (ident "c" 65 66)) (ident "c" 65 66) (node 65 66)];
        source_value := VString "./C.js"; decl_loc := node 56 83 |};
     ExpressionStatement (CallExpression (EIdentifier (ident "a" 84 85)) [] (node 84 87)) (node 84 88);
     ExpressionStatement (CallExpression (EIdentifier (ident "b" 89 90)) [] (node 89 92)) (node 89 93)
  ] |}.

(** A flat directory: [./name] resolves to [file:///src/name], whatever
    the base. *)
Definition resolve_flat (input base : string) : option string :=
  match input with
  | String "." (String "/" rest) => Some ("file:///src/" ++ rest)%string
  | _ => None
  end.

Definition files : list (string * (text * Program)) :=
  [ ("file:///src/e.js", (e_js_src, e_js_ast));
    ("file:///src/x.js", (x_js_src, x_js_ast));
    ("file:///src/y.js", (y_js_src, y_js_ast));
    ("file:///src/z.js", (z_js_src, z_js_ast));
    ("file:///src/a.js", (a_js_src, a_js_ast));
    ("file:///src/b.js", (b_js_src, b_js_ast));
    ("file:///src/shaken.js", (shaken_src, shaken_ast));
    ("file:///src/alias.js", (alias_src, alias_ast)) ]%string.

Definition read_flat (h : string) : option text :=
  option_map (fun f => fst (snd f)) (find (fun f => String.eqb (fst f) h) files).

Definition parse_flat (s : text) : option Program :=
  option_map (fun f => snd (snd f)) (find (fun f => text_eqb (fst (snd f)) s) files).

Definition world : World :=
  {| resolve_url := resolve_flat; readFile := read_flat; parse_source := parse_flat |}.

Definition base : URL := {| oid := 0; href := "file:///src/" |}.

(** A module object after [init()] on a given source. *)
Definition loaded (src : text) (p : Program) : Mod.t :=
  {| Mod.mid := 0; Mod.input := "./m.js"; Mod.parentUrl := base;
     Mod.resolvedPath := Some {| oid := 1; href := "file:///src/m.js" |};
     Mod.source := Some src; Mod.program := Some p |}.

(** The graph a build of [entry] ends with when the reads settle in the
    order [schedule]. *)
Definition built_graph (entry : string) (schedule : list nat) : Graph.t :=
  match Graph.run world schedule (Graph.build world (Graph.new entry base)) with
  | Some g => g
  | None => Graph.new entry base
  end.

(** The diamond: [e.js] imports [x.js] and [y.js], both import [z.js]. *)
Definition diamond : Graph.t := built_graph "./e.js" [0; 0; 0; 0; 0].

(** The cycle: [a.js] imports [b.js], [b.js] imports [a.js]. *)
Definition cycle_start : Graph.t := Graph.build world (Graph.new "./a.js" base).

Definition on_cycle (h : string) : Prop :=
  h = "file:///src/a.js" \/ h = "file:///src/b.js".

(** Exactly one module is being loaded, it is [a.js] or [b.js], and
    nothing has failed. *)
Definition one_loading_on_cycle (g : Graph.t) : Prop :=
  Graph.rejected g = None
  /\ exists m u, Graph.loading g = [m] /\ Mod.resolvedPath m = Some u
                 /\ on_cycle (href u).

(** The chunk of the diamond, built. *)
Definition diamond_chunk : Chunk.t :=
  Chunk.with_graph (Chunk.new "./e.js" "out.js" base) diamond.

(** Two chunks, the second with an entry that cannot be read. *)
Definition one_bad_chunk : TreeShaker.Options :=
  {| TreeShaker.chunks := [("ok.js", "./z.js"); ("bad.js", "./missing.js")];
     TreeShaker.parent := base |}.

(** Two chunks whose output identifiers are array indices, declared in
    descending order. *)
Definition numbered_chunks : TreeShaker.Options :=
  {| TreeShaker.chunks := [("2", "./z.js"); ("1", "./y.js")];
     TreeShaker.parent := base |}.

(** Two chunks with ordinary output identifiers. *)
Definition named_chunks : TreeShaker.Options :=
  {| TreeShaker.chunks := [("z.out.js", "./z.js"); ("y.out.js", "./y.js")];
     TreeShaker.parent := base |}.

(** The state of [treeShaker] once the reads of [schedule] have settled. *)
Definition shaker_after (options : TreeShaker.Options) (schedule : list (nat * nat))
  : TreeShaker.t :=
  match TreeShaker.run world schedule (TreeShaker.start world options) with
  | Some st => st
  | None => TreeShaker.start world options
  end.

(** A chunk built on its own. *)
Definition built_chunk (destination entry : string) (schedule : list nat) : Chunk.t :=
  Chunk.with_graph (Chunk.new entry destination base) (built_graph entry schedule).

(** A default import that is called and a namespace import. *)
Definition default_src : text :=
  lines ["import d from './D.js';";
         "import * as ns from './N.js';";
         "d();"].

Definition default_ast : Program :=
  {| body := [
     SImportDeclaration {| specifiers := [ImportDefaultSpecifier (ident "d" 7 8) (node 7 8)];
        source_value := VString "./D.js"; decl_loc := node 0 23 |};
     SImportDeclaration {| specifiers := [ImportNamespaceSpecifier (ident "ns" 36 38) (node 31 38)];
        source_value := VString "./N.js"; decl_loc := node 24 53 |};
     ExpressionStatement (CallExpression (EIdentifier (ident "d" 54 55)) [] (node 54 57)) (node 54 58)
  ] |}.

End Fixtures.

(* ================================================================== *)
(** * The vocabulary of the further properties *)

Unset Implicit Arguments.

(** ** States of a build *)

(** The module [init()] is suspended on: created with identity [id], its
    [resolvedPath] a new [URL] object for the location [h]. *)
Definition started (id : nat) (path : string) (parent : URL) (h : string) : Mod.t :=
  {| Mod.mid := id; Mod.input := path; Mod.parentUrl := parent;
     Mod.resolvedPath := Some {| oid := S id; href := h |};
     Mod.source := None; Mod.program := None |}.

(** The module [init()] leaves when the read and the parse went through. *)
Definition loaded_from (m : Mod.t) (u : URL) (src : text) (p : Program) : Mod.t :=
  {| Mod.mid := Mod.mid m; Mod.input := Mod.input m; Mod.parentUrl := Mod.parentUrl m;
     Mod.resolvedPath := Some u; Mod.source := Some src; Mod.program := Some p |}.

(** The graph without its [i]-th loading module, and with one more
    registration. *)
Definition settled (i : nat) (g : Graph.t) : Graph.t :=
  {| Graph.source := Graph.source g; Graph.parent := Graph.parent g;
     Graph.modules := Graph.modules g; Graph.next_oid := Graph.next_oid g;
     Graph.loading := remove_nth i (Graph.loading g);
     Graph.rejected := Graph.rejected g |}.

Definition register (u : URL) (m : Mod.t) (g : Graph.t) : Graph.t :=
  {| Graph.source := Graph.source g; Graph.parent := Graph.parent g;
     Graph.modules := JsMap.set same_url u m (Graph.modules g);
     Graph.next_oid := Graph.next_oid g; Graph.loading := Graph.loading g;
     Graph.rejected := Graph.rejected g |}.

Definition starts (w : World) (u : URL) (deps : list string) (g : Graph.t) : Graph.t :=
  for_of deps (fun g' dep => Graph.start w dep u g') g.

(** The modules a graph holds: the registered ones and the loading ones. *)
Definition live (g : Graph.t) : list Mod.t :=
  map snd (Graph.modules g) ++ Graph.loading g.

Record consistent (w : World) (g : Graph.t) : Prop := {
  c_fresh : forall m, In m (live g) -> Mod.mid m < Graph.next_oid g;
  c_nodup : NoDup (map Mod.mid (live g));
  c_resolved : forall m, In m (live g) ->
    exists h, Mod.resolvedPath m = Some {| oid := S (Mod.mid m); href := h |}
              /\ resolve_url w (Mod.input m) (href (Mod.parentUrl m)) = Some h;
  c_keys : forall url m, In (url, m) (Graph.modules g) ->
    Mod.resolvedPath m = Some url
    /\ exists src p, readFile w (href url) = Some src /\ parse_source w src = Some p
                     /\ Mod.source m = Some src /\ Mod.program m = Some p;
  c_origin : forall m, In m (live g) ->
    (Mod.input m = Graph.source g /\ Mod.parentUrl m = Graph.parent g)
    \/ exists m' p', In (Mod.parentUrl m, m') (Graph.modules g)
                     /\ Mod.program m' = Some p'
                     /\ In (Mod.input m) (dependency_paths p');
  c_entry : forall m,
    (Graph.modules g = [] /\ In m (Graph.loading g))
    \/ (exists url rest, Graph.modules g = (url, m) :: rest) ->
    Mod.input m = Graph.source g /\ Mod.parentUrl m = Graph.parent g;
  c_errors : forall e, Graph.rejected g = Some e ->
    e = InvalidURL \/ e = ReadFileError \/ e = SyntaxError
}.

(** Every import of a registered module has its module, registered or
    loading; [todo] are the imports of [u] still to be started. *)
Definition closed_upto (g : Graph.t) (u : URL) (todo : list string) : Prop :=
  Graph.rejected g = None ->
  forall url m p dep,
    In (url, m) (Graph.modules g) -> Mod.program m = Some p ->
    In dep (dependency_paths p) ->
    (url = u /\ In dep todo)
    \/ exists c, In c (live g) /\ Mod.input c = dep /\ Mod.parentUrl c = url.

Definition closed (g : Graph.t) : Prop :=
  Graph.rejected g = None ->
  forall url m p dep,
    In (url, m) (Graph.modules g) -> Mod.program m = Some p ->
    In dep (dependency_paths p) ->
    exists c, In c (live g) /\ Mod.input c = dep /\ Mod.parentUrl c = url.

(** A state of a build: consistent and closed. *)
Definition sound (w : World) (g : Graph.t) : Prop := consistent w g /\ closed g.

(** The text of a module without its unused import declarations. *)
Definition shaken_text (src : text) (p : Program) : text :=
  excise (decl_spans (filter (not_used src p) (import_refs p))) src.

Definition shaken (m : Mod.t) : text :=
  match Mod.source m, Mod.program m with
  | Some src, Some p => shaken_text src p
  | _, _ => []
  end.

(** What holds of every chunk of [treeShaker] at every point. *)
Definition chunk_sound (w : World) (options : TreeShaker.Options) (chunk : Chunk.t) : Prop :=
  consistent w (Chunk.graph chunk)
  /\ Graph.source (Chunk.graph chunk) = Chunk.source chunk
  /\ Graph.parent (Chunk.graph chunk) = TreeShaker.parent options.

(** ** More concrete inputs *)

Module MoreFixtures.

Import Fixtures.
Local Open Scope string_scope.

(** A module that imports a file that cannot be read, and [z.js]. *)
Definition broken_src : text :=
  lines ["import { q } from './missing.js';";
         "import { z } from './z.js';";
         "q();";
         "z();"].

Definition broken_ast : Program :=
  {| body := [
     SImportDeclaration {| specifiers := [ImportSpecifier (ImportedIdentifier (ident "q" 9 10)) (ident "q" 9 10) (node 9 10)];
        source_value := VString "./missing.js"; decl_loc := node 0 33 |};
     SImportDeclaration {| specifiers := [ImportSpecifier (ImportedIdentifier (ident "z" 43 44)) (ident "z" 43 44) (node 43 44)];
        source_value := VString "./z.js"; decl_loc := node 34 61 |};
     ExpressionStatement (CallExpression (EIdentifier (ident "q" 62 63)) [] (node 62 65)) (node 62 66);
     ExpressionStatement (CallExpression (EIdentifier (ident "z" 67 68)) [] (node 67 70)) (node 67 71)
  ] |}.

(** A module whose imports are used, but by no top-level call of an
    identifier: [a] is an argument, [b] the object of a member call. *)
Definition indirect_src : text :=
  lines ["import { a } from './A.js';";
         "import b from './B.js';";
         "console.log(a);";
         "b.run();"].

Definition indirect_ast : Program :=
  {| body := [
     SImportDeclaration {| specifiers := [ImportSpecifier (ImportedIdentifier (ident "a" 9 10)) (ident "a" 9 10) (node 9 10)];
        source_value := VString "./A.js"; decl_loc := node 0 27 |};
     SImportDeclaration {| specifiers := [ImportDefaultSpecifier (ident "b" 35 36) (node 35 36)];
        source_value := VString "./B.js"; decl_loc := node 28 51 |};
     ExpressionStatement (CallExpression (OtherExpression (node 52 63)) [EIdentifier (ident "a" 64 65)] (node 52 66)) (node 52 67);
     ExpressionStatement (CallExpression (OtherExpression (node 68 73)) [] (node 68 75)) (node 68 76)
  ] |}.

(** Two declarations that import from the same module. *)
Definition twice_src : text :=
  lines ["import { a } from './m.js';";
         "import { b } from './m.js';";
         "a();"].

Definition twice_ast : Program :=
  {| body := [
     SImportDeclaration {| specifiers := [ImportSpecifier (ImportedIdentifier (ident "a" 9 10)) (ident "a" 9 10) (node 9 10)];
        source_value := VString "./m.js"; decl_loc := node 0 27 |};
     SImportDeclaration {| specifiers := [ImportSpecifier (ImportedIdentifier (ident "b" 37 38)) (ident "b" 37 38) (node 37 38)];
        source_value := VString "./m.js"; decl_loc := node 28 55 |};
     ExpressionStatement (CallExpression (EIdentifier (ident "a" 56 57)) [] (node 56 59)) (node 56 60)
  ] |}.

(** The flat directory with [broken.js] added. *)
Definition broken_world : World :=
  {| resolve_url := resolve_flat;
     readFile := fun h => if String.eqb h "file:///src/broken.js" then Some broken_src
                          else read_flat h;
     parse_source := fun s => if text_eqb s broken_src then Some broken_ast
                              else parse_flat s |}.

Definition broken_graph (schedule : list nat) : Graph.t :=
  match Graph.run broken_world schedule
          (Graph.build broken_world (Graph.new "./broken.js" base)) with
  | Some g => g
  | None => Graph.new "./broken.js" base
  end.

(** The entry of the diamond, as the build registers it. *)
Definition e_js_url : URL := {| oid := 1; href := "file:///src/e.js" |}.

Definition e_js_module : Mod.t :=
  loaded_from (started 0 "./e.js" base "file:///src/e.js") e_js_url e_js_src e_js_ast.

End MoreFixtures.

(* ================================================================== *)
(** * The first revision of [class Module]

    The first revision of [main.ts] compares names instead of source texts
    and keys its map by the string an import declaration imports from. *)

Module ModV1.

(** What its methods throw: the [Error] of an import source that is not a
    string, and the [TypeError] of reading [this.program.body] before
    [parse()]. *)
Inductive Error : Type :=
| UnsupportedSource
| TypeError.

Inductive Res (A : Type) : Type :=
| Ok (a : A)
| Throw (e : Error).
Arguments Ok {A} a.
Arguments Throw {A} e.

(** [calculateImportDeclarations()] *)
Definition calculateImportDeclarations (this : Mod.t) : Res (list ImportDeclaration) :=
  match Mod.program this with
  | None => Throw TypeError
  | Some p =>
      Ok (for_of (body p)
            (fun importDeclarations node =>
               match node with
               | SImportDeclaration d => push importDeclarations d
               | _ => importDeclarations
               end)
            [])
  end.

(** The inner loop of [calculateImportSpecifiersMap]: the imported names
    that are pushed. *)
Definition collectNames (d : ImportDeclaration) : list string :=
  for_of (specifiers d)
    (fun importSpecifiers importSpecifier =>
       match importSpecifier with
       | ImportSpecifier (ImportedIdentifier imported) _ _ =>
           push importSpecifiers (name imported)
       | _ => importSpecifiers
       end)
    [].

(** The outer loop of [calculateImportSpecifiersMap]; the map is keyed by
    [source.value], a string. *)
Fixpoint importSpecifiersLoop (importDeclarations : list ImportDeclaration)
    (importSpecifiersMap : JsMap.t string (list string))
  : Res (JsMap.t string (list string)) :=
  match importDeclarations with
  | [] => Ok importSpecifiersMap
  | importDeclaration :: rest =>
      match source_value importDeclaration with
      | VOther => Throw UnsupportedSource
      | VString importDeclarationValue =>
          importSpecifiersLoop rest
            (JsMap.set String.eqb importDeclarationValue
               (collectNames importDeclaration) importSpecifiersMap)
      end
  end.

(** [calculateImportSpecifiersMap()] *)
Definition calculateImportSpecifiersMap (this : Mod.t)
  : Res (JsMap.t string (list string)) :=
  match calculateImportDeclarations this with
  | Throw e => Throw e
  | Ok importDeclarations => importSpecifiersLoop importDeclarations JsMap.empty
  end.

(** [calculateUsedSpecifiersInModuleBody()] *)
Definition calculateUsedSpecifiersInModuleBody (this : Mod.t) : Res (list string) :=
  match Mod.program this with
  | None => Throw TypeError
  | Some p =>
      Ok (for_of (body p)
            (fun usedSpecifiers node =>
               match node with
               | ExpressionStatement (CallExpression (EIdentifier callee) _ _) _ =>
                   push usedSpecifiers (name callee)
               | _ => usedSpecifiers
               end)
            [])
  end.

(** [array.includes(x)] on strings *)
Definition includes (xs : list string) (x : string) : bool :=
  existsb (String.eqb x) xs.

(** [calculateNotUsedImportDeclarations()] *)
Definition calculateNotUsedImportDeclarations (this : Mod.t) : Res (list string) :=
  match calculateImportSpecifiersMap this with
  | Throw e => Throw e
  | Ok importSpecifiersMap =>
      match calculateUsedSpecifiersInModuleBody this with
      | Throw e => Throw e
      | Ok usedSpecifiers =>
          Ok (for_of importSpecifiersMap
                (fun notUsedSpecifiers entry =>
                   let anyUsed := existsb (includes usedSpecifiers) (snd entry) in
                   if negb anyUsed then push notUsedSpecifiers (fst entry)
                   else notUsedSpecifiers)
                [])
      end
  end.

End ModV1.

(** ** The vocabulary of the first revision *)

(** The names a declaration imports, and the names a program calls at top
    level. *)
Definition imported_names (d : ImportDeclaration) : list string :=
  flat_map (fun s => match s with
                     | ImportSpecifier (ImportedIdentifier i) _ _ => [name i]
                     | _ => []
                     end)
           (specifiers d).

Definition called_names (p : Program) : list string := map name (used_callees p).

Definition import_declarations (p : Program) : list ImportDeclaration :=
  map snd (import_refs p).

Definition source_string (d : ImportDeclaration) : string :=
  match source_value d with
  | VString s => s
  | VOther => EmptyString
  end.

Definition name_used (p : Program) (d : ImportDeclaration) : bool :=
  existsb (ModV1.includes (called_names p)) (imported_names d).

(** The map a series of [set] builds. *)
Definition set_all (V : Type) (l : list (string * V)) (acc : JsMap.t string V) : JsMap.t string V :=
  fold_left (fun m kv => JsMap.set String.eqb (fst kv) (snd kv) m) l acc.

(** The entry a declaration sets in the map of the first revision. *)
Definition binding (d : ImportDeclaration) : string * list string :=
  (source_string d, imported_names d).

Set Implicit Arguments.

(* ================================================================== *)
(** * Properties *)

(** ** Lists, loops and maps *)

Section Loops.
Variables A B : Type.

Lemma for_of_flat_map (f : A -> list B) (body : list B -> A -> list B) :
  (forall acc x, body acc x = acc ++ f x) ->
  forall xs init, for_of xs body init = init ++ flat_map f xs.
Proof.
  intros Hbody. unfold for_of.
  induction xs as [|x xs IH]; intros init; simpl.
  - now rewrite app_nil_r.
  - rewrite IH, Hbody, <- app_assoc. reflexivity.
Qed.

Lemma in_combine_seq (xs : list A) :
  forall k i x,
    In (i, x) (combine (seq k (length xs)) xs)
    <-> k <= i /\ nth_error xs (i - k) = Some x.
Proof.
  induction xs as [|y ys IH]; intros k i x; simpl.
  - split; [tauto|]. intros [_ H]. destruct (i - k); discriminate.
  - rewrite IH. split.
    + intros [H | [Hk H]].
      * inversion H; subst. rewrite Nat.sub_diag. simpl. split; [lia|reflexivity].
      * split; [lia|]. replace (i - k) with (S (i - S k)) by lia. exact H.
    + intros [Hk H]. destruct (Nat.eq_dec i k) as [->|Hne].
      * left. rewrite Nat.sub_diag in H. simpl in H. congruence.
      * right. split; [lia|].
        replace (i - k) with (S (i - S k)) in H by lia. exact H.
Qed.

Lemma in_indexed (xs : list A) i x :
  In (i, x) (indexed xs) <-> nth_error xs i = Some x.
Proof.
  unfold indexed. rewrite in_combine_seq, Nat.sub_0_r.
  split; [tauto|]. intros H; split; [lia|exact H].
Qed.

Lemma fst_indexed (xs : list A) : map fst (indexed xs) = seq 0 (length xs).
Proof.
  unfold indexed. generalize 0.
  induction xs as [|y ys IH]; intros k; simpl; [reflexivity|].
  now rewrite IH.
Qed.

Lemma snd_indexed (xs : list A) : map snd (indexed xs) = xs.
Proof.
  unfold indexed. generalize 0.
  induction xs as [|y ys IH]; intros k; simpl; [reflexivity|].
  now rewrite IH.
Qed.

End Loops.

Lemma seq_sorted : forall len k, StronglySorted lt (seq k len).
Proof.
  induction len as [|len IH]; intros k; simpl; constructor.
  - apply IH.
  - apply Forall_forall. intros x Hx. apply in_seq in Hx. lia.
Qed.

Lemma sorted_filter {A} (R : A -> A -> Prop) (f : A -> bool) :
  forall l, StronglySorted R l -> StronglySorted R (filter f l).
Proof.
  induction l as [|x l IH]; intros H; simpl; [constructor|].
  inversion H; subst.
  destruct (f x); [constructor|]; auto.
  apply Forall_forall. intros y Hy. apply filter_In in Hy.
  rewrite Forall_forall in H3. apply H3. tauto.
Qed.

Lemma sorted_lt_NoDup : forall l, StronglySorted lt l -> NoDup l.
Proof.
  induction l as [|x l IH]; intros H; constructor; inversion H; subst.
  - intros Hin. rewrite Forall_forall in H3. specialize (H3 x Hin). lia.
  - auto.
Qed.

Lemma text_eqb_eq (a b : text) : text_eqb a b = true <-> a = b.
Proof.
  unfold text_eqb. destruct (text_eq_dec a b); split; congruence.
Qed.

Lemma nth_error_slice (s : text) (from to k : nat) (c : ascii) :
  nth_error s k = Some c -> from <= k < to -> In c (slice s from to).
Proof.
  intros Hk Hrange. unfold slice.
  apply nth_error_In with (n := k - from).
  rewrite nth_error_firstn.
  replace (k - from <? to - from) with true
    by (symmetry; apply Nat.ltb_lt; lia).
  rewrite nth_error_skipn. replace (from + (k - from)) with k by lia.
  exact Hk.
Qed.

(** Setting a key that is not in the map appends the entry. *)
Lemma set_fresh {K V} (same : K -> K -> bool) (k : K) (v : V) :
  forall m, (forall k', In k' (JsMap.keys m) -> same k k' = false) ->
            JsMap.set same k v m = m ++ [(k, v)].
Proof.
  induction m as [|[k' v'] m IH]; intros Hfresh; simpl; [reflexivity|].
  rewrite (Hfresh k') by (simpl; auto).
  rewrite IH; [reflexivity|]. intros k'' Hin. apply Hfresh. simpl. auto.
Qed.

(* ================================================================== *)
(** ** What the methods of [Module] compute *)

Lemma in_import_refs (p : Program) i d :
  In (i, d) (import_refs p) <-> nth_error (body p) i = Some (SImportDeclaration d).
Proof.
  unfold import_refs. rewrite in_flat_map. split.
  - intros [[j node] [Hin H]]. apply in_indexed in Hin. simpl in H.
    destruct node; simpl in H; try contradiction.
    destruct H as [H|[]]. inversion H; subst. exact Hin.
  - intros H. exists (i, SImportDeclaration d). split.
    + now apply in_indexed.
    + simpl. auto.
Qed.

Lemma import_refs_sorted (p : Program) :
  StronglySorted lt (map fst (import_refs p)).
Proof.
  unfold import_refs.
  assert (Hs : StronglySorted lt (map fst (indexed (body p))))
    by (rewrite fst_indexed; apply seq_sorted).
  induction (indexed (body p)) as [|[j node] l IH]; simpl; [constructor|].
  simpl in Hs. inversion Hs; subst.
  destruct node; simpl; auto.
  constructor; auto.
  apply Forall_forall. intros k Hk.
  apply in_map_iff in Hk. destruct Hk as [[k' d'] [<- Hin]].
  apply in_flat_map in Hin. destruct Hin as [[j' n'] [Hin H]].
  rewrite Forall_forall in H2. simpl in *.
  destruct n'; simpl in H; try contradiction.
  destruct H as [H|[]]. inversion H; subst.
  apply H2. apply in_map_iff. exists (k', SImportDeclaration d'). auto.
Qed.

Lemma calculateImportDeclarations_eq m p :
  Mod.program m = Some p ->
  Mod.calculateImportDeclarations m = Ok (import_refs p, m).
Proof.
  intros Hp. unfold Mod.calculateImportDeclarations, Mod.bind, Mod.this_program.
  rewrite Hp. unfold Mod.ret, import_refs. f_equal. f_equal.
  erewrite for_of_flat_map; [reflexivity|].
  intros acc [j node]. simpl. destruct node; unfold push; simpl;
    now rewrite ?app_nil_r.
Qed.

Lemma collectImportSpecifiers_eq (d : ImportDeclaration) :
  Mod.collectImportSpecifiers d = filter collected (specifiers d).
Proof.
  unfold Mod.collectImportSpecifiers.
  rewrite for_of_flat_map
    with (f := fun s => if collected s then [s] else []).
  - simpl. induction (specifiers d) as [|s l IH]; simpl; [reflexivity|].
    rewrite IH. now destruct (collected s).
  - intros acc s. destruct s as [[i|v l] local loc| |]; unfold push; simpl;
      now rewrite ?app_nil_r.
Qed.

Lemma set_refs_fold {V} (g : Ref ImportDeclaration -> V) :
  forall (l : list (Ref ImportDeclaration)) (acc : JsMap.t (Ref ImportDeclaration) V),
    NoDup (map fst l) ->
    (forall r k, In r l -> In k (JsMap.keys acc) -> fst r <> fst k) ->
    for_of l (fun m r => JsMap.set same_ref r (g r) m) acc
    = acc ++ map (fun r => (r, g r)) l.
Proof.
  unfold for_of.
  induction l as [|r l IH]; intros acc Hnd Hfresh; simpl.
  - now rewrite app_nil_r.
  - inversion Hnd; subst.
    rewrite set_fresh.
    + rewrite IH; [now rewrite <- app_assoc|assumption|].
      intros r' k Hr' Hk. unfold JsMap.keys in Hk.
      rewrite map_app in Hk. apply in_app_or in Hk. destruct Hk as [Hk|Hk].
      * apply Hfresh; simpl; auto.
      * simpl in Hk. destruct Hk as [<-|[]].
        intros E. apply H1. rewrite <- E. now apply in_map.
    + intros k Hk. unfold same_ref. apply Nat.eqb_neq.
      apply Hfresh; simpl; auto.
Qed.

Lemma calculateImportSpecifiersMap_eq m p :
  Mod.program m = Some p ->
  Mod.calculateImportSpecifiersMap m
  = Ok (map (fun r => (r, Mod.collectImportSpecifiers (snd r))) (import_refs p), m).
Proof.
  intros Hp. unfold Mod.calculateImportSpecifiersMap, Mod.bind.
  rewrite (calculateImportDeclarations_eq m Hp). unfold Mod.ret.
  rewrite set_refs_fold.
  - reflexivity.
  - apply sorted_lt_NoDup, import_refs_sorted.
  - intros r k _ [].
Qed.

Lemma calculateUsedSpecifiersInModuleBody_eq m p :
  Mod.program m = Some p ->
  Mod.calculateUsedSpecifiersInModuleBody m = Ok (used_callees p, m).
Proof.
  intros Hp. unfold Mod.calculateUsedSpecifiersInModuleBody, Mod.bind, Mod.this_program.
  rewrite Hp. unfold Mod.ret, used_callees. f_equal. f_equal.
  erewrite for_of_flat_map; [reflexivity|].
  intros acc node. unfold push.
  destruct node as [d|e loc|loc]; simpl; rewrite ?app_nil_r; try reflexivity.
  destruct e as [i|callee args loc'|loc']; simpl; rewrite ?app_nil_r; try reflexivity.
  destruct callee; simpl; now rewrite ?app_nil_r.
Qed.

Lemma some_eq {A} (callback : A -> Mod.Meth bool) (f : A -> bool) (m : Mod.t) :
  (forall x, callback x m = Ok (f x, m)) ->
  forall xs, Mod.some callback xs m = Ok (existsb f xs, m).
Proof.
  intros Hcb. induction xs as [|x xs IH]; simpl; [reflexivity|].
  unfold Mod.bind. rewrite Hcb. destruct (f x); simpl; [reflexivity|exact IH].
Qed.

Lemma nodeToPlain_eq m src node :
  Mod.source m = Some src -> Mod.nodeToPlain node m = Ok (plain src node, m).
Proof.
  intros Hs. unfold Mod.nodeToPlain, Mod.bind, Mod.this_source. now rewrite Hs.
Qed.

Lemma notUsedLoop_eq m src used :
  Mod.source m = Some src ->
  forall entries acc,
    Mod.notUsedLoop used entries acc m
    = Ok (acc ++ map fst (filter (fun e => negb (any_used src used (snd e))) entries), m).
Proof.
  intros Hs. induction entries as [|[r specs] entries IH]; intros acc; simpl.
  - unfold Mod.ret. now rewrite app_nil_r.
  - unfold Mod.bind at 1.
    rewrite some_eq with (f := fun importSpecifier =>
        existsb (fun usedSpecifier =>
                   text_eqb (plain src (id_loc usedSpecifier))
                            (plain src (specifier_loc importSpecifier))) used).
    + fold (any_used src used specs). rewrite IH.
      destruct (any_used src used specs); simpl; [reflexivity|].
      unfold push. now rewrite <- app_assoc.
    + intros s. apply some_eq. intros u. unfold Mod.bind.
      now rewrite !nodeToPlain_eq with (src := src) by exact Hs.
Qed.

Lemma calculateNotUsedImportDeclarations_eq m p src :
  Mod.program m = Some p -> Mod.source m = Some src ->
  Mod.calculateNotUsedImportDeclarations m
  = Ok (filter (not_used src p) (import_refs p), m).
Proof.
  intros Hp Hs. unfold Mod.calculateNotUsedImportDeclarations, Mod.bind.
  rewrite (calculateImportSpecifiersMap_eq m Hp).
  rewrite (calculateUsedSpecifiersInModuleBody_eq m Hp).
  rewrite notUsedLoop_eq with (src := src) by exact Hs. simpl. f_equal. f_equal.
  rewrite filter_map_swap, map_map. simpl. rewrite map_id. reflexivity.
Qed.

(* ================================================================== *)
(** ** Editing the source *)

Lemma covered_iff nodes i :
  covered nodes i = true <-> exists n, In n nodes /\ start n <= i < end_ n.
Proof.
  unfold covered. rewrite existsb_exists. split; intros [n [Hin H]]; exists n; split; auto.
  - apply andb_true_iff in H. destruct H as [H1 H2].
    apply Nat.leb_le in H1. apply Nat.ltb_lt in H2. lia.
  - apply andb_true_iff. split; [apply Nat.leb_le|apply Nat.ltb_lt]; lia.
Qed.

Lemma in_kept_positions nodes len i :
  In i (kept_positions nodes len)
  <-> i < len /\ forall n, In n nodes -> ~ (start n <= i < end_ n).
Proof.
  unfold kept_positions. rewrite filter_In, in_seq, negb_true_iff. split.
  - intros [Hi Hc]. split; [lia|]. intros n Hn Hr.
    assert (covered nodes i = true) by (apply covered_iff; eauto). congruence.
  - intros [Hi Hn]. split; [lia|].
    destruct (covered nodes i) eqn:E; [|reflexivity].
    apply covered_iff in E. destruct E as [n [Hin Hr]]. now apply Hn in Hin.
Qed.

Lemma kept_positions_sorted nodes len :
  StronglySorted lt (kept_positions nodes len).
Proof. apply sorted_filter, seq_sorted. Qed.

Lemma covered_permutation nodes nodes' i :
  Permutation nodes nodes' -> covered nodes i = covered nodes' i.
Proof.
  intros HP.
  destruct (covered nodes i) eqn:E1, (covered nodes' i) eqn:E2; try reflexivity.
  - apply covered_iff in E1. destruct E1 as [n [Hin Hr]].
    assert (covered nodes' i = true)
      by (apply covered_iff; exists n; split; [eapply Permutation_in; eauto|auto]).
    congruence.
  - apply covered_iff in E2. destruct E2 as [n [Hin Hr]].
    assert (covered nodes i = true)
      by (apply covered_iff; exists n; split;
          [eapply Permutation_in; [apply Permutation_sym|]; eauto|auto]).
    congruence.
Qed.

Lemma excise_permutation nodes nodes' src :
  Permutation nodes nodes' -> excise nodes src = excise nodes' src.
Proof.
  intros HP. unfold excise, kept_positions. f_equal.
  apply filter_ext. intros i. f_equal. now apply covered_permutation.
Qed.

Lemma filter_combine_seq (f : nat -> bool) (xs : text) :
  forall k,
    map snd (filter (fun ic => f (fst ic)) (combine (seq k (length xs)) xs))
    = map (fun i => nth (i - k) xs Ascii.zero) (filter f (seq k (length xs))).
Proof.
  induction xs as [|x xs IH]; intros k; simpl; [reflexivity|].
  assert (Htail :
    map (fun i => nth (i - S k) xs Ascii.zero) (filter f (seq (S k) (length xs)))
    = map (fun i => nth (i - k) (x :: xs) Ascii.zero) (filter f (seq (S k) (length xs)))).
  { apply map_ext_in. intros i Hi. apply filter_In in Hi. destruct Hi as [Hi _].
    apply in_seq in Hi. replace (i - k) with (S (i - S k)) by lia. reflexivity. }
  destruct (f k); simpl.
  - rewrite Nat.sub_diag. f_equal. rewrite IH. exact Htail.
  - rewrite IH. exact Htail.
Qed.

Lemma toString_eq (ms : MagicString.t) :
  MagicString.toString ms
  = map (fun i => nth i (MagicString.original ms) Ascii.zero)
        (filter (fun i => negb (MagicString.is_removed ms i))
                (seq 0 (length (MagicString.original ms)))).
Proof.
  unfold MagicString.toString, indexed.
  rewrite filter_combine_seq with (f := fun i => negb (MagicString.is_removed ms i)).
  apply map_ext. intros i. now rewrite Nat.sub_0_r.
Qed.

Lemma excise_nil (src : text) : excise [] src = src.
Proof.
  transitivity (MagicString.toString (MagicString.new src)).
  - now rewrite toString_eq.
  - unfold MagicString.toString, MagicString.is_removed. simpl.
    rewrite <- (snd_indexed src) at 2. f_equal.
    induction (indexed src) as [|x l IH]; simpl; [reflexivity|]. now rewrite IH.
Qed.

Lemma removeNodes_spec :
  forall nodes ms,
    Forall (span_in (MagicString.original ms)) nodes ->
    exists ms',
      Mod.removeNodes ms nodes = Ok ms'
      /\ MagicString.original ms' = MagicString.original ms
      /\ forall i, MagicString.is_removed ms' i
                   = (MagicString.is_removed ms i || covered nodes i)%bool.
Proof.
  induction nodes as [|n nodes IH]; intros ms Hv; simpl.
  - exists ms. repeat split. intros i. now rewrite orb_false_r.
  - inversion Hv as [|? ? Hn Hrest]; subst. destruct Hn as [Hle Hlen].
    unfold MagicString.remove.
    destruct (Nat.eqb_spec (start n) (end_ n)) as [E|E].
    + destruct (IH ms Hrest) as [ms' [H1 [H2 H3]]].
      exists ms'. repeat split; auto. intros i. rewrite H3. f_equal.
      replace (Nat.leb (start n) i && Nat.ltb i (end_ n))%bool with false; [reflexivity|].
      symmetry. apply andb_false_iff.
      destruct (Nat.leb_spec (start n) i); [right; apply Nat.ltb_ge; lia|now left].
    + replace (Nat.ltb (length (MagicString.original ms)) (end_ n)) with false
        by (symmetry; apply Nat.ltb_ge; lia).
      replace (Nat.ltb (end_ n) (start n)) with false
        by (symmetry; apply Nat.ltb_ge; lia).
      set (ms1 := {| MagicString.original := MagicString.original ms;
                     MagicString.removed := push (MagicString.removed ms) (start n, end_ n) |}).
      destruct (IH ms1 Hrest) as [ms' [H1 [H2 H3]]].
      exists ms'. repeat split; auto. intros i. rewrite H3.
      unfold MagicString.is_removed, ms1, push. simpl.
      rewrite existsb_app. simpl. unfold MagicString.covers. simpl.
      now rewrite orb_false_r, orb_assoc.
Qed.

Lemma getCode_eq m src nodes :
  Mod.source m = Some src -> Forall (span_in src) nodes ->
  Mod.getCode nodes m = Ok (excise nodes src, m).
Proof.
  intros Hs Hv. unfold Mod.getCode, Mod.bind, Mod.this_source. rewrite Hs.
  destruct nodes as [|n nodes].
  - unfold Mod.ret. rewrite excise_nil.
    now rewrite <- (excise_nil src) at 2; rewrite toString_eq.
  - destruct (@removeNodes_spec (n :: nodes) (MagicString.new src) Hv)
      as [ms' [H1 [H2 H3]]].
    rewrite H1. unfold Mod.ret. rewrite toString_eq, H2. simpl.
    unfold excise, kept_positions. do 3 f_equal.
    apply filter_ext. intros i. now rewrite H3.
Qed.

(* ================================================================== *)
(** ** Unused import declarations *)

Lemma in_used_callees (p : Program) (u : Identifier) :
  In u (used_callees p) <-> top_level_callee p u.
Proof.
  unfold used_callees, top_level_callee. rewrite in_flat_map. split.
  - intros [node [Hin H]].
    destruct node as [d|e loc|loc]; try contradiction.
    destruct e as [i|callee args loc'|loc']; try contradiction.
    destruct callee as [i| |]; try contradiction.
    destruct H as [<-|[]]. eauto.
  - intros [args [loc [loc' Hin]]]. eexists. split; [exact Hin|]. simpl. auto.
Qed.

Lemma any_used_false src used specs :
  any_used src used specs = false
  <-> forall s u, In s specs -> In u used ->
                  plain src (specifier_loc s) <> plain src (id_loc u).
Proof.
  unfold any_used. split.
  - intros H s u Hs Hu E.
    assert (existsb
              (fun importSpecifier =>
                 existsb (fun usedSpecifier =>
                            text_eqb (plain src (id_loc usedSpecifier))
                                     (plain src (specifier_loc importSpecifier))) used)
              specs = true); [|congruence].
    apply existsb_exists. exists s. split; [exact Hs|].
    apply existsb_exists. exists u. split; [exact Hu|].
    apply text_eqb_eq. congruence.
  - intros H. apply not_true_is_false. intros E.
    apply existsb_exists in E. destruct E as [s [Hs E]].
    apply existsb_exists in E. destruct E as [u [Hu E]].
    apply text_eqb_eq in E. apply (H s u Hs Hu). congruence.
Qed.

(** A text with a character that is not an identifier character is not the
    text of an identifier. *)
Lemma not_identifier_text (t1 t2 : text) (c : ascii) :
  forallb ident_char t1 = true -> In c t2 -> ident_char c = false -> t2 <> t1.
Proof.
  intros Hall Hin Hc E. subst t2.
  rewrite forallb_forall in Hall. rewrite (Hall c Hin) in Hc. discriminate.
Qed.

Lemma not_ident_at_slice src k from to :
  not_ident_at src k = true -> from <= k < to ->
  exists c, In c (slice src from to) /\ ident_char c = false.
Proof.
  unfold not_ident_at. intros H Hr.
  destruct (nth_error src k) as [c|] eqn:E; [|discriminate].
  exists c. split.
  - eapply nth_error_slice; eauto.
  - now apply negb_true_iff.
Qed.

(** The text of a specifier that is not a single identifier holds a
    character no identifier has. *)
Lemma specifier_text_not_identifier src s :
  specifier_sound src s = true -> named s ->
  collected s = false \/ aliased s = true ->
  exists c, In c (plain src (specifier_loc s)) /\ ident_char c = false.
Proof.
  intros Hs Hn Hk.
  destruct s as [imported local loc|local loc|local loc]; try contradiction.
  simpl in Hs. unfold plain. simpl.
  repeat (apply andb_true_iff in Hs; destruct Hs as [Hs ?]).
  apply Nat.eqb_eq in Hs. apply Nat.eqb_eq in H1. apply Nat.leb_le in H0.
  destruct imported as [i|v l]; simpl in *.
  - destruct Hk as [Hk|Hk]; [discriminate|].
    apply negb_true_iff in Hk. rewrite Hk in H. simpl in H.
    repeat (apply andb_true_iff in H; destruct H as [H ?]).
    apply Nat.leb_le in H. apply Nat.ltb_lt in H4. apply Nat.leb_le in H3.
    apply not_ident_at_slice with (k := end_ (id_loc i)); [assumption|lia].
  - repeat (apply andb_true_iff in H; destruct H as [H ?]).
    apply Nat.ltb_lt in H. apply Nat.leb_le in H3.
    apply not_ident_at_slice with (k := start l); [assumption|lia].
Qed.

Lemma lexically_sound_callee src p u :
  lexically_sound src p = true -> top_level_callee p u ->
  forallb ident_char (plain src (id_loc u)) = true.
Proof.
  unfold lexically_sound. intros H Hu. apply andb_true_iff in H. destruct H as [H _].
  rewrite forallb_forall in H. apply (H u). now apply in_used_callees.
Qed.

Lemma lexically_sound_specifier src p i d s :
  lexically_sound src p = true ->
  nth_error (body p) i = Some (SImportDeclaration d) -> In s (specifiers d) ->
  specifier_sound src s = true.
Proof.
  unfold lexically_sound. intros H Hd Hs. apply andb_true_iff in H. destruct H as [_ H].
  rewrite forallb_forall in H. apply in_import_refs in Hd. specialize (H _ Hd).
  simpl in H. rewrite forallb_forall in H. now apply H.
Qed.

Lemma collected_named s : collected s = true -> named s.
Proof. destruct s as [[i|v l] local loc| |]; simpl; auto; discriminate. Qed.

(** [not_used], the test the loop applies, against the spec's [unused]. *)
Lemma not_used_iff src p i d :
  lexically_sound src p = true ->
  nth_error (body p) i = Some (SImportDeclaration d) ->
  not_used src p (i, d) = true <-> unused src p d.
Proof.
  intros Hlex Hd. unfold not_used. rewrite negb_true_iff, any_used_false.
  simpl. rewrite collectImportSpecifiers_eq. unfold unused. split.
  - intros H s u Hs Hn Hu.
    destruct (collected s) eqn:Ec.
    + apply H; [apply filter_In; auto|now apply in_used_callees].
    + destruct (@specifier_text_not_identifier src s) as [c [Hc1 Hc2]]; auto.
      * eapply lexically_sound_specifier; eauto.
      * eapply not_identifier_text; eauto.
        eapply lexically_sound_callee; eauto.
  - intros H s u Hs Hu. apply filter_In in Hs. destruct Hs as [Hs Hc].
    apply H; [assumption|now apply collected_named|now apply in_used_callees].
Qed.

(** C1.  On an initialized module whose parse is lexically sound,
    [calculateNotUsedImportDeclarations] returns, and leaves the module as
    it was; a declaration (the import declaration at position [i] of the
    body) is in the result exactly when it is unused, that is, when no named
    specifier of it has the source text of an identifier that is the direct
    callee of a top-level call statement; the result is in the order of the
    body, without repetition. *)
Theorem not_used_declarations_exact (m : Mod.t) (src : text) (p : Program) :
  initialized m src p ->
  lexically_sound src p = true ->
  exists notUsed,
    Mod.calculateNotUsedImportDeclarations m = Ok (notUsed, m)
    /\ (forall i d,
          In (i, d) notUsed
          <-> nth_error (body p) i = Some (SImportDeclaration d) /\ unused src p d)
    /\ StronglySorted lt (map fst notUsed).
Proof.
  intros [Hs Hp] Hlex.
  exists (filter (not_used src p) (import_refs p)). split; [|split].
  - now apply calculateNotUsedImportDeclarations_eq.
  - intros i d. rewrite filter_In, in_import_refs. split.
    + intros [Hd Hn]. split; [assumption|]. eapply not_used_iff; eauto.
    + intros [Hd Hn]. split; [assumption|]. eapply not_used_iff; eauto.
  - assert (Hsorted := import_refs_sorted p).
    induction (import_refs p) as [|r l IH]; simpl; [constructor|].
    simpl in Hsorted. inversion Hsorted; subst.
    destruct (not_used src p r); simpl; auto.
    constructor; auto.
    apply Forall_forall. intros k Hk. apply in_map_iff in Hk.
    destruct Hk as [r' [<- Hr']]. apply filter_In in Hr'.
    rewrite Forall_forall in H2. apply H2. apply in_map. tauto.
Qed.

Lemma not_used_declarations_exact_witness :
  exists notUsed,
    Mod.calculateNotUsedImportDeclarations
      (Fixtures.loaded Fixtures.shaken_src Fixtures.shaken_ast)
    = Ok (notUsed, Fixtures.loaded Fixtures.shaken_src Fixtures.shaken_ast)
    /\ (forall i d,
          In (i, d) notUsed
          <-> nth_error (body Fixtures.shaken_ast) i = Some (SImportDeclaration d)
              /\ unused Fixtures.shaken_src Fixtures.shaken_ast d)
    /\ StronglySorted lt (map fst notUsed).
Proof.
  apply (@not_used_declarations_exact
           (Fixtures.loaded Fixtures.shaken_src Fixtures.shaken_ast)
           Fixtures.shaken_src Fixtures.shaken_ast).
  - split; reflexivity.
  - vm_compute. reflexivity.
Defined.

(* ================================================================== *)
(** ** The edited source *)

Lemma span_inb_iff src n : span_inb src n = true <-> span_in src n.
Proof.
  unfold span_inb, span_in. rewrite andb_true_iff, !Nat.leb_le. tauto.
Qed.

(** C4.  For a module holding the source [src] and spans inside it,
    [getCode] returns the characters of [src] at the positions no span
    covers, in increasing position (so every byte of a removed span is
    gone and every other byte is kept, in order); the spans are read as
    offsets into the original, so any order of the same spans gives the
    same result; with nothing to remove the result is the source. *)
Theorem getCode_excises_spans (m : Mod.t) (src : text) (nodes : list Node) :
  Mod.source m = Some src ->
  Forall (span_in src) nodes ->
  Mod.getCode nodes m = Ok (excise nodes src, m)
  /\ (forall i, In i (kept_positions nodes (length src))
                <-> i < length src /\ forall n, In n nodes -> ~ (start n <= i < end_ n))
  /\ StronglySorted lt (kept_positions nodes (length src))
  /\ (forall nodes', Permutation nodes nodes' ->
                     Mod.getCode nodes' m = Mod.getCode nodes m)
  /\ Mod.getCode [] m = Ok (src, m).
Proof.
  intros Hs Hv. split; [|split; [|split; [|split]]].
  - now apply getCode_eq.
  - intros i. apply in_kept_positions.
  - apply kept_positions_sorted.
  - intros nodes' HP.
    rewrite (getCode_eq m Hs Hv).
    rewrite (@getCode_eq m src nodes' Hs); [|eapply Permutation_Forall; eauto].
    now rewrite (excise_permutation src HP).
  - rewrite (@getCode_eq m src [] Hs); [|constructor]. now rewrite excise_nil.
Qed.

Lemma getCode_excises_spans_witness :
  Mod.getCode [Fixtures.node 84 103; Fixtures.node 56 83]
    (Fixtures.loaded Fixtures.shaken_src Fixtures.shaken_ast)
  = Ok (excise [Fixtures.node 84 103; Fixtures.node 56 83] Fixtures.shaken_src,
        Fixtures.loaded Fixtures.shaken_src Fixtures.shaken_ast).
Proof.
  refine (proj1 (@getCode_excises_spans
                   (Fixtures.loaded Fixtures.shaken_src Fixtures.shaken_ast)
                   Fixtures.shaken_src [Fixtures.node 84 103; Fixtures.node 56 83]
                   _ _)).
  - reflexivity.
  - repeat constructor; unfold span_in; vm_compute; lia.
Defined.

(* ================================================================== *)
(** ** Imports without a collected specifier, aliased imports *)

(** The three forms of import the inner loop collects nothing from. *)
Lemma nothing_collected (d : ImportDeclaration) :
  (forall s, In s (specifiers d) -> collected s = false) ->
  Mod.collectImportSpecifiers d = [].
Proof.
  intros H. rewrite collectImportSpecifiers_eq.
  induction (specifiers d) as [|s l IH]; simpl; [reflexivity|].
  rewrite (H s) by (simpl; auto). apply IH. intros s' Hs'. apply H. simpl. auto.
Qed.

Lemma nothing_collected_forms (d : ImportDeclaration) local loc :
  specifiers d = []
  \/ specifiers d = [ImportDefaultSpecifier local loc]
  \/ specifiers d = [ImportNamespaceSpecifier local loc] ->
  Mod.collectImportSpecifiers d = [].
Proof.
  intros H. apply nothing_collected. intros s Hs.
  destruct H as [H|[H|H]]; rewrite H in Hs; simpl in Hs;
    try contradiction; destruct Hs as [<-|[]]; reflexivity.
Qed.

Lemma declarations_in_source_spans src p rs :
  declarations_in_source src p = true ->
  (forall r, In r rs -> In r (import_refs p)) ->
  Forall (span_in src) (decl_spans rs).
Proof.
  unfold declarations_in_source. intros H Hsub.
  rewrite forallb_forall in H. apply Forall_forall. intros n Hn.
  apply span_inb_iff. apply H. unfold decl_spans in *.
  apply in_map_iff in Hn. destruct Hn as [r [<- Hr]].
  apply in_map_iff. exists r. auto.
Qed.



(** The default import [d] is called at top level and its declaration is
    removed all the same, with the namespace import: the generated text is
    the call alone. *)
Example called_default_import_is_removed :
  Mod.calculateUsedSpecifiersInModuleBody
    (Fixtures.loaded Fixtures.default_src Fixtures.default_ast)
  = Ok ([Fixtures.ident "d" 54 55],
        Fixtures.loaded Fixtures.default_src Fixtures.default_ast)
  /\ exists notUsed m,
       Mod.calculateNotUsedImportDeclarations
         (Fixtures.loaded Fixtures.default_src Fixtures.default_ast)
       = Ok (notUsed, m)
       /\ map fst notUsed = [0; 1]
       /\ Mod.getCode (decl_spans notUsed) m
          = Ok ((Fixtures.newline :: Fixtures.newline
                   :: Fixtures.lines ["d();"%string])%list, m).
Proof.
  split; [reflexivity|]. eexists. eexists.
  split; [vm_compute; reflexivity|]. split; vm_compute; reflexivity.
Qed.

(** C10.  The text compared for a specifier is the text of the whole
    specifier node, from its imported name to its local name.  For an
    aliased specifier that text is not the text of any top-level callee, so
    a declaration whose collected specifiers are all aliased is always in
    the result of [calculateNotUsedImportDeclarations], whatever the module
    calls. *)
Theorem aliased_import_always_unused (m : Mod.t) (src : text) (p : Program)
    (i : nat) (d : ImportDeclaration) :
  initialized m src p ->
  lexically_sound src p = true ->
  nth_error (body p) i = Some (SImportDeclaration d) ->
  (forall s, In s (Mod.collectImportSpecifiers d) -> aliased s = true) ->
  (forall imported local loc,
      In (ImportSpecifier imported local loc) (Mod.collectImportSpecifiers d) ->
      Mod.nodeToPlain loc m
      = Ok (slice src (start (imported_loc imported)) (end_ (id_loc local)), m))
  /\ (forall s u, In s (Mod.collectImportSpecifiers d) -> top_level_callee p u ->
                  plain src (specifier_loc s) <> plain src (id_loc u))
  /\ exists notUsed,
       Mod.calculateNotUsedImportDeclarations m = Ok (notUsed, m)
       /\ In (i, d) notUsed.
Proof.
  intros [Hs Hp] Hlex Hd Hal.
  assert (Hsound : forall s, In s (Mod.collectImportSpecifiers d) ->
                             specifier_sound src s = true /\ collected s = true).
  { intros s Hin. rewrite collectImportSpecifiers_eq in Hin.
    apply filter_In in Hin. destruct Hin as [Hin Hc]. split; [|exact Hc].
    eapply lexically_sound_specifier; eauto. }
  assert (Hdiff : forall s u, In s (Mod.collectImportSpecifiers d) ->
                              top_level_callee p u ->
                              plain src (specifier_loc s) <> plain src (id_loc u)).
  { intros s u Hin Hu.
    destruct (Hsound s Hin) as [Hss Hc].
    destruct (@specifier_text_not_identifier src s) as [c [Hc1 Hc2]]; auto.
    - now apply collected_named.
    - eapply not_identifier_text; eauto.
      eapply lexically_sound_callee; eauto. }
  split; [|split].
  - intros imported local loc Hin.
    rewrite nodeToPlain_eq with (src := src) by exact Hs.
    destruct (Hsound _ Hin) as [Hss _]. simpl in Hss.
    repeat (apply andb_true_iff in Hss; destruct Hss as [Hss ?]).
    apply Nat.eqb_eq in Hss. apply Nat.eqb_eq in H1.
    unfold plain. now rewrite Hss, H1.
  - exact Hdiff.
  - exists (filter (not_used src p) (import_refs p)). split.
    + now apply calculateNotUsedImportDeclarations_eq.
    + apply filter_In. split; [now apply in_import_refs|].
      unfold not_used. rewrite negb_true_iff, any_used_false. simpl.
      intros s u Hin Hu. apply Hdiff; [assumption|now apply in_used_callees].
Qed.

Lemma aliased_import_always_unused_witness :
  exists notUsed,
    Mod.calculateNotUsedImportDeclarations
      (Fixtures.loaded Fixtures.alias_src Fixtures.alias_ast)
    = Ok (notUsed, Fixtures.loaded Fixtures.alias_src Fixtures.alias_ast)
    /\ In (0, {| specifiers :=
                   [ImportSpecifier (ImportedIdentifier (Fixtures.ident "a" 9 10))
                      (Fixtures.ident "b" 14 15) (Fixtures.node 9 15)];
                 source_value := VString "./m.js";
                 decl_loc := Fixtures.node 0 32 |}) notUsed.
Proof.
  apply (@aliased_import_always_unused
           (Fixtures.loaded Fixtures.alias_src Fixtures.alias_ast)
           Fixtures.alias_src Fixtures.alias_ast 0
           {| specifiers :=
                [ImportSpecifier (ImportedIdentifier (Fixtures.ident "a" 9 10))
                   (Fixtures.ident "b" 14 15) (Fixtures.node 9 15)];
              source_value := VString "./m.js";
              decl_loc := Fixtures.node 0 32 |}).
  - split; reflexivity.
  - vm_compute. reflexivity.
  - reflexivity.
  - intros s [<-|[]]. reflexivity.
Defined.

(** The aliased fixture: the compared text is [a as b], and both [a] and
    [b] are called at top level. *)
Example aliased_compared_text :
  plain Fixtures.alias_src (Fixtures.node 9 15) = list_ascii_of_string "a as b"
  /\ map name (used_callees Fixtures.alias_ast) = ["a"; "b"]%string.
Proof. split; reflexivity. Qed.

(* ================================================================== *)
(** ** The methods read, they do not write *)

Lemma readonly_ret {A} (a : A) : readonly (Mod.ret a).
Proof. intros m r m' H. inversion H. reflexivity. Qed.

Lemma readonly_bind {A B} (c : Mod.Meth A) (k : A -> Mod.Meth B) :
  readonly c -> (forall a, readonly (k a)) -> readonly (Mod.bind c k).
Proof.
  intros Hc Hk m r m' H. unfold Mod.bind in H.
  destruct (c m) as [[a m1]|e] eqn:E; [|discriminate].
  apply Hc in E. subst m1. now apply Hk in H.
Qed.

Lemma readonly_this_program : readonly Mod.this_program.
Proof.
  intros m r m' H. unfold Mod.this_program in H.
  destruct (Mod.program m); inversion H. reflexivity.
Qed.

Lemma readonly_this_source : readonly Mod.this_source.
Proof.
  intros m r m' H. unfold Mod.this_source in H.
  destruct (Mod.source m); inversion H. reflexivity.
Qed.

Lemma readonly_some {A} (callback : A -> Mod.Meth bool) :
  (forall x, readonly (callback x)) -> forall xs, readonly (Mod.some callback xs).
Proof.
  intros Hcb. induction xs as [|x xs IH]; simpl.
  - apply readonly_ret.
  - apply readonly_bind; [apply Hcb|]. intros [|]; [apply readonly_ret|exact IH].
Qed.

Lemma readonly_nodeToPlain node : readonly (Mod.nodeToPlain node).
Proof.
  apply readonly_bind; [apply readonly_this_source|]. intros a. apply readonly_ret.
Qed.

Lemma readonly_notUsedLoop used :
  forall entries acc, readonly (Mod.notUsedLoop used entries acc).
Proof.
  induction entries as [|[r specs] entries IH]; intros acc; simpl.
  - apply readonly_ret.
  - apply readonly_bind; [|intros a; apply IH].
    apply readonly_some. intros s. apply readonly_some. intros u.
    apply readonly_bind; [apply readonly_nodeToPlain|]. intros a.
    apply readonly_bind; [apply readonly_nodeToPlain|]. intros b.
    apply readonly_ret.
Qed.

Lemma readonly_calculateImportDeclarations :
  readonly Mod.calculateImportDeclarations.
Proof.
  apply readonly_bind; [apply readonly_this_program|]. intros a. apply readonly_ret.
Qed.

Lemma readonly_calculateNotUsedImportDeclarations :
  readonly Mod.calculateNotUsedImportDeclarations.
Proof.
  apply readonly_bind.
  - apply readonly_bind; [apply readonly_calculateImportDeclarations|].
    intros a. apply readonly_ret.
  - intros importSpecifiersMap. apply readonly_bind.
    + apply readonly_bind; [apply readonly_this_program|]. intros a. apply readonly_ret.
    + intros used. apply readonly_notUsedLoop.
Qed.

Lemma readonly_getCode nodes : readonly (Mod.getCode nodes).
Proof.
  apply readonly_bind; [apply readonly_this_source|]. intros s.
  destruct nodes as [|n nodes]; [apply readonly_ret|].
  intros m r m' H. cbv zeta in H.
  destruct (Mod.removeNodes (MagicString.new s) (n :: nodes)).
  - now apply readonly_ret in H.
  - discriminate.
Qed.

Lemma twice_eq {A} (c : Mod.Meth A) m r :
  c m = Ok (r, m) -> twice c m = Ok ((r, r), m).
Proof. intros H. unfold twice, Mod.bind. now rewrite !H. Qed.

Lemma module_ready_initialized m :
  module_ready m = true ->
  exists src p, initialized m src p /\ declarations_in_source src p = true.
Proof.
  unfold module_ready, initialized. intros H.
  destruct (Mod.source m) as [src|]; [|discriminate].
  destruct (Mod.program m) as [p|]; [|discriminate].
  exists src, p. auto.
Qed.

Lemma ready_module_shakes m :
  module_ready m = true ->
  exists notUsed code,
    Mod.calculateNotUsedImportDeclarations m = Ok (notUsed, m)
    /\ Mod.getCode (decl_spans notUsed) m = Ok (code, m).
Proof.
  intros H. destruct (module_ready_initialized m H) as [src [p [[Hs Hp] Hd]]].
  exists (filter (not_used src p) (import_refs p)).
  exists (excise (decl_spans (filter (not_used src p) (import_refs p))) src).
  split.
  - now apply calculateNotUsedImportDeclarations_eq.
  - apply getCode_eq; [assumption|].
    apply declarations_in_source_spans with (p := p); [assumption|].
    intros r Hr. apply filter_In in Hr. tauto.
Qed.

Lemma set_not_empty {K V} (same : K -> K -> bool) (k : K) (v : V) (m : JsMap.t K V) :
  JsMap.set same k v m <> [].
Proof. destruct m as [|[k' v'] m]; simpl; [|destruct (same k k')]; discriminate. Qed.

Lemma removeUnusedImportsLoop_total :
  forall entries acc,
    forallb (fun entry => module_ready (snd entry)) entries = true ->
    exists out,
      Graph.removeUnusedImportsLoop entries acc = Ok (out, entries)
      /\ (entries <> [] \/ acc <> [] -> out <> []).
Proof.
  induction entries as [|[url m] entries IH]; intros acc H; simpl.
  - exists acc. split; [reflexivity|]. intros [Hne|Hne]; congruence.
  - simpl in H. apply andb_true_iff in H. destruct H as [Hm Hrest].
    destruct (ready_module_shakes m Hm) as [notUsed [code [H1 H2]]].
    rewrite H1. fold (decl_spans notUsed). rewrite H2.
    destruct (IH (JsMap.set Mod.same m code acc) Hrest) as [out [Hout Hne]].
    rewrite Hout. exists out. split; [reflexivity|].
    intros _. apply Hne. right. apply set_not_empty.
Qed.

Lemma removeUnusedImportsLoop_frame :
  forall entries acc out entries',
    Graph.removeUnusedImportsLoop entries acc = Ok (out, entries') ->
    entries' = entries.
Proof.
  induction entries as [|[url m] entries IH]; intros acc out entries' H; simpl in H.
  - now inversion H.
  - destruct (Mod.calculateNotUsedImportDeclarations m) as [[notUsed m1]|e] eqn:E1;
      [|discriminate].
    apply readonly_calculateNotUsedImportDeclarations in E1. subst m1.
    destruct (Mod.getCode (map (fun d => decl_loc (snd d)) notUsed) m)
      as [[code m2]|e] eqn:E2; [|discriminate].
    apply readonly_getCode in E2. subst m2.
    destruct (Graph.removeUnusedImportsLoop entries (JsMap.set Mod.same m code acc))
      as [[result rest']|e] eqn:E3; [|discriminate].
    apply IH in E3. subst rest'. now inversion H.
Qed.

Lemma removeUnusedImports_frame g out g' :
  Graph.removeUnusedImports g = Ok (out, g') -> g' = g.
Proof.
  unfold Graph.removeUnusedImports. intros H.
  destruct (Graph.removeUnusedImportsLoop (Graph.modules g) JsMap.empty)
    as [[result modules']|e] eqn:E; [|discriminate].
  apply removeUnusedImportsLoop_frame in E. subst modules'.
  inversion H. destruct g; reflexivity.
Qed.

(** C8.  On every module of a built graph,
    [calculateNotUsedImportDeclarations] invoked twice in a row returns the
    same list twice and leaves the module as it was, and so does [getCode];
    [removeUnusedImports] returns and leaves the graph as it was, so a
    second run starts from the same graph.  Whatever the module, a call of
    either method that returns leaves the stored source and program
    untouched. *)
Theorem shaking_is_repeatable (g : Graph.t) :
  shakeable g = true ->
  (forall url m, In (url, m) (Graph.modules g) ->
     exists notUsed code,
       twice Mod.calculateNotUsedImportDeclarations m = Ok ((notUsed, notUsed), m)
       /\ twice (Mod.getCode (decl_spans notUsed)) m = Ok ((code, code), m))
  /\ (exists out, Graph.removeUnusedImports g = Ok (out, g))
  /\ readonly Mod.calculateNotUsedImportDeclarations
  /\ (forall nodes, readonly (Mod.getCode nodes)).
Proof.
  intros Hg. split; [|split; [|split]].
  - intros url m Hin. unfold shakeable in Hg. rewrite forallb_forall in Hg.
    specialize (Hg _ Hin). simpl in Hg.
    destruct (ready_module_shakes m Hg) as [notUsed [code [H1 H2]]].
    exists notUsed, code. split; now apply twice_eq.
  - destruct (removeUnusedImportsLoop_total (Graph.modules g) JsMap.empty Hg)
      as [out [Hout _]].
    exists out. unfold Graph.removeUnusedImports. rewrite Hout.
    destruct g; reflexivity.
  - apply readonly_calculateNotUsedImportDeclarations.
  - apply readonly_getCode.
Qed.

Lemma shaking_is_repeatable_witness :
  exists out, Graph.removeUnusedImports Fixtures.diamond = Ok (out, Fixtures.diamond).
Proof.
  refine (proj1 (proj2 (@shaking_is_repeatable Fixtures.diamond _))).
  vm_compute. reflexivity.
Defined.

(* ================================================================== *)
(** ** Building a graph *)

Lemma calculateDependencyPaths_eq m p :
  Mod.program m = Some p ->
  Mod.calculateDependencyPaths m = Ok (dependency_paths p, m).
Proof.
  intros Hp. unfold Mod.calculateDependencyPaths, Mod.bind.
  now rewrite calculateImportDeclarations_eq with (p := p).
Qed.

Lemma load_parse_eq w m u src p :
  Mod.resolvedPath m = Some u ->
  readFile w (href u) = Some src -> parse_source w src = Some p ->
  Mod.bind (Mod.load w) (fun _ => Mod.parse w) m
  = Ok (tt, {| Mod.mid := Mod.mid m; Mod.input := Mod.input m;
               Mod.parentUrl := Mod.parentUrl m; Mod.resolvedPath := Some u;
               Mod.source := Some src; Mod.program := Some p |}).
Proof.
  intros Hu Hread Hparse. unfold Mod.bind, Mod.load. rewrite Hu, Hread.
  unfold Mod.parse. simpl. now rewrite Hparse.
Qed.

Lemma in_remove_nth {A} (l : list A) (i k : nat) (x : A) :
  nth_error l k = Some x -> k <> i -> In x (remove_nth i l).
Proof.
  intros Hk Hne. unfold remove_nth. apply in_or_app.
  destruct (Nat.lt_ge_cases k i) as [Hlt|Hge].
  - left. apply nth_error_In with (n := k). rewrite nth_error_firstn.
    replace (k <? i) with true by (symmetry; apply Nat.ltb_lt; lia). exact Hk.
  - right. apply nth_error_In with (n := k - S i). rewrite nth_error_skipn.
    replace (S i + (k - S i)) with k by lia. exact Hk.
Qed.

Lemma start_loading w path parent g :
  exists added, Graph.loading (Graph.start w path parent g) = Graph.loading g ++ added.
Proof.
  unfold Graph.start.
  destruct (Mod.resolve w (S (Graph.next_oid g)) (Mod.new (Graph.next_oid g) path parent))
    as [[[] m']|e]; simpl.
  - exists [m']. reflexivity.
  - exists []. now rewrite app_nil_r.
Qed.

Lemma start_keeps_loading_on w C path parent g :
  loading_on C g -> loading_on C (Graph.start w path parent g).
Proof.
  intros [m [u [Hin H]]]. exists m, u. split; [|exact H].
  destruct (start_loading w path parent g) as [added ->]. apply in_or_app. auto.
Qed.

Lemma start_enters w (C : string -> Prop) path parent g h :
  resolve_url w path (href parent) = Some h -> C h ->
  loading_on C (Graph.start w path parent g).
Proof.
  intros Hr HC. unfold Graph.start, Mod.resolve. simpl. rewrite Hr. simpl.
  eexists. eexists. split; [apply in_or_app; right; left; reflexivity|].
  simpl. split; [reflexivity|exact HC].
Qed.

Lemma starts_keep_loading_on w C parent :
  forall deps g,
    loading_on C g ->
    loading_on C (for_of deps (fun g' dep => Graph.start w dep parent g') g).
Proof.
  unfold for_of. induction deps as [|dep deps IH]; intros g H; simpl; [exact H|].
  apply IH. now apply start_keeps_loading_on.
Qed.

Lemma starts_enter w (C : string -> Prop) parent h dep :
  resolve_url w dep (href parent) = Some h -> C h ->
  forall deps g,
    In dep deps ->
    loading_on C (for_of deps (fun g' dep' => Graph.start w dep' parent g') g).
Proof.
  intros Hr HC. unfold for_of.
  induction deps as [|d deps IH]; intros g Hin; simpl; [contradiction|].
  destruct Hin as [->|Hin].
  - apply starts_keep_loading_on. now apply start_enters with (h := h).
  - now apply IH.
Qed.

(** Resuming a module keeps some module of a closed set loading: either
    another module was resumed, or the resumed one starts its import. *)
Lemma resume_keeps_loading_on w C i g g' :
  cycle_closed w C -> loading_on C g -> Graph.resume w i g = Some g' ->
  loading_on C g'.
Proof.
  intros Hcc [m [u [Hin [Hu HC]]]] Hres. unfold Graph.resume in Hres.
  destruct (nth_error (Graph.loading g) i) as [mi|] eqn:Ei; [|discriminate].
  inversion Hres; subst g'; clear Hres.
  apply In_nth_error in Hin. destruct Hin as [k Hk].
  destruct (Nat.eq_dec k i) as [->|Hne].
  - rewrite Ei in Hk. inversion Hk; subst mi; clear Hk.
    destruct (Hcc _ HC) as [src [p [dep [h' [Hread [Hparse [Hdep [Hres HC']]]]]]]].
    rewrite load_parse_eq with (u := u) (src := src) (p := p) by assumption.
    cbn [Mod.resolvedPath].
    rewrite calculateDependencyPaths_eq with (p := p) by reflexivity.
    apply starts_enter with (h := h') (dep := dep); assumption.
  - assert (Hkeep : loading_on C
              {| Graph.source := Graph.source g; Graph.parent := Graph.parent g;
                 Graph.modules := Graph.modules g; Graph.next_oid := Graph.next_oid g;
                 Graph.loading := remove_nth i (Graph.loading g);
                 Graph.rejected := Graph.rejected g |}).
    { exists m, u. split; [|auto]. simpl. eapply in_remove_nth; eauto. }
    destruct (Mod.bind (Mod.load w) (fun _ => Mod.parse w) mi) as [[[] m1]|e];
      [|exact Hkeep].
    destruct (Mod.resolvedPath m1) as [url|]; [|exact Hkeep].
    destruct (Mod.calculateDependencyPaths m1) as [[deps m2]|e]; [|exact Hkeep].
    apply starts_keep_loading_on.
    destruct Hkeep as [m0 [u0 H0]]. exists m0, u0. exact H0.
Qed.

Lemma run_keeps_loading_on w C :
  cycle_closed w C ->
  forall schedule g g',
    loading_on C g -> Graph.run w schedule g = Some g' -> loading_on C g'.
Proof.
  intros Hcc. induction schedule as [|i schedule IH]; intros g g' H Hrun; simpl in Hrun.
  - now inversion Hrun; subst.
  - destruct (Graph.resume w i g) as [g1|] eqn:E; [|discriminate].
    eapply IH; [|exact Hrun]. eapply resume_keeps_loading_on; eauto.
Qed.

(** C3, as the code has it.  There is no cycle guard: when the entry of a
    build lies in a set of locations closed under an import (a cycle), then
    whatever the order in which the reads settle, some module of the set is
    still being loaded, so the promise of [build] is never fulfilled. *)
Theorem build_on_cycle_never_fulfils (w : World) (C : string -> Prop)
    (entry : string) (parent : URL) (h : string) :
  cycle_closed w C ->
  resolve_url w entry (href parent) = Some h -> C h ->
  forall schedule g,
    Graph.run w schedule (Graph.build w (Graph.new entry parent)) = Some g ->
    loading_on C g /\ Graph.outcome g <> Fulfilled tt.
Proof.
  intros Hcc Hr HC schedule g Hrun.
  assert (Hon : loading_on C g).
  { eapply run_keeps_loading_on; [exact Hcc| |exact Hrun].
    unfold Graph.build. simpl. now apply start_enters with (h := h). }
  split; [exact Hon|].
  destruct Hon as [m [u [Hin _]]]. unfold Graph.outcome.
  destruct (Graph.rejected g); [discriminate|].
  destruct (Graph.loading g); [contradiction|discriminate].
Qed.

Lemma build_on_cycle_never_fulfils_witness :
  loading_on Fixtures.on_cycle (Fixtures.built_graph "./a.js" [0; 0; 0])
  /\ Graph.outcome (Fixtures.built_graph "./a.js" [0; 0; 0]) <> Fulfilled tt.
Proof.
  apply (@build_on_cycle_never_fulfils Fixtures.world Fixtures.on_cycle
           "./a.js" Fixtures.base "file:///src/a.js") with (schedule := [0; 0; 0]).
  - intros h [->| ->].
    + exists Fixtures.a_js_src, Fixtures.a_js_ast, "./b.js"%string,
        "file:///src/b.js"%string.
      repeat split; try reflexivity; [left; reflexivity|right; reflexivity].
    + exists Fixtures.b_js_src, Fixtures.b_js_ast, "./a.js"%string,
        "file:///src/a.js"%string.
      repeat split; try reflexivity; [left; reflexivity|left; reflexivity].
  - reflexivity.
  - left. reflexivity.
  - vm_compute. reflexivity.
Defined.

(** On the two-module cycle every read that settles starts the next one. *)
Lemma cycle_resume_invariant i g g' :
  Fixtures.one_loading_on_cycle g ->
  Graph.resume Fixtures.world i g = Some g' ->
  Fixtures.one_loading_on_cycle g'.
Proof.
  intros [Hrej [m [u [Hl [Hu Hc]]]]] Hres. unfold Graph.resume in Hres.
  rewrite Hl in Hres.
  destruct i as [|i]; simpl in Hres; [|destruct i; discriminate].
  inversion Hres; subst g'; clear Hres.
  destruct Hc as [Hh|Hh].
  - rewrite load_parse_eq
      with (u := u) (src := Fixtures.a_js_src) (p := Fixtures.a_js_ast);
      [|assumption|rewrite Hh; reflexivity|reflexivity].
    cbn [Mod.resolvedPath].
    rewrite calculateDependencyPaths_eq with (p := Fixtures.a_js_ast) by reflexivity.
    change (dependency_paths Fixtures.a_js_ast) with ["./b.js"%string].
    split; [exact Hrej|].
    eexists. eexists. split; [reflexivity|]. split; [reflexivity|].
    right. reflexivity.
  - rewrite load_parse_eq
      with (u := u) (src := Fixtures.b_js_src) (p := Fixtures.b_js_ast);
      [|assumption|rewrite Hh; reflexivity|reflexivity].
    cbn [Mod.resolvedPath].
    rewrite calculateDependencyPaths_eq with (p := Fixtures.b_js_ast) by reflexivity.
    change (dependency_paths Fixtures.b_js_ast) with ["./a.js"%string].
    split; [exact Hrej|].
    eexists. eexists. split; [reflexivity|]. split; [reflexivity|].
    left. reflexivity.
Qed.

Lemma cycle_run_invariant :
  forall schedule g g',
    Fixtures.one_loading_on_cycle g ->
    Graph.run Fixtures.world schedule g = Some g' ->
    Fixtures.one_loading_on_cycle g'.
Proof.
  induction schedule as [|i schedule IH]; intros g g' H Hrun; simpl in Hrun.
  - now inversion Hrun; subst.
  - destruct (Graph.resume Fixtures.world i g) as [g1|] eqn:E; [|discriminate].
    eapply IH; [|exact Hrun]. eapply cycle_resume_invariant; eauto.
Qed.

(** C3 fails on the code: for [a.js] importing [b.js] importing [a.js],
    whatever the order in which the reads settle, the promise of [build] is
    still pending, it is never rejected, with a cycle error or otherwise;
    and the modules are registered again on every round. *)
Lemma cycle_build_never_settles :
  ~ (exists schedule g,
        Graph.run Fixtures.world schedule Fixtures.cycle_start = Some g
        /\ Graph.outcome g <> Pending)
  /\ map (fun entry => href (fst entry))
         (Graph.modules (Fixtures.built_graph "./a.js" [0; 0; 0; 0]))
     = ["file:///src/a.js"; "file:///src/b.js";
        "file:///src/a.js"; "file:///src/b.js"]%string.
Proof.
  split; [|reflexivity].
  intros [schedule [g [Hrun Hout]]].
  assert (H : Fixtures.one_loading_on_cycle g).
  { eapply cycle_run_invariant; [|exact Hrun].
    split; [reflexivity|].
    eexists. eexists. split; [reflexivity|]. split; [reflexivity|].
    left. reflexivity. }
  destruct H as [Hrej [m [u [Hl _]]]]. apply Hout.
  unfold Graph.outcome. now rewrite Hrej, Hl.
Qed.

(* ================================================================== *)
(** ** The diamond *)

Lemma run_nil w g g' : Graph.run w [] g = Some g' -> g' = g.
Proof. simpl. congruence. Qed.

Lemma run_cons w i schedule g :
  Graph.run w (i :: schedule) g
  = match Graph.resume w i g with
    | Some g1 => Graph.run w schedule g1
    | None => None
    end.
Proof. reflexivity. Qed.

(** One read of the schedule settles: the state after it is computed. *)
Ltac settle_read H :=
  lazymatch type of H with
  | Graph.run ?w (?i :: ?rest) ?g = Some _ =>
      rewrite run_cons in H;
      let r := eval vm_compute in (Graph.resume w i g) in
      change (Graph.resume w i g) with r in H;
      cbv beta iota in H
  end.

(** Every schedule from a concrete state, up to four loading modules. *)
Ltac explore_schedules H :=
  lazymatch type of H with
  | None = Some _ => discriminate H
  | Graph.run _ ?schedule _ = Some _ =>
      destruct schedule as [|[|[|[|[|?]]]] ?];
      [ apply run_nil in H; subst
      | settle_read H; explore_schedules H .. ]
  end.

(** C2 fails on the code: the keys of [modules] are [URL] objects, and
    every [resolve()] makes a new one, so [set] never finds the location
    registered before.  Whatever the order in which the reads of the
    diamond settle, the finished graph has five entries, and two of them
    are [z.js]. *)
Theorem diamond_registers_shared_module_twice (schedule : list nat) (g : Graph.t) :
  Graph.run Fixtures.world schedule
    (Graph.build Fixtures.world (Graph.new "./e.js" Fixtures.base)) = Some g ->
  Graph.outcome g = Fulfilled tt ->
  registered "file:///src/z.js" g = 2 /\ length (Graph.modules g) = 5.
Proof.
  intros Hrun.
  let r := eval vm_compute in
             (Graph.build Fixtures.world (Graph.new "./e.js" Fixtures.base)) in
  change (Graph.build Fixtures.world (Graph.new "./e.js" Fixtures.base)) with r in Hrun.
  explore_schedules Hrun; intros Hout; vm_compute in Hout; try discriminate Hout;
    split; reflexivity.
Qed.

Lemma diamond_registers_shared_module_twice_witness :
  registered "file:///src/z.js" Fixtures.diamond = 2
  /\ length (Graph.modules Fixtures.diamond) = 5.
Proof.
  apply (@diamond_registers_shared_module_twice [0; 0; 0; 0; 0] Fixtures.diamond).
  - vm_compute. reflexivity.
  - vm_compute. reflexivity.
Defined.

(** C5 fails on the code: [generate] destructures the first entry of the
    map and returns its text.  For the chunk of the diamond that is the
    text of [e.js]; nothing of the four other registered modules is in
    it. *)
Theorem generate_returns_first_module_only :
  (exists chunk', Chunk.generate Fixtures.diamond_chunk = Ok (Fixtures.e_js_src, chunk'))
  /\ map (fun entry => href (fst entry)) (Graph.modules Fixtures.diamond)
     = ["file:///src/e.js"; "file:///src/x.js"; "file:///src/y.js";
        "file:///src/z.js"; "file:///src/z.js"]%string
  /\ occurs_in Fixtures.x_js_src Fixtures.e_js_src = false
  /\ occurs_in Fixtures.y_js_src Fixtures.e_js_src = false
  /\ occurs_in Fixtures.z_js_src Fixtures.e_js_src = false.
Proof.
  split; [|repeat split; reflexivity].
  eexists. vm_compute. reflexivity.
Qed.

(* ================================================================== *)
(** ** Chunks *)

Lemma in_replace_nth {A} (j : nat) (x y : A) (l : list A) :
  In x (TreeShaker.replace_nth j y l) -> x = y \/ In x l.
Proof.
  unfold TreeShaker.replace_nth. intros H. apply in_app_or in H.
  destruct H as [H|[H|H]].
  - right. rewrite <- (firstn_skipn j l). apply in_or_app. auto.
  - auto.
  - right. rewrite <- (firstn_skipn (S j) l). apply in_or_app. auto.
Qed.

Lemma nth_error_replace_nth {A} (j k : nat) (y : A) (l : list A) :
  k <> j -> j < length l ->
  nth_error (TreeShaker.replace_nth j y l) k = nth_error l k.
Proof.
  intros Hne Hj. unfold TreeShaker.replace_nth.
  destruct (Nat.lt_ge_cases k j) as [Hlt|Hge].
  - rewrite nth_error_app1 by (rewrite length_firstn; lia).
    rewrite nth_error_firstn.
    now replace (k <? j) with true by (symmetry; apply Nat.ltb_lt; lia).
  - rewrite nth_error_app2 by (rewrite length_firstn; lia).
    rewrite length_firstn, Nat.min_l by lia.
    replace (k - j) with (S (k - S j)) by lia. cbn [nth_error].
    rewrite nth_error_skipn. f_equal. lia.
Qed.

Lemma map_replace_nth {A B} (f : A -> B) (j : nat) (x y : A) (l : list A) :
  nth_error l j = Some x -> f y = f x ->
  map f (TreeShaker.replace_nth j y l) = map f l.
Proof.
  intros Hj Hf. unfold TreeShaker.replace_nth.
  rewrite map_app. simpl. rewrite Hf.
  rewrite <- (firstn_skipn j l) at 3. rewrite map_app. f_equal.
  assert (Hs : skipn j l = x :: skipn (S j) l).
  { clear Hf. revert l Hj. induction j as [|j IH]; intros [|a l] Hj;
      simpl in *; try discriminate.
    - now inversion Hj.
    - now apply IH. }
  now rewrite Hs.
Qed.

Lemma first_rejection_seen old new :
  old <> None \/ new <> None -> first_rejection old new <> None.
Proof. destruct old; simpl; intros [H|H]; congruence. Qed.

Lemma start_built w options :
  map chunk_entry (TreeShaker.built (TreeShaker.start w options))
  = JsObject.entries (TreeShaker.chunks options).
Proof.
  unfold TreeShaker.start.
  set (body := fun st entry => _).
  assert (H : forall entries st,
             map chunk_entry (TreeShaker.built (for_of entries body st))
             = map chunk_entry (TreeShaker.built st) ++ entries).
  { unfold for_of. induction entries as [|[d src] entries IH]; intros st; simpl.
    - now rewrite app_nil_r.
    - rewrite IH. unfold body. cbn [TreeShaker.built]. unfold push.
      rewrite map_app, <- app_assoc. reflexivity. }
  now rewrite H.
Qed.

Lemma start_failures_seen w options : failures_seen (TreeShaker.start w options).
Proof.
  unfold TreeShaker.start.
  set (body := fun st entry => _).
  assert (H : forall entries st, failures_seen st -> failures_seen (for_of entries body st)).
  { unfold for_of. induction entries as [|entry entries IH]; intros st Hst; simpl;
      [exact Hst|].
    apply IH. intros chunk Hin Hrej. unfold body in Hin |- *. simpl in *.
    apply first_rejection_seen. unfold push in Hin. apply in_app_or in Hin.
    destruct Hin as [Hin|[<-|[]]]; [left; exact (Hst chunk Hin Hrej)|right; exact Hrej]. }
  apply H. intros chunk [].
Qed.

Lemma resume_failures_seen w j i st st' :
  failures_seen st -> TreeShaker.resume w j i st = Some st' -> failures_seen st'.
Proof.
  intros Hst Hres. unfold TreeShaker.resume in Hres.
  destruct (nth_error (TreeShaker.built st) j) as [chunk|] eqn:Ej; [|discriminate].
  destruct (Graph.resume w i (Chunk.graph chunk)) as [g|]; [|discriminate].
  inversion Hres; subst st'; clear Hres.
  intros c Hin Hrej. simpl in *. apply first_rejection_seen.
  apply in_replace_nth in Hin. destruct Hin as [->|Hin].
  - right. exact Hrej.
  - left. exact (Hst c Hin Hrej).
Qed.

Lemma resume_built w j i st st' :
  TreeShaker.resume w j i st = Some st' ->
  map chunk_entry (TreeShaker.built st') = map chunk_entry (TreeShaker.built st)
  /\ forall k, k <> j ->
       nth_error (TreeShaker.built st') k = nth_error (TreeShaker.built st) k.
Proof.
  intros Hres. unfold TreeShaker.resume in Hres.
  destruct (nth_error (TreeShaker.built st) j) as [chunk|] eqn:Ej; [|discriminate].
  destruct (Graph.resume w i (Chunk.graph chunk)) as [g|]; [|discriminate].
  inversion Hres; subst st'; clear Hres. simpl. split.
  - now apply map_replace_nth with (x := chunk).
  - intros k Hk. apply nth_error_replace_nth; [assumption|].
    apply nth_error_Some. congruence.
Qed.

Lemma run_invariants w :
  forall schedule st st',
    TreeShaker.run w schedule st = Some st' ->
    map chunk_entry (TreeShaker.built st') = map chunk_entry (TreeShaker.built st)
    /\ (failures_seen st -> failures_seen st').
Proof.
  induction schedule as [|[j i] schedule IH]; intros st st' Hrun; simpl in Hrun.
  - inversion Hrun; subst. auto.
  - destruct (TreeShaker.resume w j i st) as [st1|] eqn:E; [|discriminate].
    destruct (IH _ _ Hrun) as [H1 H2].
    destruct (resume_built _ _ _ _ E) as [H3 _].
    split; [congruence|].
    intros Hst. apply H2. eapply resume_failures_seen; eauto.
Qed.

(** C6, as the code has it.  [treeShaker] awaits all the builds through one
    [Promise.all]: once the build of a chunk has failed, the promise of
    [treeShaker] is rejected, whatever the order of the reads, so no object
    with [generate] is returned for any chunk.  The builds have no state in
    common: a read that settles in one chunk leaves the other chunks as
    they were. *)
Theorem chunk_failure_rejects_treeShaker (w : World) (options : TreeShaker.Options)
    (schedule : list (nat * nat)) (st : TreeShaker.t) :
  TreeShaker.run w schedule (TreeShaker.start w options) = Some st ->
  (exists chunk, In chunk (TreeShaker.built st)
                 /\ Graph.rejected (Chunk.graph chunk) <> None) ->
  (exists e, TreeShaker.outcome st = Rejected e
             /\ TreeShaker.treeShaker w options schedule = Some (Rejected e))
  /\ (forall j i st', TreeShaker.resume w j i st = Some st' ->
        forall k, k <> j ->
                  nth_error (TreeShaker.built st') k = nth_error (TreeShaker.built st) k).
Proof.
  intros Hrun [chunk [Hin Hrej]]. split.
  - destruct (run_invariants _ _ _ Hrun) as [_ Hseen].
    specialize (Hseen (start_failures_seen w options) chunk Hin Hrej).
    unfold TreeShaker.treeShaker. rewrite Hrun. unfold TreeShaker.outcome.
    destruct (TreeShaker.rejected st) as [e|]; [|congruence].
    exists e. auto.
  - intros j i st' Hres. now apply (resume_built _ _ _ _ Hres).
Qed.

Lemma chunk_failure_rejects_treeShaker_witness :
  exists e,
    TreeShaker.outcome (Fixtures.shaker_after Fixtures.one_bad_chunk [(1, 0)]) = Rejected e
    /\ TreeShaker.treeShaker Fixtures.world Fixtures.one_bad_chunk [(1, 0)]
       = Some (Rejected e).
Proof.
  refine (proj1 (@chunk_failure_rejects_treeShaker Fixtures.world
                   Fixtures.one_bad_chunk [(1, 0)]
                   (Fixtures.shaker_after Fixtures.one_bad_chunk [(1, 0)]) _ _)).
  - vm_compute. reflexivity.
  - eexists. split.
    + vm_compute. right. left. reflexivity.
    + vm_compute. discriminate.
Defined.

Lemma shaker_run_nil w st st' : TreeShaker.run w [] st = Some st' -> st' = st.
Proof. simpl. congruence. Qed.

Lemma shaker_run_cons w j i schedule st :
  TreeShaker.run w ((j, i) :: schedule) st
  = match TreeShaker.resume w j i st with
    | Some st1 => TreeShaker.run w schedule st1
    | None => None
    end.
Proof. reflexivity. Qed.

Ltac settle_chunk_read H :=
  lazymatch type of H with
  | TreeShaker.run ?w ((?j, ?i) :: ?rest) ?st = Some _ =>
      rewrite shaker_run_cons in H;
      let r := eval vm_compute in (TreeShaker.resume w j i st) in
      change (TreeShaker.resume w j i st) with r in H;
      cbv beta iota in H
  end.

(** Every schedule from a concrete state, up to three chunks with up to
    three loading modules each. *)
Ltac explore_chunk_schedules H :=
  lazymatch type of H with
  | None = Some _ => discriminate H
  | TreeShaker.run _ ?schedule _ = Some _ =>
      destruct schedule as [|[[|[|[|?]]] [|[|[|?]]]] ?];
      [ apply shaker_run_nil in H; subst
      | settle_chunk_read H; explore_chunk_schedules H .. ]
  end.

(** C6 fails on the code: with one chunk whose entry cannot be read,
    [treeShaker] is rejected although the build of the other chunk went
    through, and no order of the reads makes it return the object with
    [generate]. *)
Lemma failing_chunk_withholds_sibling_output :
  TreeShaker.treeShaker Fixtures.world Fixtures.one_bad_chunk [(0, 0); (1, 0)]
  = Some (Rejected ReadFileError)
  /\ map (fun chunk => Graph.outcome (Chunk.graph chunk))
         (TreeShaker.built (Fixtures.shaker_after Fixtures.one_bad_chunk [(0, 0); (1, 0)]))
     = [Fulfilled tt; Rejected ReadFileError]
  /\ ~ (exists schedule chunks,
           TreeShaker.treeShaker Fixtures.world Fixtures.one_bad_chunk schedule
           = Some (Fulfilled chunks)).
Proof.
  split; [reflexivity|]. split; [reflexivity|].
  intros [schedule [chunks H]]. unfold TreeShaker.treeShaker in H.
  destruct (TreeShaker.run Fixtures.world schedule
              (TreeShaker.start Fixtures.world Fixtures.one_bad_chunk))
    as [st|] eqn:Hrun; [|discriminate].
  revert H.
  let r := eval vm_compute in (TreeShaker.start Fixtures.world Fixtures.one_bad_chunk) in
  change (TreeShaker.start Fixtures.world Fixtures.one_bad_chunk) with r in Hrun.
  explore_chunk_schedules Hrun; intros H; vm_compute in H; discriminate H.
Qed.

(* ================================================================== *)
(** ** What a build registers *)

Lemma set_values {K V} (same : K -> K -> bool) (P : V -> Prop) (k : K) (v : V) :
  forall m, P v -> (forall entry, In entry m -> P (snd entry)) ->
            forall entry, In entry (JsMap.set same k v m) -> P (snd entry).
Proof.
  induction m as [|[k' v'] m IH]; intros Hv Hm entry Hin; simpl in Hin.
  - destruct Hin as [<-|[]]. exact Hv.
  - destruct (same k k').
    + destruct Hin as [<-|Hin]; [exact Hv|]. apply Hm. simpl. auto.
    + destruct Hin as [<-|Hin]; [apply (Hm (k', v')); simpl; auto|].
      apply IH; auto. intros e He. apply Hm. simpl. auto.
Qed.

Lemma load_parse_ready w m m1 :
  parser_sound w ->
  Mod.bind (Mod.load w) (fun _ => Mod.parse w) m = Ok (tt, m1) ->
  module_ready m1 = true.
Proof.
  intros Hw H. unfold Mod.bind, Mod.load in H.
  destruct (Mod.resolvedPath m) as [u|]; [|discriminate].
  destruct (readFile w (href u)) as [src|]; [|discriminate].
  unfold Mod.parse in H. simpl in H.
  destruct (parse_source w src) as [p|] eqn:Ep; [|discriminate].
  inversion H; subst m1. unfold module_ready. simpl. now apply Hw.
Qed.

Lemma start_modules w path parent g :
  Graph.modules (Graph.start w path parent g) = Graph.modules g.
Proof.
  unfold Graph.start.
  now destruct (Mod.resolve w (S (Graph.next_oid g)) (Mod.new (Graph.next_oid g) path parent))
    as [[[] m']|e].
Qed.

Lemma start_progress w path parent g :
  Graph.loading (Graph.start w path parent g) <> []
  \/ Graph.rejected (Graph.start w path parent g) <> None.
Proof.
  unfold Graph.start.
  destruct (Mod.resolve w (S (Graph.next_oid g)) (Mod.new (Graph.next_oid g) path parent))
    as [[[] m']|e]; simpl.
  - left. unfold push. destruct (Graph.loading g); discriminate.
  - right. destruct (Graph.rejected g); discriminate.
Qed.

Lemma starts_modules w parent :
  forall deps g,
    Graph.modules (for_of deps (fun g' dep => Graph.start w dep parent g') g)
    = Graph.modules g.
Proof.
  unfold for_of. induction deps as [|dep deps IH]; intros g; simpl; [reflexivity|].
  now rewrite IH, start_modules.
Qed.

Lemma build_well_built w source parent :
  well_built (Graph.build w (Graph.new source parent)).
Proof.
  unfold well_built, Graph.build, shakeable. rewrite start_modules. simpl.
  split; [reflexivity|]. intros _ Hl.
  destruct (start_progress w source parent (Graph.new source parent)) as [H|H];
    [contradiction|exact H].
Qed.

Lemma reject_well_built e g : shakeable g = true -> well_built (Graph.reject e g).
Proof.
  intros H. split; [exact H|]. intros _ _. simpl.
  destruct (Graph.rejected g); discriminate.
Qed.

Lemma resume_well_built w i g g' :
  parser_sound w -> well_built g -> Graph.resume w i g = Some g' -> well_built g'.
Proof.
  intros Hw [Hready _] Hres. unfold Graph.resume in Hres.
  destruct (nth_error (Graph.loading g) i) as [m|]; [|discriminate].
  inversion Hres; subst g'; clear Hres.
  destruct (Mod.bind (Mod.load w) (fun _ => Mod.parse w) m) as [[[] m1]|e] eqn:E;
    [|now apply reject_well_built].
  destruct (Mod.resolvedPath m1) as [url|]; [|now apply reject_well_built].
  assert (Hset : forallb (fun entry => module_ready (snd entry))
                   (JsMap.set same_url url m1 (Graph.modules g)) = true).
  { apply forallb_forall.
    apply set_values with (P := fun m0 => module_ready m0 = true).
    - eapply load_parse_ready; eauto.
    - unfold shakeable in Hready. rewrite forallb_forall in Hready. exact Hready. }
  destruct (Mod.calculateDependencyPaths m1) as [[deps m2]|e] eqn:Ed.
  - assert (readonly Mod.calculateDependencyPaths) as Hro.
    { apply readonly_bind; [apply readonly_calculateImportDeclarations|].
      intros a. apply readonly_ret. }
    apply Hro in Ed. subst m2.
    unfold well_built, shakeable. rewrite starts_modules. simpl. split.
    + exact Hset.
    + intros Hempty. exfalso. revert Hempty. apply set_not_empty.
  - apply reject_well_built. exact Hset.
Qed.

Lemma generate_chunk_total (chunk : Chunk.t) :
  well_built (Chunk.graph chunk) ->
  Graph.loading (Chunk.graph chunk) = [] ->
  Graph.rejected (Chunk.graph chunk) = None ->
  exists code, Chunk.generate chunk = Ok (code, chunk).
Proof.
  intros [Hready Hprogress] Hl Hr. unfold Chunk.generate, Graph.removeUnusedImports.
  destruct (removeUnusedImportsLoop_total (Graph.modules (Chunk.graph chunk))
              JsMap.empty Hready) as [out [Hout Hne]].
  rewrite Hout.
  destruct out as [|[m code] out].
  - exfalso. apply Hne; [|reflexivity]. left. intros Hempty.
    now apply (Hprogress Hempty Hl).
  - exists code. f_equal. f_equal.
    destruct chunk as [src dst par g]. destruct g. reflexivity.
Qed.

Lemma generate_total :
  forall chunks,
    (forall chunk, In chunk chunks -> exists code, Chunk.generate chunk = Ok (code, chunk)) ->
    exists codes,
      TreeShaker.generate chunks = Ok (codes, chunks)
      /\ Forall2 (fun chunk code => Chunk.generate chunk = Ok (code, chunk)) chunks codes.
Proof.
  induction chunks as [|chunk chunks IH]; intros H; simpl.
  - exists []. split; [reflexivity|constructor].
  - destruct (H chunk) as [code Hc]; [simpl; auto|].
    destruct IH as [codes [Hg Hall]]; [intros c Hin; apply H; simpl; auto|].
    rewrite Hc, Hg. exists (code :: codes). split; [reflexivity|]. now constructor.
Qed.

Lemma start_chunks_well_built w options :
  forall chunk, In chunk (TreeShaker.built (TreeShaker.start w options)) ->
                well_built (Chunk.graph chunk).
Proof.
  unfold TreeShaker.start.
  set (body := fun st entry => _).
  assert (H : forall entries st,
             (forall chunk, In chunk (TreeShaker.built st) -> well_built (Chunk.graph chunk)) ->
             forall chunk, In chunk (TreeShaker.built (for_of entries body st)) ->
                           well_built (Chunk.graph chunk)).
  { unfold for_of. induction entries as [|entry entries IH]; intros st Hst; simpl;
      [exact Hst|].
    apply IH. intros chunk Hin. unfold body in Hin. simpl in Hin.
    unfold push in Hin. apply in_app_or in Hin.
    destruct Hin as [Hin|[<-|[]]]; [now apply Hst|].
    simpl. apply build_well_built. }
  apply H. intros chunk [].
Qed.

Lemma run_chunks_well_built w :
  parser_sound w ->
  forall schedule st st',
    (forall chunk, In chunk (TreeShaker.built st) -> well_built (Chunk.graph chunk)) ->
    TreeShaker.run w schedule st = Some st' ->
    forall chunk, In chunk (TreeShaker.built st') -> well_built (Chunk.graph chunk).
Proof.
  intros Hw. induction schedule as [|[j i] schedule IH]; intros st st' Hst Hrun;
    simpl in Hrun.
  - now inversion Hrun; subst.
  - destruct (TreeShaker.resume w j i st) as [st1|] eqn:E; [|discriminate].
    apply (IH st1 st'); [|exact Hrun].
    unfold TreeShaker.resume in E.
    destruct (nth_error (TreeShaker.built st) j) as [c|] eqn:Ej; [|discriminate].
    destruct (Graph.resume w i (Chunk.graph c)) as [g|] eqn:Eg; [|discriminate].
    inversion E; subst st1; clear E. simpl.
    intros chunk Hin. apply in_replace_nth in Hin. destruct Hin as [->|Hin].
    + simpl. eapply resume_well_built; eauto.
      apply Hst. eapply nth_error_In; eauto.
    + now apply Hst.
Qed.

(* ================================================================== *)
(** ** The order of the generated texts *)

Lemma entries_without_index (o : JsObject.t) :
  (forall entry, In entry o -> JsObject.array_index (fst entry) = None) ->
  JsObject.entries o = o.
Proof.
  intros H. unfold JsObject.entries.
  induction o as [|kv o IH]; simpl; [reflexivity|].
  rewrite (H kv) by (simpl; auto). simpl.
  assert (Ho : forall entry, In entry o -> JsObject.array_index (fst entry) = None)
    by (intros entry Hin; apply H; simpl; auto).
  specialize (IH Ho).
  destruct (flat_map _ o) as [|x l] eqn:E.
  - simpl in IH |- *. now rewrite IH.
  - exfalso.
    assert (Hx : In x (flat_map
                   (fun kv0 => match JsObject.array_index (fst kv0) with
                               | Some n => [(n, kv0)]
                               | None => []
                               end) o)) by (rewrite E; simpl; auto).
    apply in_flat_map in Hx. destruct Hx as [kv0 [Hin Hx]].
    rewrite (Ho kv0 Hin) in Hx. contradiction.
Qed.

(** C7, as the code has it.  When [treeShaker] returns, whatever the order
    in which the reads settled, its chunks are those of
    [Object.entries(options.chunks)], in that order, and [generate] returns
    one text per chunk, the text that chunk generates, in that order.
    [Object.entries] lists the output identifiers that are array indices
    first, in ascending numeric order, then the others as declared; when no
    output identifier is an array index the order is the declared one. *)
Theorem generate_follows_entries_order (w : World) (options : TreeShaker.Options)
    (schedule : list (nat * nat)) (chunks : list Chunk.t) :
  parser_sound w ->
  TreeShaker.treeShaker w options schedule = Some (Fulfilled chunks) ->
  map chunk_entry chunks = JsObject.entries (TreeShaker.chunks options)
  /\ (exists codes,
        TreeShaker.generate chunks = Ok (codes, chunks)
        /\ Forall2 (fun chunk code => Chunk.generate chunk = Ok (code, chunk))
                   chunks codes)
  /\ ((forall entry, In entry (TreeShaker.chunks options) ->
                     JsObject.array_index (fst entry) = None) ->
      map chunk_entry chunks = TreeShaker.chunks options).
Proof.
  intros Hw H. unfold TreeShaker.treeShaker in H.
  destruct (TreeShaker.run w schedule (TreeShaker.start w options)) as [st|] eqn:Hrun;
    [|discriminate].
  unfold TreeShaker.outcome in H.
  destruct (TreeShaker.rejected st) as [e|] eqn:Hrej; [discriminate|].
  destruct (forallb _ (TreeShaker.built st)) eqn:Hdone; [|discriminate].
  inversion H; subst chunks; clear H.
  destruct (run_invariants _ _ _ Hrun) as [Hmap Hseen].
  specialize (Hseen (start_failures_seen w options)).
  assert (Horder : map chunk_entry (TreeShaker.built st)
                   = JsObject.entries (TreeShaker.chunks options)).
  { rewrite Hmap. apply start_built. }
  split; [exact Horder|]. split.
  - apply generate_total. intros chunk Hin.
    apply generate_chunk_total.
    + eapply run_chunks_well_built; eauto. apply start_chunks_well_built.
    + rewrite forallb_forall in Hdone. specialize (Hdone chunk Hin).
      now destruct (Graph.loading (Chunk.graph chunk)).
    + destruct (Graph.rejected (Chunk.graph chunk)) eqn:Ec; [|reflexivity].
      exfalso. apply (Hseen chunk Hin); [congruence|exact Hrej].
  - intros Hnames. rewrite Horder. now apply entries_without_index.
Qed.

Lemma fixtures_parser_sound : parser_sound Fixtures.world.
Proof.
  intros src p H. simpl in H. unfold Fixtures.parse_flat in H.
  destruct (find _ Fixtures.files) as [f|] eqn:E; [|discriminate].
  apply find_some in E. destruct E as [Hin Heq].
  apply text_eqb_eq in Heq. subst src. inversion H; subst p; clear H.
  unfold Fixtures.files in Hin. simpl in Hin.
  repeat (destruct Hin as [<-|Hin]; [vm_compute; reflexivity|]).
  contradiction.
Qed.

Lemma generate_follows_entries_order_witness :
  map chunk_entry
      (TreeShaker.built (Fixtures.shaker_after Fixtures.named_chunks [(0, 0); (1, 0); (1, 0)]))
  = TreeShaker.chunks Fixtures.named_chunks.
Proof.
  refine (proj2 (proj2 (@generate_follows_entries_order Fixtures.world
                          Fixtures.named_chunks [(0, 0); (1, 0); (1, 0)]
                          (TreeShaker.built
                             (Fixtures.shaker_after Fixtures.named_chunks
                                [(0, 0); (1, 0); (1, 0)])) _ _)) _).
  - exact fixtures_parser_sound.
  - vm_compute. reflexivity.
  - intros entry [<-|[<-|[]]]; reflexivity.
Defined.

(** C7 fails on the code: the chunk declared first, [2], is generated
    second.  The texts are those of [y.js] and [z.js], in this order,
    while [z.js] is the entry of the chunk declared first. *)
Lemma numbered_chunks_generate_out_of_order :
  TreeShaker.chunks Fixtures.numbered_chunks = [("2", "./z.js"); ("1", "./y.js")]%string
  /\ (exists chunk', Chunk.generate (Fixtures.built_chunk "2" "./z.js" [0])
                     = Ok (Fixtures.z_js_src, chunk'))
  /\ (exists chunk', Chunk.generate (Fixtures.built_chunk "1" "./y.js" [0; 0])
                     = Ok (Fixtures.y_js_src, chunk'))
  /\ (exists chunks chunks',
        TreeShaker.treeShaker Fixtures.world Fixtures.numbered_chunks
          [(0, 0); (0, 0); (1, 0)] = Some (Fulfilled chunks)
        /\ map Chunk.destination chunks = ["1"; "2"]%string
        /\ TreeShaker.generate chunks
           = Ok ([Fixtures.y_js_src; Fixtures.z_js_src], chunks'))
  /\ Fixtures.y_js_src <> Fixtures.z_js_src.
Proof.
  split; [reflexivity|].
  split; [eexists; vm_compute; reflexivity|].
  split; [eexists; vm_compute; reflexivity|].
  split; [|discriminate].
  eexists. eexists. split; [vm_compute; reflexivity|].
  split; vm_compute; reflexivity.
Qed.

(* ================================================================== *)
(** ** Dependency paths, and the scenario of the spec *)

Lemma dependency_paths_eq (p : Program) : dependency_paths p = import_sources p.
Proof.
  unfold dependency_paths, import_sources, import_refs, indexed.
  generalize 0. induction (body p) as [|node l IH]; intros k; simpl; [reflexivity|].
  rewrite map_app, flat_map_app, IH.
  destruct node as [d|e loc|loc]; simpl; try reflexivity.
  destruct (source_value d); reflexivity.
Qed.

(** [calculateDependencyPaths] returns the string-valued sources of the
    top-level import declarations, in source order, and leaves the module
    as it was. *)
Theorem dependency_paths_in_source_order (m : Mod.t) (src : text) (p : Program) :
  initialized m src p ->
  Mod.calculateDependencyPaths m = Ok (import_sources p, m).
Proof.
  intros [_ Hp]. rewrite calculateDependencyPaths_eq with (p := p) by exact Hp.
  now rewrite dependency_paths_eq.
Qed.

Lemma dependency_paths_in_source_order_witness :
  Mod.calculateDependencyPaths (Fixtures.loaded Fixtures.shaken_src Fixtures.shaken_ast)
  = Ok (["./A.js"; "./B.js"; "./C.js"; "./side.js"; "./D.js"; "./N.js"]%string,
        Fixtures.loaded Fixtures.shaken_src Fixtures.shaken_ast).
Proof.
  apply (@dependency_paths_in_source_order
           (Fixtures.loaded Fixtures.shaken_src Fixtures.shaken_ast)
           Fixtures.shaken_src Fixtures.shaken_ast).
  split; reflexivity.
Defined.

(** The scenario of the spec: a module imports [a], [b] and [c] and calls
    [a()] and [b()].  The third declaration, and only it, is not used; the
    generated text keeps the first two declarations and has nothing of the
    declaration of [c]. *)
Theorem scenario_removes_unused_import :
  exists notUsed code,
    Mod.calculateNotUsedImportDeclarations
      (Fixtures.loaded Fixtures.scenario_src Fixtures.scenario_ast)
    = Ok (notUsed, Fixtures.loaded Fixtures.scenario_src Fixtures.scenario_ast)
    /\ map fst notUsed = [2]
    /\ Mod.getCode (decl_spans notUsed)
         (Fixtures.loaded Fixtures.scenario_src Fixtures.scenario_ast)
       = Ok (code, Fixtures.loaded Fixtures.scenario_src Fixtures.scenario_ast)
    /\ code = Fixtures.lines ["import { a } from './A.js';";
                              "import { b } from './B.js';"; ""; "a();"; "b();"]%string
    /\ occurs_in (list_ascii_of_string "./C.js") code = false.
Proof.
  eexists. eexists.
  split; [vm_compute; reflexivity|].
  split; [reflexivity|].
  split; [vm_compute; reflexivity|].
  split; reflexivity.
Qed.

(* ================================================================== *)
(** * Further properties of the build *)

Unset Implicit Arguments.

(** ** The two halves of [initModuleRecursively] *)

Lemma start_resolved w path parent g h :
  resolve_url w path (href parent) = Some h ->
  Graph.start w path parent g
  = {| Graph.source := Graph.source g; Graph.parent := Graph.parent g;
       Graph.modules := Graph.modules g; Graph.next_oid := 2 + Graph.next_oid g;
       Graph.loading := Graph.loading g ++ [started (Graph.next_oid g) path parent h];
       Graph.rejected := Graph.rejected g |}.
Proof. intros H. unfold Graph.start, Mod.resolve. simpl. now rewrite H. Qed.

Lemma start_unresolved w path parent g :
  resolve_url w path (href parent) = None ->
  Graph.start w path parent g
  = {| Graph.source := Graph.source g; Graph.parent := Graph.parent g;
       Graph.modules := Graph.modules g; Graph.next_oid := 2 + Graph.next_oid g;
       Graph.loading := Graph.loading g;
       Graph.rejected := first_rejection (Graph.rejected g) (Some InvalidURL) |}.
Proof. intros H. unfold Graph.start, Mod.resolve. simpl. now rewrite H. Qed.

Lemma load_parse_cases w m :
  (Mod.resolvedPath m = None
   /\ Mod.bind (Mod.load w) (fun _ => Mod.parse w) m = Throw TypeError)
  \/ (exists u, Mod.resolvedPath m = Some u /\ readFile w (href u) = None
                /\ Mod.bind (Mod.load w) (fun _ => Mod.parse w) m = Throw ReadFileError)
  \/ (exists u src, Mod.resolvedPath m = Some u /\ readFile w (href u) = Some src
                    /\ parse_source w src = None
                    /\ Mod.bind (Mod.load w) (fun _ => Mod.parse w) m = Throw SyntaxError)
  \/ (exists u src p, Mod.resolvedPath m = Some u /\ readFile w (href u) = Some src
                      /\ parse_source w src = Some p
                      /\ Mod.bind (Mod.load w) (fun _ => Mod.parse w) m
                         = Ok (tt, loaded_from m u src p)).
Proof.
  unfold Mod.bind, Mod.load.
  destruct (Mod.resolvedPath m) as [u|] eqn:Eu; [|now left].
  right. destruct (readFile w (href u)) as [src|] eqn:Er.
  - right. unfold Mod.parse. simpl.
    destruct (parse_source w src) as [p|] eqn:Ep.
    + right. exists u, src, p. unfold loaded_from. auto.
    + left. exists u, src. auto.
  - left. exists u. auto.
Qed.

(** What [resume] does, by the outcome of the read and the parse. *)
Lemma resume_shape w i g g' :
  Graph.resume w i g = Some g' ->
  exists m,
    nth_error (Graph.loading g) i = Some m
    /\ ((exists e, Mod.bind (Mod.load w) (fun _ => Mod.parse w) m = Throw e
                   /\ g' = Graph.reject e (settled i g))
        \/ (exists u src p,
               Mod.resolvedPath m = Some u /\ readFile w (href u) = Some src
               /\ parse_source w src = Some p
               /\ g' = starts w u (dependency_paths p)
                         (register u (loaded_from m u src p) (settled i g)))).
Proof.
  intros H. unfold Graph.resume in H.
  destruct (nth_error (Graph.loading g) i) as [m|] eqn:Ei; [|discriminate].
  exists m. split; [reflexivity|].
  inversion H; subst g'; clear H.
  destruct (load_parse_cases w m)
    as [[_ E]|[[u [_ [_ E]]]|[[u [src [_ [_ [_ E]]]]]|[u [src [p [Hu [Hr [Hp E]]]]]]]]];
    rewrite E.
  - left. eauto.
  - left. eauto.
  - left. eauto.
  - right. exists u, src, p. repeat split; try assumption.
    cbn [Mod.resolvedPath loaded_from].
    rewrite calculateDependencyPaths_eq with (p := p) by reflexivity.
    reflexivity.
Qed.

(* ================================================================== *)
(** ** What holds of a graph at every point of a build *)

Lemma first_rejection_kinds old e0 e :
  (forall e', old = Some e' -> e' = InvalidURL \/ e' = ReadFileError \/ e' = SyntaxError) ->
  (e0 = InvalidURL \/ e0 = ReadFileError \/ e0 = SyntaxError) ->
  first_rejection old (Some e0) = Some e ->
  e = InvalidURL \/ e = ReadFileError \/ e = SyntaxError.
Proof.
  intros Hold H0 H. destruct old as [e'|]; simpl in H; inversion H; subst; auto.
Qed.

Lemma NoDup_map_app_neq {A B} (f : A -> B) (l1 l2 : list A) a b :
  NoDup (map f (l1 ++ l2)) -> In a l1 -> In b l2 -> f a <> f b.
Proof.
  rewrite map_app. intros Hnd Ha Hb E.
  induction l1 as [|x l1 IH]; simpl in *; [contradiction|].
  inversion Hnd; subst. destruct Ha as [->|Ha]; [|auto].
  apply H1. apply in_or_app. right. rewrite E. now apply in_map.
Qed.

Lemma start_consistent w path parent g :
  consistent w g ->
  (path = Graph.source g /\ parent = Graph.parent g)
  \/ (Graph.modules g <> []
      /\ exists m' p', In (parent, m') (Graph.modules g)
                       /\ Mod.program m' = Some p' /\ In path (dependency_paths p')) ->
  consistent w (Graph.start w path parent g).
Proof.
  intros [Hfresh Hnd Hres Hkeys Horigin Hentry Herr] Hnew.
  destruct (resolve_url w path (href parent)) as [h|] eqn:Er.
  - rewrite (start_resolved w path parent g h Er).
    assert (Hlive : forall m,
               In m (map snd (Graph.modules g)
                     ++ Graph.loading g ++ [started (Graph.next_oid g) path parent h])
               <-> In m (live g) \/ m = started (Graph.next_oid g) path parent h).
    { intros m. unfold live. rewrite !in_app_iff. simpl. intuition. }
    constructor; unfold live; simpl.
    + intros m Hm. apply Hlive in Hm. destruct Hm as [Hm| ->].
      * specialize (Hfresh m Hm). lia.
      * simpl. lia.
    + rewrite app_assoc, map_app. simpl.
      apply Permutation_NoDup
        with (l := Graph.next_oid g :: map Mod.mid (live g)).
      * apply Permutation_cons_append.
      * constructor; [|exact Hnd].
        intros Hin. apply in_map_iff in Hin. destruct Hin as [m [Hid Hm]].
        specialize (Hfresh m Hm). lia.
    + intros m Hm. apply Hlive in Hm. destruct Hm as [Hm| ->]; [now apply Hres|].
      exists h. simpl. auto.
    + exact Hkeys.
    + intros m Hm. apply Hlive in Hm. destruct Hm as [Hm| ->]; [now apply Horigin|].
      simpl. destruct Hnew as [[-> ->]|[_ Hp]]; [left; auto|right; exact Hp].
    + intros m [[Hempty Hm]|Hhead].
      * apply in_app_or in Hm. destruct Hm as [Hm|[<-|[]]].
        -- apply Hentry. left. auto.
        -- simpl. destruct Hnew as [[-> ->]|[Hne _]]; [auto|contradiction].
      * apply Hentry. right. exact Hhead.
    + exact Herr.
  - rewrite (start_unresolved w path parent g Er).
    constructor; unfold live; simpl; auto.
    + intros m Hm. specialize (Hfresh m Hm). lia.
    + intros e He.
      apply first_rejection_kinds with (old := Graph.rejected g) (e0 := InvalidURL); auto.
Qed.

Lemma starts_frame w u :
  forall deps g,
    Graph.modules (starts w u deps g) = Graph.modules g
    /\ Graph.source (starts w u deps g) = Graph.source g
    /\ Graph.parent (starts w u deps g) = Graph.parent g.
Proof.
  unfold starts, for_of. induction deps as [|dep deps IH]; intros g; simpl; [auto|].
  destruct (IH (Graph.start w dep u g)) as [H1 [H2 H3]].
  rewrite H1, H2, H3, start_modules.
  unfold Graph.start.
  destruct (Mod.resolve w (S (Graph.next_oid g)) (Mod.new (Graph.next_oid g) dep u))
    as [[[] m']|e]; auto.
Qed.

Lemma starts_consistent w u m1 p1 :
  Mod.program m1 = Some p1 ->
  forall deps g,
    (forall dep, In dep deps -> In dep (dependency_paths p1)) ->
    In (u, m1) (Graph.modules g) ->
    consistent w g -> consistent w (starts w u deps g).
Proof.
  intros Hp. unfold starts, for_of.
  induction deps as [|dep deps IH]; intros g Hsub Hin Hc; simpl; [exact Hc|].
  apply IH.
  - intros d Hd. apply Hsub. simpl. auto.
  - now rewrite start_modules.
  - apply start_consistent; [exact Hc|]. right. split.
    + intros E. rewrite E in Hin. contradiction.
    + exists m1, p1. repeat split; auto. apply Hsub. simpl. auto.
Qed.

Lemma in_remove_nth_in {A} (i : nat) (l : list A) (x : A) :
  In x (remove_nth i l) -> In x l.
Proof.
  unfold remove_nth. intros H. apply in_app_or in H. destruct H as [H|H].
  - rewrite <- (firstn_skipn i l). apply in_or_app. auto.
  - rewrite <- (firstn_skipn (S i) l). apply in_or_app. auto.
Qed.

Lemma remove_nth_split {A} (i : nat) (l : list A) (x : A) :
  nth_error l i = Some x ->
  l = firstn i l ++ x :: skipn (S i) l.
Proof.
  revert l. induction i as [|i IH]; intros [|a l] H; simpl in *; try discriminate.
  - now inversion H.
  - f_equal. now apply IH.
Qed.

Lemma settled_consistent w i g m :
  nth_error (Graph.loading g) i = Some m ->
  consistent w g -> consistent w (settled i g).
Proof.
  intros Hi [Hfresh Hnd Hres Hkeys Horigin Hentry Herr].
  assert (Hlive : forall m', In m' (live (settled i g)) -> In m' (live g)).
  { intros m'. unfold live. simpl. rewrite !in_app_iff.
    intros [H|H]; [auto|right; now apply in_remove_nth_in with (i := i)]. }
  constructor; auto.
  - unfold live in *. simpl.
    rewrite (remove_nth_split i (Graph.loading g) m Hi) in Hnd.
    unfold remove_nth. rewrite !map_app in *. simpl in Hnd.
    rewrite app_assoc in Hnd. apply NoDup_remove_1 in Hnd.
    now rewrite <- app_assoc in Hnd.
  - intros m' [[He Hm]|Hh]; apply Hentry; [left|right; exact Hh].
    split; [exact He|]. simpl in Hm. now apply in_remove_nth_in with (i := i).
Qed.

Lemma reject_consistent w e g :
  e = InvalidURL \/ e = ReadFileError \/ e = SyntaxError ->
  consistent w g -> consistent w (Graph.reject e g).
Proof.
  intros He [Hfresh Hnd Hres Hkeys Horigin Hentry Herr].
  constructor; auto.
  intros e' H. simpl in H.
  apply first_rejection_kinds with (old := Graph.rejected g) (e0 := e); auto.
Qed.

Lemma register_appends w i g m u src p :
  nth_error (Graph.loading g) i = Some m ->
  Mod.resolvedPath m = Some u ->
  consistent w g ->
  Graph.modules (register u (loaded_from m u src p) (settled i g))
  = Graph.modules g ++ [(u, loaded_from m u src p)].
Proof.
  intros Hi Hu [Hfresh Hnd Hres Hkeys Horigin Hentry Herr].
  unfold register. simpl. apply set_fresh.
  intros k' Hk'. unfold JsMap.keys in Hk'. apply in_map_iff in Hk'.
  destruct Hk' as [[k m'] [Hk Hin]]. simpl in Hk. subst k.
  assert (Hm' : In m' (live g)).
  { unfold live. apply in_or_app. left. apply in_map_iff. exists (k', m'). auto. }
  assert (Hm : In m (live g)).
  { unfold live. apply in_or_app. right. eapply nth_error_In; eauto. }
  destruct (Hkeys k' m' Hin) as [Hk' _].
  destruct (Hres m' Hm') as [h' [Hr' _]]. destruct (Hres m Hm) as [h [Hr _]].
  rewrite Hk' in Hr'. rewrite Hu in Hr. inversion Hr'; inversion Hr; subst.
  unfold same_url. simpl. apply Nat.eqb_neq. intros E. inversion E as [E'].
  revert E'. apply not_eq_sym.
  apply NoDup_map_app_neq with (f := Mod.mid) (l1 := map snd (Graph.modules g))
                                (l2 := Graph.loading g); auto.
  - apply in_map_iff. exists ({| oid := S (Mod.mid m'); href := h' |}, m'). auto.
  - eapply nth_error_In; eauto.
Qed.

Lemma register_consistent w i g m u src p :
  nth_error (Graph.loading g) i = Some m ->
  Mod.resolvedPath m = Some u ->
  readFile w (href u) = Some src -> parse_source w src = Some p ->
  consistent w g ->
  consistent w (register u (loaded_from m u src p) (settled i g)).
Proof.
  intros Hi Hu Hread Hparse Hc.
  assert (Hmods := register_appends w i g m u src p Hi Hu Hc).
  destruct Hc as [Hfresh Hnd Hres Hkeys Horigin Hentry Herr].
  set (m1 := loaded_from m u src p) in *.
  set (g1 := register u m1 (settled i g)) in *.
  assert (Hm : In m (live g)).
  { unfold live. apply in_or_app. right. eapply nth_error_In; eauto. }
  assert (Hlive : forall m', In m' (live g1) -> m' = m1 \/ In m' (live g)).
  { intros m'. unfold live. rewrite Hmods. simpl. rewrite map_app, !in_app_iff. simpl.
    intros [[H|[H|[]]]|H]; auto.
    right. right. now apply in_remove_nth_in with (i := i). }
  assert (Hin : forall e, In e (Graph.modules g1) -> e = (u, m1) \/ In e (Graph.modules g)).
  { intros e. rewrite Hmods, in_app_iff. simpl. intuition. }
  assert (Hsub : forall e, In e (Graph.modules g) -> In e (Graph.modules g1)).
  { intros e He. rewrite Hmods. apply in_or_app. auto. }
  constructor.
  - intros m' Hm'. apply Hlive in Hm'. destruct Hm' as [->|Hm']; [|now apply Hfresh].
    simpl. now apply Hfresh.
  - unfold live. rewrite Hmods. simpl.
    apply Permutation_NoDup with (l := map Mod.mid (live g)); [|exact Hnd].
    unfold live. rewrite (remove_nth_split i (Graph.loading g) m Hi) at 1.
    unfold remove_nth. rewrite !map_app. simpl. rewrite <- !app_assoc.
    apply Permutation_app_head. simpl.
    apply Permutation_sym.
    apply (Permutation_middle (map Mod.mid (firstn i (Graph.loading g)))).
  - intros m' Hm'. apply Hlive in Hm'. destruct Hm' as [->|Hm']; [|now apply Hres].
    destruct (Hres m Hm) as [h [Hr Hrs]]. exists h. simpl.
    rewrite Hu in Hr. split; [exact Hr|exact Hrs].
  - intros url m' He. apply Hin in He. destruct He as [He|He]; [|now apply Hkeys].
    inversion He; subst. simpl. split; [reflexivity|]. exists src, p. auto.
  - intros m' Hm'.
    assert (Ho : (Mod.input m' = Graph.source g /\ Mod.parentUrl m' = Graph.parent g)
                 \/ exists m'' p'', In (Mod.parentUrl m', m'') (Graph.modules g)
                                    /\ Mod.program m'' = Some p''
                                    /\ In (Mod.input m') (dependency_paths p'')).
    { apply Hlive in Hm'. destruct Hm' as [->|Hm']; [|now apply Horigin].
      simpl. now apply Horigin. }
    destruct Ho as [Ho|[m'' [p'' [H1 H2]]]]; [left; exact Ho|].
    right. exists m'', p''. split; [now apply Hsub|exact H2].
  - intros m' [[He _]|[url [rest Hh]]].
    + rewrite Hmods in He. destruct (Graph.modules g); discriminate.
    + rewrite Hmods in Hh. simpl.
      destruct (Graph.modules g) as [|[url0 m0] rest0] eqn:Eg; simpl in Hh.
      * inversion Hh; subst. simpl. apply Hentry. left. split; [reflexivity|].
        eapply nth_error_In; eauto.
      * inversion Hh; subst. apply Hentry. right. eauto.
  - exact Herr.
Qed.

Lemma resume_consistent w i g g' :
  consistent w g -> Graph.resume w i g = Some g' -> consistent w g'.
Proof.
  intros Hc Hres.
  destruct (resume_shape w i g g' Hres) as [m [Hi [[e [He ->]]|[u [src [p [Hu [Hr [Hp ->]]]]]]]]].
  - apply reject_consistent; [|now apply settled_consistent with (m := m)].
    assert (Hm : In m (live g)).
    { unfold live. apply in_or_app. right. eapply nth_error_In; eauto. }
    destruct (c_resolved w g Hc m Hm) as [h [Hrp _]].
    destruct (load_parse_cases w m)
      as [[Hn _]|[[u [_ [_ E]]]|[[u [src [_ [_ [_ E]]]]]|[u [src [p [_ [_ [_ E]]]]]]]]].
    + congruence.
    + rewrite E in He. inversion He. auto.
    + rewrite E in He. inversion He. auto.
    + rewrite E in He. discriminate.
  - apply starts_consistent with (m1 := loaded_from m u src p) (p1 := p).
    + reflexivity.
    + auto.
    + rewrite (register_appends w i g m u src p Hi Hu Hc).
      apply in_or_app. right. simpl. auto.
    + now apply register_consistent.
Qed.

Lemma new_consistent w source parent : consistent w (Graph.new source parent).
Proof.
  constructor; unfold live; simpl; try contradiction; try discriminate.
  - constructor.
  - intros m [[_ []]|[url [rest H]]]. discriminate.
Qed.

Lemma build_consistent w source parent :
  consistent w (Graph.build w (Graph.new source parent)).
Proof.
  unfold Graph.build. apply start_consistent; [apply new_consistent|]. left. auto.
Qed.

Lemma run_consistent w :
  forall schedule g g',
    consistent w g -> Graph.run w schedule g = Some g' -> consistent w g'.
Proof.
  induction schedule as [|i schedule IH]; intros g g' Hc Hrun; simpl in Hrun.
  - now inversion Hrun; subst.
  - destruct (Graph.resume w i g) as [g1|] eqn:E; [|discriminate].
    apply (IH g1 g'); [|exact Hrun]. now apply resume_consistent with (i := i) (g := g).
Qed.

Lemma start_closed_upto w u dep todo g :
  closed_upto g u (dep :: todo) -> closed_upto (Graph.start w dep u g) u todo.
Proof.
  intros Hc Hrej url m p d Hin Hp Hd.
  rewrite start_modules in Hin.
  destruct (resolve_url w dep (href u)) as [h|] eqn:Er.
  - rewrite (start_resolved w dep u g h Er) in Hrej |- *. simpl in Hrej.
    destruct (Hc Hrej url m p d Hin Hp Hd) as [[-> [<-|Ht]]|[c [Hc1 Hc2]]].
    + right. exists (started (Graph.next_oid g) dep u h). split; [|simpl; auto].
      unfold live. simpl. rewrite !in_app_iff. simpl. auto.
    + left. auto.
    + right. exists c. split; [|exact Hc2].
      unfold live in *. simpl. rewrite !in_app_iff in *. intuition.
  - rewrite (start_unresolved w dep u g Er) in Hrej. simpl in Hrej.
    destruct (Graph.rejected g); discriminate.
Qed.

Lemma starts_closed w u :
  forall deps g, closed_upto g u deps -> closed (starts w u deps g).
Proof.
  unfold starts, for_of. induction deps as [|dep deps IH]; intros g Hc; simpl.
  - intros Hrej url m p d Hin Hp Hd.
    destruct (Hc Hrej url m p d Hin Hp Hd) as [[_ []]|H]. exact H.
  - apply IH. now apply start_closed_upto.
Qed.

Lemma register_closed_upto w i g m u src p :
  nth_error (Graph.loading g) i = Some m ->
  Mod.resolvedPath m = Some u ->
  consistent w g -> closed g ->
  closed_upto (register u (loaded_from m u src p) (settled i g)) u (dependency_paths p).
Proof.
  intros Hi Hu Hc Hcl Hrej url m' p' dep Hin Hp' Hdep.
  rewrite (register_appends w i g m u src p Hi Hu Hc) in Hin.
  apply in_app_or in Hin. destruct Hin as [Hin|[Hin|[]]].
  - right. simpl in Hrej.
    destruct (Hcl Hrej url m' p' dep Hin Hp' Hdep) as [c [Hc1 Hc2]].
    unfold live in Hc1. apply in_app_or in Hc1.
    assert (Hl : forall x, In x (live (register u (loaded_from m u src p) (settled i g)))
                           <-> In x (map snd (Graph.modules g)) \/ x = loaded_from m u src p
                               \/ In x (remove_nth i (Graph.loading g))).
    { intros x. unfold live.
      rewrite (register_appends w i g m u src p Hi Hu Hc).
      simpl. rewrite map_app, !in_app_iff. simpl. intuition. }
    destruct Hc1 as [Hc1|Hc1].
    + exists c. split; [apply Hl; auto|exact Hc2].
    + apply In_nth_error in Hc1. destruct Hc1 as [k Hk].
      destruct (Nat.eq_dec k i) as [->|Hne].
      * rewrite Hi in Hk. inversion Hk; subst c.
        exists (loaded_from m u src p). split; [apply Hl; auto|exact Hc2].
      * exists c. split; [|exact Hc2]. apply Hl. right. right.
        now apply in_remove_nth with (k := k).
  - inversion Hin; subst. simpl in Hp'. inversion Hp'; subst. left. auto.
Qed.

Lemma resume_closed w i g g' :
  consistent w g -> closed g -> Graph.resume w i g = Some g' -> closed g'.
Proof.
  intros Hc Hcl Hres.
  destruct (resume_shape w i g g' Hres) as [m [Hi [[e [He ->]]|[u [src [p [Hu [Hr [Hp ->]]]]]]]]].
  - intros Hrej. simpl in Hrej. destruct (Graph.rejected g); discriminate.
  - apply starts_closed. now apply register_closed_upto with (w := w).
Qed.

Lemma build_closed w source parent : closed (Graph.build w (Graph.new source parent)).
Proof.
  intros _ url m p dep Hin. unfold Graph.build in Hin. rewrite start_modules in Hin.
  contradiction.
Qed.

Lemma run_sound w :
  forall schedule g g', sound w g -> Graph.run w schedule g = Some g' -> sound w g'.
Proof.
  induction schedule as [|i schedule IH]; intros g g' [Hc Hcl] Hrun; simpl in Hrun.
  - inversion Hrun; subst. split; assumption.
  - destruct (Graph.resume w i g) as [g1|] eqn:E; [|discriminate].
    apply (IH g1 g'); [|exact Hrun]. split.
    + now apply resume_consistent with (i := i) (g := g).
    + now apply resume_closed with (w := w) (i := i) (g := g).
Qed.

Lemma build_sound w source parent : sound w (Graph.build w (Graph.new source parent)).
Proof. split; [apply build_consistent|apply build_closed]. Qed.

(* ================================================================== *)
(** ** What a build registers, whatever the schedule *)

Lemma start_frame w path parent g :
  Graph.source (Graph.start w path parent g) = Graph.source g
  /\ Graph.parent (Graph.start w path parent g) = Graph.parent g.
Proof.
  unfold Graph.start.
  destruct (Mod.resolve w (S (Graph.next_oid g)) (Mod.new (Graph.next_oid g) path parent))
    as [[[] m']|e]; auto.
Qed.

Lemma resume_frame w i g g' :
  Graph.resume w i g = Some g' ->
  Graph.source g' = Graph.source g /\ Graph.parent g' = Graph.parent g.
Proof.
  intros Hres.
  destruct (resume_shape w i g g' Hres) as [m [Hi [[e [He ->]]|[u [src [p [Hu [Hr [Hp ->]]]]]]]]].
  - auto.
  - destruct (starts_frame w u (dependency_paths p)
                (register u (loaded_from m u src p) (settled i g))) as [_ [H1 H2]].
    now rewrite H1, H2.
Qed.

Lemma run_frame w :
  forall schedule g g',
    Graph.run w schedule g = Some g' ->
    Graph.source g' = Graph.source g /\ Graph.parent g' = Graph.parent g.
Proof.
  induction schedule as [|i schedule IH]; intros g g' Hrun; simpl in Hrun.
  - inversion Hrun; auto.
  - destruct (Graph.resume w i g) as [g1|] eqn:E; [|discriminate].
    destruct (IH g1 g' Hrun) as [H1 H2]. destruct (resume_frame w i g g1 E) as [H3 H4].
    split; congruence.
Qed.

Lemma build_frame w source parent :
  Graph.source (Graph.build w (Graph.new source parent)) = source
  /\ Graph.parent (Graph.build w (Graph.new source parent)) = parent.
Proof. unfold Graph.build. apply start_frame. Qed.

Lemma resume_appends w i g g' :
  consistent w g -> Graph.resume w i g = Some g' ->
  Graph.modules g' = Graph.modules g
  \/ exists entry, Graph.modules g' = Graph.modules g ++ [entry].
Proof.
  intros Hc Hres.
  destruct (resume_shape w i g g' Hres) as [m [Hi [[e [He ->]]|[u [src [p [Hu [Hr [Hp ->]]]]]]]]].
  - left. reflexivity.
  - right. exists (u, loaded_from m u src p).
    destruct (starts_frame w u (dependency_paths p)
                (register u (loaded_from m u src p) (settled i g))) as [H _].
    rewrite H. now apply register_appends with (w := w).
Qed.

Lemma run_appends w :
  forall schedule g g',
    consistent w g -> Graph.run w schedule g = Some g' ->
    exists added, Graph.modules g' = Graph.modules g ++ added
                  /\ length added <= length schedule.
Proof.
  induction schedule as [|i schedule IH]; intros g g' Hc Hrun; simpl in Hrun.
  - inversion Hrun; subst. exists []. rewrite app_nil_r. auto.
  - destruct (Graph.resume w i g) as [g1|] eqn:E; [|discriminate].
    destruct (IH g1 g' (resume_consistent w i g g1 Hc E) Hrun) as [added [H1 H2]].
    destruct (resume_appends w i g g1 Hc E) as [H|[entry H]]; rewrite H in H1.
    + exists added. simpl. split; [exact H1|lia].
    + exists (entry :: added). rewrite <- app_assoc in H1. simpl in *.
      split; [exact H1|lia].
Qed.

Lemma key_objects_distinct w g :
  consistent w g -> NoDup (map (fun entry => oid (fst entry)) (Graph.modules g)).
Proof.
  intros [Hfresh Hnd Hres Hkeys Horigin Hentry Herr].
  unfold live in Hnd. rewrite map_app in Hnd. apply NoDup_app_remove_r in Hnd.
  assert (Hk : forall url m, In (url, m) (Graph.modules g) -> oid url = S (Mod.mid m)).
  { intros url m Hin. destruct (Hkeys url m Hin) as [Hu _].
    destruct (Hres m) as [h [Hr _]].
    - unfold live. apply in_or_app. left. apply in_map_iff. exists (url, m). auto.
    - rewrite Hu in Hr. inversion Hr. reflexivity. }
  clear - Hnd Hk.
  revert Hnd Hk. induction (Graph.modules g) as [|[url m] l IH]; intros Hnd Hk; simpl;
    constructor.
  - simpl in Hnd. inversion Hnd; subst. intros Hin. apply H1.
    apply in_map_iff in Hin. destruct Hin as [[url' m'] [Ho Hin]]. simpl in Ho.
    rewrite (Hk url m) in Ho by (simpl; auto).
    rewrite (Hk url' m') in Ho by (simpl; auto). inversion Ho as [Hid].
    apply in_map. apply in_map_iff. exists (url', m'). auto.
  - simpl in Hnd. inversion Hnd; subst. apply IH; [assumption|].
    intros url' m' Hin. apply Hk. simpl. auto.
Qed.

(** Every module of the map is keyed by its own [resolvedPath] object, and
    is what [init()] makes of a new [Module] with its input and parent. *)
Theorem registered_modules_are_initialized (w : World) (source : string)
    (parent : URL) (schedule : list nat) (g : Graph.t) (url : URL) (m : Mod.t) :
  Graph.run w schedule (Graph.build w (Graph.new source parent)) = Some g ->
  In (url, m) (Graph.modules g) ->
  Mod.resolvedPath m = Some url
  /\ Mod.init w (oid url) (Mod.new (Mod.mid m) (Mod.input m) (Mod.parentUrl m))
     = Ok (tt, m).
Proof.
  intros Hrun Hin.
  assert (Hc := run_consistent w schedule _ g (build_consistent w source parent) Hrun).
  destruct (c_keys w g Hc url m Hin) as [Hu [src [p [Hr [Hp [Hs Hpr]]]]]].
  destruct (c_resolved w g Hc m) as [h [Hrp Hres]].
  { unfold live. apply in_or_app. left. apply in_map_iff. exists (url, m). auto. }
  split; [exact Hu|].
  rewrite Hu in Hrp. inversion Hrp; subst url. simpl in *.
  unfold Mod.init, Mod.bind, Mod.resolve. simpl. rewrite Hres.
  unfold Mod.load. simpl. rewrite Hr. unfold Mod.parse. simpl. rewrite Hp.
  destruct m; simpl in *. subst. reflexivity.
Qed.

(** Registrations are only appended: a read that settles adds at most one
    entry at the end of the map and leaves the entries before it as they
    were; no two entries have the same key object. *)
Theorem registrations_are_appended (w : World) (source : string) (parent : URL)
    (before after : list nat) (g g' : Graph.t) :
  Graph.run w before (Graph.build w (Graph.new source parent)) = Some g ->
  Graph.run w after g = Some g' ->
  (exists added, Graph.modules g' = Graph.modules g ++ added
                 /\ length added <= length after)
  /\ NoDup (map (fun entry => oid (fst entry)) (Graph.modules g')).
Proof.
  intros H1 H2.
  assert (Hc := run_consistent w before _ g (build_consistent w source parent) H1).
  split.
  - now apply run_appends with (w := w).
  - apply key_objects_distinct with (w := w).
    now apply run_consistent with (schedule := after) (g := g).
Qed.

(** [build()] rejects with the error of a resolution, of a read or of the
    parser, and with nothing else. *)
Theorem build_rejects_with_init_errors_only (w : World) (source : string)
    (parent : URL) (schedule : list nat) (g : Graph.t) (e : Error) :
  Graph.run w schedule (Graph.build w (Graph.new source parent)) = Some g ->
  Graph.outcome g = Rejected e ->
  e = InvalidURL \/ e = ReadFileError \/ e = SyntaxError.
Proof.
  intros Hrun Hout.
  assert (Hc := run_consistent w schedule _ g (build_consistent w source parent) Hrun).
  apply (c_errors w g Hc). unfold Graph.outcome in Hout.
  destruct (Graph.rejected g) as [e'|]; [now inversion Hout|].
  destruct (Graph.loading g); discriminate.
Qed.

(** When [build()] is fulfilled, the map is closed under imports: for every
    import of a registered module there is a registered module made from
    that path with the importer's [resolvedPath] as parent, at the location
    the path resolves to. *)
Theorem fulfilled_build_is_closed_under_imports (w : World) (source : string)
    (parent : URL) (schedule : list nat) (g : Graph.t)
    (url : URL) (m : Mod.t) (p : Program) (dep : string) :
  Graph.run w schedule (Graph.build w (Graph.new source parent)) = Some g ->
  Graph.outcome g = Fulfilled tt ->
  In (url, m) (Graph.modules g) -> Mod.program m = Some p ->
  In dep (import_sources p) ->
  exists url' m',
    In (url', m') (Graph.modules g)
    /\ Mod.input m' = dep /\ Mod.parentUrl m' = url
    /\ resolve_url w dep (href url) = Some (href url').
Proof.
  intros Hrun Hout Hin Hp Hdep.
  destruct (run_sound w schedule _ g (build_sound w source parent) Hrun) as [Hc Hcl].
  unfold Graph.outcome in Hout.
  destruct (Graph.rejected g) eqn:Hrej; [discriminate|].
  destruct (Graph.loading g) eqn:Hl; [|discriminate].
  rewrite <- dependency_paths_eq in Hdep.
  destruct (Hcl Hrej url m p dep Hin Hp Hdep) as [c [Hc1 [Hc2 Hc3]]].
  assert (Hc1' := Hc1). unfold live in Hc1. rewrite Hl, app_nil_r in Hc1.
  apply in_map_iff in Hc1. destruct Hc1 as [[url' m'] [E Hin']]. simpl in E. subst m'.
  exists url', c. repeat split; auto.
  destruct (c_keys w g Hc url' c Hin') as [Hu _].
  destruct (c_resolved w g Hc c Hc1') as [h [Hrp Hres]].
  rewrite Hu in Hrp. inversion Hrp; subst url'. simpl.
  now rewrite <- Hc2, <- Hc3.
Qed.

(** Only reachable modules are registered: a module of the map is the entry
    of the build or is imported by a module of the map; the first entry of
    the map is the entry of the build. *)
Theorem registered_modules_are_reachable (w : World) (source : string)
    (parent : URL) (schedule : list nat) (g : Graph.t) :
  Graph.run w schedule (Graph.build w (Graph.new source parent)) = Some g ->
  (forall url m, In (url, m) (Graph.modules g) ->
     (Mod.input m = source /\ Mod.parentUrl m = parent)
     \/ exists m' p', In (Mod.parentUrl m, m') (Graph.modules g)
                      /\ Mod.program m' = Some p'
                      /\ In (Mod.input m) (import_sources p'))
  /\ (forall url m rest, Graph.modules g = (url, m) :: rest ->
        Mod.input m = source /\ Mod.parentUrl m = parent).
Proof.
  intros Hrun.
  assert (Hc := run_consistent w schedule _ g (build_consistent w source parent) Hrun).
  destruct (run_frame w schedule _ g Hrun) as [Hs Hp].
  destruct (build_frame w source parent) as [Hs' Hp']. rewrite Hs' in Hs. rewrite Hp' in Hp.
  split.
  - intros url m Hin.
    destruct (c_origin w g Hc m) as [H|[m' [p' [H1 [H2 H3]]]]].
    + unfold live. apply in_or_app. left. apply in_map_iff. exists (url, m). auto.
    + left. now rewrite <- Hs, <- Hp.
    + right. exists m', p'. rewrite <- dependency_paths_eq. auto.
  - intros url m rest Hm. rewrite <- Hs, <- Hp. apply (c_entry w g Hc m). right. eauto.
Qed.

(* ================================================================== *)
(** ** The generated texts *)

Lemma ready_module_shaken m :
  module_ready m = true ->
  exists notUsed,
    Mod.calculateNotUsedImportDeclarations m = Ok (notUsed, m)
    /\ Mod.getCode (map (fun d => decl_loc (snd d)) notUsed) m = Ok (shaken m, m).
Proof.
  intros H. destruct (module_ready_initialized m H) as [src [p [[Hs Hp] Hd]]].
  exists (filter (not_used src p) (import_refs p)). split.
  - now apply calculateNotUsedImportDeclarations_eq.
  - unfold shaken. rewrite Hs, Hp. unfold shaken_text.
    apply getCode_eq; [assumption|].
    apply declarations_in_source_spans with (p := p); [assumption|].
    intros r Hr. apply filter_In in Hr. tauto.
Qed.

Lemma removeUnusedImportsLoop_maps :
  forall entries acc,
    forallb (fun entry => module_ready (snd entry)) entries = true ->
    NoDup (map Mod.mid (map fst acc) ++ map Mod.mid (map snd entries)) ->
    Graph.removeUnusedImportsLoop entries acc
    = Ok (acc ++ map (fun entry => (snd entry, shaken (snd entry))) entries, entries).
Proof.
  induction entries as [|[url m] entries IH]; intros acc Hready Hnd; simpl.
  - now rewrite app_nil_r.
  - simpl in Hready. apply andb_true_iff in Hready. destruct Hready as [Hm Hrest].
    destruct (ready_module_shaken m Hm) as [notUsed [H1 H2]].
    rewrite H1, H2.
    assert (Hset : JsMap.set Mod.same m (shaken m) acc = acc ++ [(m, shaken m)]).
    { apply set_fresh. intros k' Hk'. unfold Mod.same. apply Nat.eqb_neq.
      intros E. simpl in Hnd. apply NoDup_remove_2 in Hnd. apply Hnd.
      apply in_or_app. left. rewrite E. apply in_map. exact Hk'. }
    rewrite Hset, IH.
    + now rewrite <- app_assoc.
    + exact Hrest.
    + rewrite !map_app. simpl. rewrite <- app_assoc. exact Hnd.
Qed.

Lemma consistent_ready w g :
  parser_sound w -> consistent w g -> shakeable g = true.
Proof.
  intros Hw Hc. unfold shakeable. apply forallb_forall. intros [url m] Hin. simpl.
  destruct (c_keys w g Hc url m Hin) as [_ [src [p [_ [Hp [Hs Hpr]]]]]].
  unfold module_ready. rewrite Hs, Hpr. now apply Hw.
Qed.

Lemma removeUnusedImports_maps w g :
  parser_sound w -> consistent w g ->
  Graph.removeUnusedImports g
  = Ok (map (fun entry => (snd entry, shaken (snd entry))) (Graph.modules g), g).
Proof.
  intros Hw Hc. unfold Graph.removeUnusedImports.
  rewrite removeUnusedImportsLoop_maps.
  - simpl. destruct g; reflexivity.
  - now apply consistent_ready with (w := w).
  - simpl. assert (Hnd := c_nodup w g Hc). unfold live in Hnd.
    rewrite map_app in Hnd. now apply NoDup_app_remove_r in Hnd.
Qed.

(** [removeUnusedImports] returns one entry per registered module, in the
    order of registration: the module and its text without the import
    declarations it does not use; the graph is left as it was. *)
Theorem removeUnusedImports_maps_every_module (w : World) (source : string)
    (parent : URL) (schedule : list nat) (g : Graph.t) :
  parser_sound w ->
  Graph.run w schedule (Graph.build w (Graph.new source parent)) = Some g ->
  Graph.removeUnusedImports g
  = Ok (map (fun entry => (snd entry, shaken (snd entry))) (Graph.modules g), g).
Proof.
  intros Hw Hrun. apply removeUnusedImports_maps with (w := w); [exact Hw|].
  now apply run_consistent with (schedule := schedule)
                                (g := Graph.build w (Graph.new source parent));
    [apply build_consistent|].
Qed.

Lemma generate_entry_text w chunk :
  parser_sound w -> consistent w (Chunk.graph chunk) ->
  Graph.modules (Chunk.graph chunk) <> [] ->
  exists h src p,
    resolve_url w (Graph.source (Chunk.graph chunk))
      (href (Graph.parent (Chunk.graph chunk))) = Some h
    /\ readFile w h = Some src /\ parse_source w src = Some p
    /\ Chunk.generate chunk = Ok (shaken_text src p, chunk).
Proof.
  intros Hw Hc Hne. unfold Chunk.generate.
  rewrite (removeUnusedImports_maps w _ Hw Hc).
  destruct (Graph.modules (Chunk.graph chunk)) as [|[url m] rest] eqn:Em;
    [contradiction|].
  assert (Hin : In (url, m) (Graph.modules (Chunk.graph chunk)))
    by (rewrite Em; simpl; auto).
  destruct (c_entry w _ Hc m) as [Hi Hp]; [right; eauto|].
  destruct (c_keys w _ Hc url m Hin) as [Hu [src [p [Hr [Hpa [Hs Hpr]]]]]].
  destruct (c_resolved w _ Hc m) as [h [Hrp Hres]].
  { unfold live. apply in_or_app. left. apply in_map_iff. exists (url, m). auto. }
  rewrite Hu in Hrp. inversion Hrp; subst url. simpl in Hr.
  exists h, src, p. rewrite <- Hi, <- Hp. repeat split; auto.
  simpl. unfold shaken. rewrite Hs, Hpr. f_equal. f_equal.
  destruct chunk; reflexivity.
Qed.

Lemma run_well_built w :
  parser_sound w ->
  forall schedule g g',
    well_built g -> Graph.run w schedule g = Some g' -> well_built g'.
Proof.
  intros Hw. induction schedule as [|i schedule IH]; intros g g' Hg Hrun; simpl in Hrun.
  - now inversion Hrun; subst.
  - destruct (Graph.resume w i g) as [g1|] eqn:E; [|discriminate].
    apply (IH g1 g'); [|exact Hrun]. eapply resume_well_built; eauto.
Qed.

(** [generate()] on a chunk whose build is through returns the text of the
    entry of the chunk, the file its [source] resolves to against its
    [parent], without the import declarations that text does not use;
    before the first module is registered it throws. *)
Theorem generate_returns_entry_text (w : World) (source destination : string)
    (parent : URL) (schedule : list nat) (g : Graph.t) :
  parser_sound w ->
  Graph.run w schedule (Graph.build w (Graph.new source parent)) = Some g ->
  (Graph.modules g = [] ->
   Chunk.generate (Chunk.with_graph (Chunk.new source destination parent) g)
   = Throw TypeError)
  /\ (Graph.outcome g = Fulfilled tt ->
      exists h src p,
        resolve_url w source (href parent) = Some h
        /\ readFile w h = Some src /\ parse_source w src = Some p
        /\ Chunk.generate (Chunk.with_graph (Chunk.new source destination parent) g)
           = Ok (shaken_text src p,
                 Chunk.with_graph (Chunk.new source destination parent) g)).
Proof.
  intros Hw Hrun.
  assert (Hc := run_consistent w schedule _ g (build_consistent w source parent) Hrun).
  split.
  - intros He. unfold Chunk.generate. simpl.
    rewrite (removeUnusedImports_maps w g Hw Hc). now rewrite He.
  - intros Hout.
    assert (Hwb := run_well_built w Hw schedule _ g (build_well_built w source parent) Hrun).
    destruct (run_frame w schedule _ g Hrun) as [Hs Hp].
    destruct (build_frame w source parent) as [Hs' Hp'].
    rewrite Hs' in Hs. rewrite Hp' in Hp.
    destruct (generate_entry_text w
                (Chunk.with_graph (Chunk.new source destination parent) g) Hw Hc)
      as [h [src [p H]]].
    + simpl. intros He. unfold Graph.outcome in Hout.
      destruct (Graph.rejected g) eqn:Hr; [discriminate|].
      destruct (Graph.loading g) eqn:Hl; [|discriminate].
      destruct Hwb as [_ Hwb]. now apply (Hwb He Hl).
    + simpl in H. rewrite Hs, Hp in H. exists h, src, p. exact H.
Qed.

(* ================================================================== *)
(** ** The first failure wins *)

Lemma start_rejected_sticky w path parent g e :
  Graph.rejected g = Some e -> Graph.rejected (Graph.start w path parent g) = Some e.
Proof.
  intros H. destruct (resolve_url w path (href parent)) as [h|] eqn:Er.
  - now rewrite (start_resolved w path parent g h Er).
  - rewrite (start_unresolved w path parent g Er). simpl. now rewrite H.
Qed.

Lemma resume_rejected_sticky w i g g' e :
  Graph.rejected g = Some e -> Graph.resume w i g = Some g' ->
  Graph.rejected g' = Some e.
Proof.
  intros H Hres.
  destruct (resume_shape w i g g' Hres) as [m [Hi [[e' [He ->]]|[u [src [p [Hu [Hr [Hp ->]]]]]]]]].
  - simpl. now rewrite H.
  - assert (Hs : forall deps g0, Graph.rejected g0 = Some e ->
                                 Graph.rejected (starts w u deps g0) = Some e).
    { unfold starts, for_of. induction deps as [|dep deps IH]; intros g0 H0; simpl;
        [exact H0|].
      apply IH. now apply start_rejected_sticky. }
    apply Hs. exact H.
Qed.

(** Once [build()] is rejected, the reads that settle later do not change
    the error it is rejected with. *)
Theorem first_failure_wins (w : World) (after : list nat) (g g' : Graph.t) (e : Error) :
  Graph.outcome g = Rejected e ->
  Graph.run w after g = Some g' ->
  Graph.outcome g' = Rejected e.
Proof.
  intros Hout Hrun.
  assert (Hrej : Graph.rejected g = Some e).
  { unfold Graph.outcome in Hout. destruct (Graph.rejected g) as [e'|].
    - now inversion Hout.
    - destruct (Graph.loading g); discriminate. }
  clear Hout. revert g Hrej Hrun.
  induction after as [|i after IH]; intros g Hrej Hrun; simpl in Hrun.
  - inversion Hrun; subst. unfold Graph.outcome. now rewrite Hrej.
  - destruct (Graph.resume w i g) as [g1|] eqn:E; [|discriminate].
    apply (IH g1); [|exact Hrun]. now apply resume_rejected_sticky with (w := w) (i := i) (g := g).
Qed.

(* ================================================================== *)
(** ** [treeShaker], from the input mapping to the texts *)

Lemma chunks_invariant w options (P : Chunk.t -> Prop) :
  (forall entry,
      P (Chunk.build w (Chunk.new (snd entry) (fst entry) (TreeShaker.parent options)))) ->
  (forall chunk i g', P chunk -> Graph.resume w i (Chunk.graph chunk) = Some g' ->
                      P (Chunk.with_graph chunk g')) ->
  forall schedule st,
    TreeShaker.run w schedule (TreeShaker.start w options) = Some st ->
    forall chunk, In chunk (TreeShaker.built st) -> P chunk.
Proof.
  intros Hbuild Hstep.
  assert (Hstart : forall chunk, In chunk (TreeShaker.built (TreeShaker.start w options)) ->
                                 P chunk).
  { unfold TreeShaker.start.
    set (body := fun st entry => _).
    assert (H : forall entries st,
               (forall chunk, In chunk (TreeShaker.built st) -> P chunk) ->
               forall chunk, In chunk (TreeShaker.built (for_of entries body st)) -> P chunk).
    { unfold for_of. induction entries as [|entry entries IH]; intros st Hst; simpl;
        [exact Hst|].
      apply IH. intros chunk Hin. unfold body in Hin. simpl in Hin.
      unfold push in Hin. apply in_app_or in Hin.
      destruct Hin as [Hin|[<-|[]]]; [now apply Hst|apply Hbuild]. }
    apply H. intros chunk []. }
  intros schedule. generalize (TreeShaker.start w options) Hstart. clear Hstart.
  induction schedule as [|[j i] schedule IH]; intros st0 H0 st Hrun; simpl in Hrun.
  - now inversion Hrun; subst.
  - destruct (TreeShaker.resume w j i st0) as [st1|] eqn:E; [|discriminate].
    apply (IH st1); [|exact Hrun].
    unfold TreeShaker.resume in E.
    destruct (nth_error (TreeShaker.built st0) j) as [c|] eqn:Ej; [|discriminate].
    destruct (Graph.resume w i (Chunk.graph c)) as [g|] eqn:Eg; [|discriminate].
    inversion E; subst st1; clear E. simpl.
    intros chunk Hin. apply in_replace_nth in Hin. destruct Hin as [->|Hin].
    + apply Hstep with (i := i); [|exact Eg]. apply H0. eapply nth_error_In; eauto.
    + now apply H0.
Qed.

Lemma chunks_sound w options schedule st :
  TreeShaker.run w schedule (TreeShaker.start w options) = Some st ->
  forall chunk, In chunk (TreeShaker.built st) -> chunk_sound w options chunk.
Proof.
  apply chunks_invariant.
  - intros entry. unfold chunk_sound. simpl. split; [apply build_consistent|].
    apply build_frame.
  - intros chunk i g' [Hc [Hs Hp]] Hres. unfold chunk_sound. simpl.
    destruct (resume_frame w i _ g' Hres) as [H1 H2].
    split; [now apply resume_consistent with (i := i) (g := Chunk.graph chunk)|].
    split; congruence.
Qed.

Lemma generate_each (R : Chunk.t -> text -> Prop) :
  forall chunks,
    (forall chunk, In chunk chunks ->
                   exists code, Chunk.generate chunk = Ok (code, chunk) /\ R chunk code) ->
    exists codes,
      TreeShaker.generate chunks = Ok (codes, chunks) /\ Forall2 R chunks codes.
Proof.
  induction chunks as [|chunk chunks IH]; intros H; simpl.
  - exists []. split; [reflexivity|constructor].
  - destruct (H chunk) as [code [Hc HR]]; [simpl; auto|].
    destruct IH as [codes [Hg Hall]]; [intros c Hin; apply H; simpl; auto|].
    rewrite Hc, Hg. exists (code :: codes). split; [reflexivity|]. now constructor.
Qed.

(** [treeShaker] end to end.  When it returns, [generate()] returns one text
    per entry of [Object.entries(options.chunks)], in that order: the text
    of the file the entry's path resolves to against [options.parent],
    without the import declarations that text does not use. *)
Theorem treeShaker_generates_entry_texts (w : World) (options : TreeShaker.Options)
    (schedule : list (nat * nat)) (chunks : list Chunk.t) :
  parser_sound w ->
  TreeShaker.treeShaker w options schedule = Some (Fulfilled chunks) ->
  map chunk_entry chunks = JsObject.entries (TreeShaker.chunks options)
  /\ exists codes,
       TreeShaker.generate chunks = Ok (codes, chunks)
       /\ Forall2 (fun chunk code =>
                     exists h src p,
                       resolve_url w (Chunk.source chunk)
                         (href (TreeShaker.parent options)) = Some h
                       /\ readFile w h = Some src /\ parse_source w src = Some p
                       /\ code = shaken_text src p)
                  chunks codes.
Proof.
  intros Hw H. unfold TreeShaker.treeShaker in H.
  destruct (TreeShaker.run w schedule (TreeShaker.start w options)) as [st|] eqn:Hrun;
    [|discriminate].
  unfold TreeShaker.outcome in H.
  destruct (TreeShaker.rejected st) as [e|] eqn:Hrej; [discriminate|].
  destruct (forallb _ (TreeShaker.built st)) eqn:Hdone; [|discriminate].
  inversion H; subst chunks; clear H.
  destruct (run_invariants _ _ _ Hrun) as [Hmap Hseen].
  specialize (Hseen (start_failures_seen w options)).
  split; [rewrite Hmap; apply start_built|].
  apply generate_each. intros chunk Hin.
  destruct (chunks_sound w options schedule st Hrun chunk Hin) as [Hc [Hs Hp]].
  destruct (generate_entry_text w chunk Hw Hc) as [h [src [p [H1 [H2 [H3 H4]]]]]].
  - assert (Hwb : well_built (Chunk.graph chunk)).
    { eapply run_chunks_well_built; eauto. apply start_chunks_well_built. }
    intros He. destruct Hwb as [_ Hwb]. apply (Hwb He).
    + rewrite forallb_forall in Hdone. specialize (Hdone chunk Hin).
      now destruct (Graph.loading (Chunk.graph chunk)).
    + destruct (Graph.rejected (Chunk.graph chunk)) eqn:Ec; [|reflexivity].
      exfalso. apply (Hseen chunk Hin); [congruence|exact Hrej].
  - exists (shaken_text src p). split; [exact H4|].
    exists h, src, p. rewrite <- Hs, <- Hp. auto.
Qed.

Lemma rejection_has_a_chunk w options :
  forall schedule st,
    TreeShaker.run w schedule (TreeShaker.start w options) = Some st ->
    forall e, TreeShaker.rejected st = Some e ->
              exists chunk, In chunk (TreeShaker.built st)
                            /\ Graph.rejected (Chunk.graph chunk) = Some e.
Proof.
  assert (Hstart : forall e, TreeShaker.rejected (TreeShaker.start w options) = Some e ->
                             exists chunk, In chunk (TreeShaker.built (TreeShaker.start w options))
                                           /\ Graph.rejected (Chunk.graph chunk) = Some e).
  { unfold TreeShaker.start.
    set (body := fun st entry => _).
    assert (H : forall entries st,
               (forall e, TreeShaker.rejected st = Some e ->
                          exists chunk, In chunk (TreeShaker.built st)
                                        /\ Graph.rejected (Chunk.graph chunk) = Some e) ->
               forall e, TreeShaker.rejected (for_of entries body st) = Some e ->
                         exists chunk, In chunk (TreeShaker.built (for_of entries body st))
                                       /\ Graph.rejected (Chunk.graph chunk) = Some e).
    { unfold for_of. induction entries as [|entry entries IH]; intros st Hst; simpl;
        [exact Hst|].
      apply IH. intros e He. unfold body in He |- *. simpl in *.
      destruct (TreeShaker.rejected st) as [e0|] eqn:E0; simpl in He.
      - inversion He; subst e0. destruct (Hst e eq_refl) as [c [Hc1 Hc2]].
        exists c. split; [unfold push; apply in_or_app; auto|exact Hc2].
      - eexists. split; [unfold push; apply in_or_app; right; left; reflexivity|].
        exact He. }
    apply H. intros e He. discriminate. }
  intros schedule. generalize (TreeShaker.start w options) Hstart. clear Hstart.
  induction schedule as [|[j i] schedule IH]; intros st0 H0 st Hrun; simpl in Hrun.
  - now inversion Hrun; subst.
  - destruct (TreeShaker.resume w j i st0) as [st1|] eqn:E; [|discriminate].
    apply (IH st1); [|exact Hrun].
    unfold TreeShaker.resume in E.
    destruct (nth_error (TreeShaker.built st0) j) as [c|] eqn:Ej; [|discriminate].
    destruct (Graph.resume w i (Chunk.graph c)) as [g|] eqn:Eg; [|discriminate].
    inversion E; subst st1; clear E. simpl.
    intros e He.
    destruct (TreeShaker.rejected st0) as [e0|] eqn:E0; simpl in He.
    + inversion He; subst e0. destruct (H0 e eq_refl) as [c0 [Hc1 Hc2]].
      apply In_nth_error in Hc1. destruct Hc1 as [k Hk].
      destruct (Nat.eq_dec k j) as [->|Hne].
      * rewrite Ej in Hk. inversion Hk; subst c0.
        exists (Chunk.with_graph c g). split.
        -- unfold TreeShaker.replace_nth. apply in_or_app. right. left. reflexivity.
        -- simpl. now apply resume_rejected_sticky with (w := w) (i := i) (g := Chunk.graph c).
      * exists c0. split; [|exact Hc2].
        apply nth_error_In with (n := k).
        rewrite nth_error_replace_nth; [exact Hk|exact Hne|].
        apply nth_error_Some. congruence.
    + exists (Chunk.with_graph c g). split; [|exact He].
      unfold TreeShaker.replace_nth. apply in_or_app. right. left. reflexivity.
Qed.

(** The error [treeShaker] is rejected with is the error the build of one of
    its chunks is rejected with: the error of a resolution, of a read or of
    the parser. *)
Theorem treeShaker_rejection_is_a_chunk_failure (w : World)
    (options : TreeShaker.Options) (schedule : list (nat * nat)) (e : Error) :
  TreeShaker.treeShaker w options schedule = Some (Rejected e) ->
  (exists st chunk,
      TreeShaker.run w schedule (TreeShaker.start w options) = Some st
      /\ In chunk (TreeShaker.built st)
      /\ Graph.outcome (Chunk.graph chunk) = Rejected e)
  /\ (e = InvalidURL \/ e = ReadFileError \/ e = SyntaxError).
Proof.
  intros H. unfold TreeShaker.treeShaker in H.
  destruct (TreeShaker.run w schedule (TreeShaker.start w options)) as [st|] eqn:Hrun;
    [|discriminate].
  assert (Hrej : TreeShaker.rejected st = Some e).
  { unfold TreeShaker.outcome in H. destruct (TreeShaker.rejected st) as [e'|].
    - now inversion H.
    - destruct (forallb _ (TreeShaker.built st)); discriminate. }
  destruct (rejection_has_a_chunk w options schedule st Hrun e Hrej) as [chunk [Hin Hc]].
  split.
  - exists st, chunk. repeat split; auto. unfold Graph.outcome. now rewrite Hc.
  - destruct (chunks_sound w options schedule st Hrun chunk Hin) as [Hcons _].
    now apply (c_errors w _ Hcons).
Qed.

(* ================================================================== *)
(** ** One chunk per entry of the mapping *)

Lemma insert_by_index_perm x :
  forall l, Permutation (JsObject.insert_by_index x l) (x :: l).
Proof.
  induction l as [|y l IH]; simpl; [apply Permutation_refl|].
  destruct (N.leb (fst x) (fst y)); [apply Permutation_refl|].
  apply Permutation_trans with (l' := y :: x :: l); [now constructor|apply perm_swap].
Qed.

Lemma sort_by_index_perm :
  forall l, Permutation (JsObject.sort_by_index l) l.
Proof.
  induction l as [|x l IH]; simpl; [constructor|].
  apply Permutation_trans with (l' := x :: JsObject.sort_by_index l).
  - apply insert_by_index_perm.
  - now constructor.
Qed.

Lemma entries_perm (o : JsObject.t) : Permutation (JsObject.entries o) o.
Proof.
  unfold JsObject.entries.
  apply Permutation_trans
    with (l' := map snd (flat_map (fun kv => match JsObject.array_index (fst kv) with
                                             | Some n => [(n, kv)]
                                             | None => []
                                             end) o)
                ++ filter (fun kv => match JsObject.array_index (fst kv) with
                                     | Some _ => false
                                     | None => true
                                     end) o).
  - apply Permutation_app_tail. apply Permutation_map. apply sort_by_index_perm.
  - induction o as [|kv o IH]; simpl; [constructor|].
    destruct (JsObject.array_index (fst kv)); simpl.
    + now constructor.
    + apply Permutation_sym. apply Permutation_cons_app. now apply Permutation_sym.
Qed.

(** [treeShaker] builds one chunk per entry of the input mapping: at every
    point the chunks are, up to their order, the declared pairs of output
    identifier and entry path, none missing and none twice. *)
Theorem treeShaker_builds_each_chunk_once (w : World) (options : TreeShaker.Options)
    (schedule : list (nat * nat)) (st : TreeShaker.t) :
  TreeShaker.run w schedule (TreeShaker.start w options) = Some st ->
  Permutation (map chunk_entry (TreeShaker.built st)) (TreeShaker.chunks options)
  /\ length (TreeShaker.built st) = length (TreeShaker.chunks options).
Proof.
  intros Hrun. destruct (run_invariants _ _ _ Hrun) as [Hmap _].
  assert (HP : Permutation (map chunk_entry (TreeShaker.built st))
                           (TreeShaker.chunks options)).
  { rewrite Hmap, start_built. apply entries_perm. }
  split; [exact HP|].
  apply Permutation_length in HP. now rewrite length_map in HP.
Qed.

(* ================================================================== *)
(** ** The properties on concrete inputs *)

Lemma registered_modules_are_initialized_witness :
  Mod.resolvedPath MoreFixtures.e_js_module = Some MoreFixtures.e_js_url
  /\ Mod.init Fixtures.world 1 (Mod.new 0 "./e.js" Fixtures.base)
     = Ok (tt, MoreFixtures.e_js_module).
Proof.
  apply (registered_modules_are_initialized Fixtures.world "./e.js" Fixtures.base
           [0; 0; 0; 0; 0] Fixtures.diamond MoreFixtures.e_js_url MoreFixtures.e_js_module).
  - vm_compute. reflexivity.
  - vm_compute. left. reflexivity.
Defined.

Lemma registrations_are_appended_witness :
  (exists added,
      Graph.modules Fixtures.diamond
      = Graph.modules (Fixtures.built_graph "./e.js" [0]) ++ added
      /\ length added <= 4)
  /\ NoDup (map (fun entry => oid (fst entry)) (Graph.modules Fixtures.diamond)).
Proof.
  apply (registrations_are_appended Fixtures.world "./e.js" Fixtures.base
           [0] [0; 0; 0; 0] (Fixtures.built_graph "./e.js" [0]) Fixtures.diamond).
  - vm_compute. reflexivity.
  - vm_compute. reflexivity.
Defined.

Lemma build_rejects_with_init_errors_only_witness :
  ReadFileError = InvalidURL \/ ReadFileError = ReadFileError
  \/ ReadFileError = SyntaxError.
Proof.
  apply (build_rejects_with_init_errors_only Fixtures.world "./missing.js" Fixtures.base
           [0] (Fixtures.built_graph "./missing.js" [0]) ReadFileError).
  - vm_compute. reflexivity.
  - vm_compute. reflexivity.
Defined.

Lemma fulfilled_build_is_closed_under_imports_witness :
  exists url' m',
    In (url', m') (Graph.modules Fixtures.diamond)
    /\ Mod.input m' = "./x.js"%string /\ Mod.parentUrl m' = MoreFixtures.e_js_url
    /\ resolve_url Fixtures.world "./x.js" (href MoreFixtures.e_js_url)
       = Some (href url').
Proof.
  apply (fulfilled_build_is_closed_under_imports Fixtures.world "./e.js" Fixtures.base
           [0; 0; 0; 0; 0] Fixtures.diamond MoreFixtures.e_js_url
           MoreFixtures.e_js_module Fixtures.e_js_ast "./x.js").
  - vm_compute. reflexivity.
  - vm_compute. reflexivity.
  - vm_compute. left. reflexivity.
  - reflexivity.
  - vm_compute. left. reflexivity.
Defined.

Lemma registered_modules_are_reachable_witness :
  Mod.input MoreFixtures.e_js_module = "./e.js"%string
  /\ Mod.parentUrl MoreFixtures.e_js_module = Fixtures.base.
Proof.
  refine (proj2 (registered_modules_are_reachable Fixtures.world "./e.js" Fixtures.base
                   [0; 0; 0; 0; 0] Fixtures.diamond _)
            MoreFixtures.e_js_url MoreFixtures.e_js_module
            (tl (Graph.modules Fixtures.diamond)) _).
  - vm_compute. reflexivity.
  - vm_compute. reflexivity.
Defined.

Lemma removeUnusedImports_maps_every_module_witness :
  Graph.removeUnusedImports Fixtures.diamond
  = Ok (map (fun entry => (snd entry, shaken (snd entry))) (Graph.modules Fixtures.diamond),
        Fixtures.diamond).
Proof.
  apply (removeUnusedImports_maps_every_module Fixtures.world "./e.js" Fixtures.base
           [0; 0; 0; 0; 0] Fixtures.diamond).
  - exact fixtures_parser_sound.
  - vm_compute. reflexivity.
Defined.

Lemma generate_returns_entry_text_witness :
  exists h src p,
    resolve_url Fixtures.world "./e.js" (href Fixtures.base) = Some h
    /\ readFile Fixtures.world h = Some src /\ parse_source Fixtures.world src = Some p
    /\ Chunk.generate
         (Chunk.with_graph (Chunk.new "./e.js" "out.js" Fixtures.base) Fixtures.diamond)
       = Ok (shaken_text src p,
             Chunk.with_graph (Chunk.new "./e.js" "out.js" Fixtures.base) Fixtures.diamond).
Proof.
  refine (proj2 (generate_returns_entry_text Fixtures.world "./e.js" "out.js"
                   Fixtures.base [0; 0; 0; 0; 0] Fixtures.diamond _ _) _).
  - exact fixtures_parser_sound.
  - vm_compute. reflexivity.
  - vm_compute. reflexivity.
Defined.

Lemma first_failure_wins_witness :
  Graph.outcome (MoreFixtures.broken_graph [0; 0; 0]) = Rejected ReadFileError.
Proof.
  apply (first_failure_wins MoreFixtures.broken_world [0]
           (MoreFixtures.broken_graph [0; 0]) (MoreFixtures.broken_graph [0; 0; 0])
           ReadFileError).
  - vm_compute. reflexivity.
  - vm_compute. reflexivity.
Defined.

Example broken_graph_registers_after_failure :
  map (fun entry => Mod.input (snd entry))
      (Graph.modules (MoreFixtures.broken_graph [0; 0; 0]))
  = ["./broken.js"; "./z.js"]%string.
Proof. vm_compute. reflexivity. Qed.

Lemma treeShaker_generates_entry_texts_witness :
  exists codes,
    TreeShaker.generate
      (TreeShaker.built (Fixtures.shaker_after Fixtures.named_chunks [(0, 0); (1, 0); (1, 0)]))
    = Ok (codes,
          TreeShaker.built (Fixtures.shaker_after Fixtures.named_chunks [(0, 0); (1, 0); (1, 0)]))
    /\ Forall2 (fun chunk code =>
                  exists h src p,
                    resolve_url Fixtures.world (Chunk.source chunk)
                      (href (TreeShaker.parent Fixtures.named_chunks)) = Some h
                    /\ readFile Fixtures.world h = Some src
                    /\ parse_source Fixtures.world src = Some p
                    /\ code = shaken_text src p)
               (TreeShaker.built
                  (Fixtures.shaker_after Fixtures.named_chunks [(0, 0); (1, 0); (1, 0)]))
               codes.
Proof.
  refine (proj2 (treeShaker_generates_entry_texts Fixtures.world Fixtures.named_chunks
                   [(0, 0); (1, 0); (1, 0)]
                   (TreeShaker.built
                      (Fixtures.shaker_after Fixtures.named_chunks [(0, 0); (1, 0); (1, 0)]))
                   _ _)).
  - exact fixtures_parser_sound.
  - vm_compute. reflexivity.
Defined.

Lemma treeShaker_rejection_is_a_chunk_failure_witness :
  ReadFileError = InvalidURL \/ ReadFileError = ReadFileError
  \/ ReadFileError = SyntaxError.
Proof.
  refine (proj2 (treeShaker_rejection_is_a_chunk_failure Fixtures.world
                   Fixtures.one_bad_chunk [(1, 0)] ReadFileError _)).
  vm_compute. reflexivity.
Defined.

Lemma treeShaker_builds_each_chunk_once_witness :
  Permutation
    (map chunk_entry (TreeShaker.built (Fixtures.shaker_after Fixtures.numbered_chunks [(0, 0)])))
    (TreeShaker.chunks Fixtures.numbered_chunks)
  /\ length (TreeShaker.built (Fixtures.shaker_after Fixtures.numbered_chunks [(0, 0)]))
     = length (TreeShaker.chunks Fixtures.numbered_chunks).
Proof.
  apply (treeShaker_builds_each_chunk_once Fixtures.world Fixtures.numbered_chunks
           [(0, 0)] (Fixtures.shaker_after Fixtures.numbered_chunks [(0, 0)])).
  vm_compute. reflexivity.
Defined.

(* ================================================================== *)
(** ** Modules whose imports are all removed, or all kept *)

Lemma filter_all {A} (f : A -> bool) (l : list A) :
  (forall x, In x l -> f x = true) -> filter f l = l.
Proof.
  induction l as [|x l IH]; intros H; simpl; [reflexivity|].
  rewrite (H x) by (simpl; auto). f_equal. apply IH. intros y Hy. apply H. simpl. auto.
Qed.

Lemma filter_none {A} (f : A -> bool) (l : list A) :
  (forall x, In x l -> f x = false) -> filter f l = [].
Proof.
  induction l as [|x l IH]; intros H; simpl; [reflexivity|].
  rewrite (H x) by (simpl; auto). apply IH. intros y Hy. apply H. simpl. auto.
Qed.

(** Only a top-level call of an identifier counts as a use.  In a module
    without such a statement (its imports may be arguments, objects of
    member calls, used in nested statements) every import declaration is
    classified unused, and the generated text keeps no position of any of
    them. *)
Theorem no_top_level_call_removes_every_import (m : Mod.t) (src : text) (p : Program) :
  initialized m src p ->
  declarations_in_source src p = true ->
  (forall u, ~ top_level_callee p u) ->
  Mod.calculateNotUsedImportDeclarations m = Ok (import_refs p, m)
  /\ Mod.getCode (decl_spans (import_refs p)) m = Ok (shaken m, m)
  /\ forall i d k,
       nth_error (body p) i = Some (SImportDeclaration d) ->
       start (decl_loc d) <= k < end_ (decl_loc d) ->
       ~ In k (kept_positions (decl_spans (import_refs p)) (length src)).
Proof.
  intros [Hs Hp] Hin Hnone.
  assert (Hused : used_callees p = []).
  { destruct (used_callees p) as [|u l] eqn:E; [reflexivity|].
    exfalso. apply (Hnone u). apply in_used_callees. rewrite E. simpl. auto. }
  assert (Hall : filter (not_used src p) (import_refs p) = import_refs p).
  { apply filter_all. intros r _. unfold not_used. rewrite Hused.
    unfold any_used. apply negb_true_iff.
    induction (Mod.collectImportSpecifiers (snd r)); simpl; auto. }
  split; [|split].
  - rewrite (@calculateNotUsedImportDeclarations_eq m p src Hp Hs). now rewrite Hall.
  - unfold shaken, shaken_text. rewrite Hs, Hp, Hall.
    apply getCode_eq; [assumption|].
    apply declarations_in_source_spans with (p := p); auto.
  - intros i d k Hd Hk Hkept. apply in_kept_positions in Hkept.
    destruct Hkept as [_ Hkept]. apply (Hkept (decl_loc d)); [|exact Hk].
    unfold decl_spans. apply in_map_iff. exists (i, d). split; [reflexivity|].
    now apply in_import_refs.
Qed.

Lemma no_top_level_call_removes_every_import_witness :
  Mod.calculateNotUsedImportDeclarations
    (Fixtures.loaded MoreFixtures.indirect_src MoreFixtures.indirect_ast)
  = Ok (import_refs MoreFixtures.indirect_ast,
        Fixtures.loaded MoreFixtures.indirect_src MoreFixtures.indirect_ast).
Proof.
  refine (proj1 (no_top_level_call_removes_every_import
                   (Fixtures.loaded MoreFixtures.indirect_src MoreFixtures.indirect_ast)
                   MoreFixtures.indirect_src MoreFixtures.indirect_ast _ _ _)).
  - split; reflexivity.
  - vm_compute. reflexivity.
  - intros u [args [loc [loc' H]]]. simpl in H.
    repeat (destruct H as [H|H]; [discriminate|]). contradiction.
Defined.

(** A module in which every import declaration has a collected specifier
    with the text of a top-level callee has no unused declaration, and its
    generated text is its source, character for character. *)
Theorem used_imports_leave_source_unchanged (m : Mod.t) (src : text) (p : Program) :
  initialized m src p ->
  (forall i d, nth_error (body p) i = Some (SImportDeclaration d) ->
               exists s u, In s (Mod.collectImportSpecifiers d) /\ top_level_callee p u
                           /\ plain src (specifier_loc s) = plain src (id_loc u)) ->
  Mod.calculateNotUsedImportDeclarations m = Ok ([], m)
  /\ Mod.getCode [] m = Ok (src, m)
  /\ shaken m = src.
Proof.
  intros [Hs Hp] Hused.
  assert (Hnone : filter (not_used src p) (import_refs p) = []).
  { apply filter_none. intros [i d] Hr. apply in_import_refs in Hr.
    destruct (Hused i d Hr) as [s [u [H1 [H2 H3]]]].
    unfold not_used. apply negb_false_iff. simpl.
    unfold any_used. apply existsb_exists. exists s. split; [exact H1|].
    apply existsb_exists. exists u. split; [now apply in_used_callees|].
    apply text_eqb_eq. congruence. }
  split; [|split].
  - rewrite (@calculateNotUsedImportDeclarations_eq m p src Hp Hs). now rewrite Hnone.
  - rewrite (@getCode_eq m src [] Hs); [|constructor]. now rewrite excise_nil.
  - unfold shaken, shaken_text. rewrite Hs, Hp, Hnone. apply excise_nil.
Qed.

Lemma used_imports_leave_source_unchanged_witness :
  Mod.calculateNotUsedImportDeclarations (Fixtures.loaded Fixtures.e_js_src Fixtures.e_js_ast)
  = Ok ([], Fixtures.loaded Fixtures.e_js_src Fixtures.e_js_ast)
  /\ Mod.getCode [] (Fixtures.loaded Fixtures.e_js_src Fixtures.e_js_ast)
     = Ok (Fixtures.e_js_src, Fixtures.loaded Fixtures.e_js_src Fixtures.e_js_ast)
  /\ shaken (Fixtures.loaded Fixtures.e_js_src Fixtures.e_js_ast) = Fixtures.e_js_src.
Proof.
  apply (used_imports_leave_source_unchanged
           (Fixtures.loaded Fixtures.e_js_src Fixtures.e_js_ast)
           Fixtures.e_js_src Fixtures.e_js_ast).
  - split; reflexivity.
  - intros i d H.
    destruct i as [|[|i]]; simpl in H; inversion H; subst; clear H.
    + eexists. exists (Fixtures.ident "x" 56 57). split; [left; reflexivity|].
      split; [|reflexivity].
      eexists. eexists. eexists. right. right. left. reflexivity.
    + eexists. exists (Fixtures.ident "y" 61 62). split; [left; reflexivity|].
      split; [|reflexivity].
      eexists. eexists. eexists. right. right. right. left. reflexivity.
    + destruct i as [|[|i]]; simpl in H1; try discriminate. destruct i; discriminate.
Defined.

(* ================================================================== *)
(** * The first revision *)

(** ** A map with string keys *)

Section StringMap.
Variable V : Type.

Lemma in_set_string (k0 : string) (v0 : V) :
  forall acc, NoDup (JsMap.keys acc) ->
    (forall k v, In (k, v) (JsMap.set String.eqb k0 v0 acc)
                 <-> (k = k0 /\ v = v0) \/ (k <> k0 /\ In (k, v) acc))
    /\ NoDup (JsMap.keys (JsMap.set String.eqb k0 v0 acc)).
Proof.
  induction acc as [|[k' v'] acc IH]; intros Hnd; simpl.
  - split.
    + intros k v. split.
      * intros [H|[]]. inversion H. auto.
      * intros [[-> ->]|[_ []]]. auto.
    + constructor; [intros []|constructor].
  - simpl in Hnd. inversion Hnd as [|? ? Hnotin Hnd']; subst.
    destruct (IH Hnd') as [IH1 IH2].
    destruct (String.eqb_spec k0 k') as [->|Hne]; simpl.
    + split; [|exact Hnd]. intros k v. split.
      * intros [H|H].
        -- inversion H; subst. auto.
        -- right. split; [|auto]. intros ->. apply Hnotin.
           unfold JsMap.keys. apply in_map_iff. exists (k', v). auto.
      * intros [[-> ->]|[Hk [H|H]]]; auto. inversion H; subst. contradiction.
    + split.
      * intros k v. rewrite IH1. split.
        -- intros [H|[H|[Hk H]]]; auto. inversion H; subst. right. auto.
        -- intros [H|[Hk [H|H]]]; auto.
      * constructor; [|exact IH2].
        intros Hin. unfold JsMap.keys in Hin. apply in_map_iff in Hin.
        destruct Hin as [[k1 v1] [E Hin]]. simpl in E. subst k1.
        apply IH1 in Hin. destruct Hin as [[E _]|[_ Hin]]; [congruence|].
        apply Hnotin. unfold JsMap.keys. apply in_map_iff. exists (k', v1). auto.
Qed.

(** After a series of [set], a key holds the value of its last [set]. *)
Lemma in_set_all :
  forall l acc, NoDup (JsMap.keys acc) ->
    NoDup (JsMap.keys (set_all V l acc))
    /\ forall k v,
         In (k, v) (set_all V l acc)
         <-> (exists l1 l2, l = l1 ++ (k, v) :: l2 /\ forall kv, In kv l2 -> fst kv <> k)
             \/ ((forall kv, In kv l -> fst kv <> k) /\ In (k, v) acc).
Proof.
  unfold set_all. induction l as [|[k0 v0] l IH]; intros acc Hnd; simpl.
  - split; [exact Hnd|]. intros k v. split.
    + intros H. right. split; [intros kv []|exact H].
    + intros [[l1 [l2 [H _]]]|[_ H]]; [|exact H].
      destruct l1; discriminate.
  - destruct (in_set_string k0 v0 acc Hnd) as [Hset Hnd'].
    destruct (IH (JsMap.set String.eqb k0 v0 acc) Hnd') as [IH1 IH2].
    split; [exact IH1|]. intros k v. rewrite IH2.
    rewrite Hset. split.
    + intros [[l1 [l2 [-> H]]]|[Hl [[-> ->]|[Hk Hin]]]].
      * left. exists ((k0, v0) :: l1), l2. auto.
      * left. exists [], l. auto.
      * right. split; [|exact Hin]. intros kv [<-|Hkv]; simpl; auto.
    + intros [[l1 [l2 [E H]]]|[Hl Hin]].
      * destruct l1 as [|y l1]; simpl in E; inversion E; subst.
        -- right. split; [exact H|]. left. auto.
        -- left. exists l1, l2. auto.
      * right. split; [intros kv Hkv; apply Hl; simpl; auto|].
        right. split; [|exact Hin]. intros ->. apply (Hl (k0, v0)); simpl; auto.
Qed.

End StringMap.

(** ** What the methods of the first revision compute *)

Lemma import_declarations_eq (p : Program) :
  import_declarations p
  = flat_map (fun node => match node with
                          | SImportDeclaration d => [d]
                          | _ => []
                          end) (body p).
Proof.
  unfold import_declarations, import_refs, indexed.
  generalize 0. induction (body p) as [|node l IH]; intros k; simpl; [reflexivity|].
  rewrite map_app, IH. now destruct node.
Qed.

Lemma v1_calculateImportDeclarations_eq m p :
  Mod.program m = Some p ->
  ModV1.calculateImportDeclarations m = ModV1.Ok (import_declarations p).
Proof.
  intros Hp. unfold ModV1.calculateImportDeclarations. rewrite Hp. f_equal.
  rewrite import_declarations_eq.
  erewrite for_of_flat_map; [reflexivity|].
  intros acc node. destruct node; unfold push; simpl; now rewrite ?app_nil_r.
Qed.

Lemma collectNames_eq (d : ImportDeclaration) : ModV1.collectNames d = imported_names d.
Proof.
  unfold ModV1.collectNames, imported_names.
  erewrite for_of_flat_map; [reflexivity|].
  intros acc s. destruct s as [[i|v l] local loc| |]; unfold push; simpl;
    now rewrite ?app_nil_r.
Qed.

Lemma v1_calculateUsedSpecifiers_eq m p :
  Mod.program m = Some p ->
  ModV1.calculateUsedSpecifiersInModuleBody m = ModV1.Ok (called_names p).
Proof.
  intros Hp. unfold ModV1.calculateUsedSpecifiersInModuleBody. rewrite Hp. f_equal.
  rewrite for_of_flat_map
    with (f := fun node => match node with
                           | ExpressionStatement (CallExpression (EIdentifier callee) _ _) _ =>
                               [name callee]
                           | _ => []
                           end).
  - unfold called_names, used_callees. simpl.
    induction (body p) as [|node l IH]; simpl; [reflexivity|].
    rewrite map_app, IH. f_equal.
    destruct node as [d|e loc|loc]; try reflexivity.
    destruct e as [i|callee args loc'|loc']; try reflexivity.
    now destruct callee.
  - intros acc node. unfold push.
    destruct node as [d|e loc|loc]; simpl; rewrite ?app_nil_r; try reflexivity.
    destruct e as [i|callee args loc'|loc']; simpl; rewrite ?app_nil_r; try reflexivity.
    destruct callee; simpl; now rewrite ?app_nil_r.
Qed.

Lemma importSpecifiersLoop_eq :
  forall decls acc,
    (forall d, In d decls -> exists s, source_value d = VString s) ->
    ModV1.importSpecifiersLoop decls acc
    = ModV1.Ok (set_all (list string) (map binding decls) acc).
Proof.
  induction decls as [|d decls IH]; intros acc H; simpl; [reflexivity|].
  destruct (H d) as [s Hs]; [simpl; auto|].
  unfold binding at 1, source_string. rewrite Hs, collectNames_eq. simpl.
  apply IH. intros d' Hd'. apply H. simpl. auto.
Qed.

Lemma importSpecifiersLoop_throws :
  forall decls acc,
    (exists d, In d decls /\ source_value d = VOther) ->
    ModV1.importSpecifiersLoop decls acc = ModV1.Throw ModV1.UnsupportedSource.
Proof.
  induction decls as [|d decls IH]; intros acc [d0 [Hin H0]]; simpl in *; [contradiction|].
  destruct (source_value d) eqn:E; [|reflexivity].
  apply IH. destruct Hin as [->|Hin]; [congruence|eauto].
Qed.

Lemma notUsed_for_of (used : list string) :
  forall (m : JsMap.t string (list string)) acc,
    for_of m
      (fun notUsedSpecifiers entry =>
         if negb (existsb (ModV1.includes used) (snd entry))
         then push notUsedSpecifiers (fst entry) else notUsedSpecifiers)
      acc
    = acc ++ map fst (filter (fun entry => negb (existsb (ModV1.includes used) (snd entry))) m).
Proof.
  unfold for_of. induction m as [|e m IH]; intros acc; simpl.
  - now rewrite app_nil_r.
  - rewrite IH. destruct (negb (existsb (ModV1.includes used) (snd e))); simpl;
      [|reflexivity].
    unfold push. now rewrite <- app_assoc.
Qed.

Lemma v1_calculateNotUsed_eq m p :
  Mod.program m = Some p ->
  (forall d, In d (import_declarations p) -> exists s, source_value d = VString s) ->
  ModV1.calculateNotUsedImportDeclarations m
  = ModV1.Ok (map fst (filter (fun entry => negb (existsb (ModV1.includes (called_names p))
                                                        (snd entry)))
                              (set_all (list string)
                                 (map binding (import_declarations p)) JsMap.empty))).
Proof.
  intros Hp Hs. unfold ModV1.calculateNotUsedImportDeclarations,
    ModV1.calculateImportSpecifiersMap.
  rewrite (v1_calculateImportDeclarations_eq m p Hp).
  rewrite (importSpecifiersLoop_eq _ _ Hs).
  rewrite (v1_calculateUsedSpecifiers_eq m p Hp).
  now rewrite notUsed_for_of.
Qed.

Lemma sorted_split (r1 r2 : list (Ref ImportDeclaration)) (r : Ref ImportDeclaration) :
  StronglySorted lt (map fst (r1 ++ r :: r2)) ->
  (forall x, In x r1 -> fst x < fst r) /\ (forall x, In x r2 -> fst r < fst x).
Proof.
  induction r1 as [|a r1 IH]; simpl; intros H.
  - apply StronglySorted_inv in H. destruct H as [_ H]. rewrite Forall_forall in H.
    split; [intros x []|]. intros x Hx. apply H. now apply in_map.
  - apply StronglySorted_inv in H. destruct H as [H Ha]. rewrite Forall_forall in Ha.
    destruct (IH H) as [H1 H2]. split; [|exact H2].
    intros x [<-|Hx]; [|now apply H1].
    apply Ha. rewrite map_app. apply in_or_app. right. simpl. auto.
Qed.

Lemma nodup_map_fst_filter {A B} (f : A * B -> bool) (l : list (A * B)) :
  NoDup (map fst l) -> NoDup (map fst (filter f l)).
Proof.
  induction l as [|x l IH]; simpl; intros H; [constructor|].
  inversion H; subst. destruct (f x); simpl; [|auto].
  constructor; [|auto]. intros Hin. apply H2.
  apply in_map_iff in Hin. destruct Hin as [y [E Hy]]. apply filter_In in Hy.
  rewrite <- E. apply in_map. tauto.
Qed.

Lemma name_used_false (p : Program) (d : ImportDeclaration) :
  existsb (ModV1.includes (called_names p)) (imported_names d) = false
  <-> forall n, In n (imported_names d) -> ~ In n (called_names p).
Proof.
  split.
  - intros H n Hn Hc.
    assert (existsb (ModV1.includes (called_names p)) (imported_names d) = true);
      [|congruence].
    apply existsb_exists. exists n. split; [exact Hn|].
    unfold ModV1.includes. apply existsb_exists. exists n. split; [exact Hc|].
    apply String.eqb_refl.
  - intros H. apply not_true_is_false. intros E.
    apply existsb_exists in E. destruct E as [n [Hn E]].
    unfold ModV1.includes in E. apply existsb_exists in E. destruct E as [n' [Hn' E]].
    apply String.eqb_eq in E. subst n'. now apply (H n).
Qed.

(** The first revision reports import sources, not declarations, and its
    map has one entry per source: a source is reported once, and exactly
    when the last declaration that imports from it imports no name the
    module calls at top level; the earlier declarations importing from the
    same source are not looked at.  A source that is not a string makes the
    method throw. *)
Theorem first_revision_reports_by_last_declaration (m : Mod.t) (p : Program) :
  Mod.program m = Some p ->
  ((exists i d, nth_error (body p) i = Some (SImportDeclaration d)
                /\ source_value d = VOther) ->
   ModV1.calculateNotUsedImportDeclarations m = ModV1.Throw ModV1.UnsupportedSource)
  /\ ((forall i d, nth_error (body p) i = Some (SImportDeclaration d) ->
                   exists s, source_value d = VString s) ->
      exists notUsed,
        ModV1.calculateNotUsedImportDeclarations m = ModV1.Ok notUsed
        /\ NoDup notUsed
        /\ forall s,
             In s notUsed
             <-> exists i d,
                   nth_error (body p) i = Some (SImportDeclaration d)
                   /\ source_value d = VString s
                   /\ (forall j d', i < j ->
                                    nth_error (body p) j = Some (SImportDeclaration d') ->
                                    source_value d' <> VString s)
                   /\ forall n, In n (imported_names d) -> ~ In n (called_names p)).
Proof.
  intros Hp. split.
  - intros [i [d [Hd Ho]]].
    unfold ModV1.calculateNotUsedImportDeclarations, ModV1.calculateImportSpecifiersMap.
    rewrite (v1_calculateImportDeclarations_eq m p Hp).
    rewrite importSpecifiersLoop_throws; [reflexivity|].
    exists d. split; [|exact Ho]. unfold import_declarations.
    apply in_map_iff. exists (i, d). split; [reflexivity|]. now apply in_import_refs.
  - intros Hstr.
    assert (Hs : forall d, In d (import_declarations p) -> exists s, source_value d = VString s).
    { intros d Hd. unfold import_declarations in Hd. apply in_map_iff in Hd.
      destruct Hd as [[i d'] [E Hin]]. simpl in E. subst d'.
      apply in_import_refs in Hin. eauto. }
    rewrite (v1_calculateNotUsed_eq m p Hp Hs).
    destruct (in_set_all (list string) (map binding (import_declarations p)) JsMap.empty)
      as [Hnd Hin]; [constructor|].
    eexists. split; [reflexivity|]. split; [now apply nodup_map_fst_filter|].
    intros s. rewrite in_map_iff. split.
    + intros [[k v] [E Hf]]. simpl in E. subst k. apply filter_In in Hf.
      destruct Hf as [Hm Hu]. simpl in Hu. apply negb_true_iff in Hu.
      apply Hin in Hm. destruct Hm as [[l1 [l2 [Hsplit Hlast]]]|[_ []]].
      unfold import_declarations in Hsplit. rewrite map_map in Hsplit.
      apply map_eq_app in Hsplit. destruct Hsplit as [r1 [rest [Hrefs [_ Hrest]]]].
      apply map_eq_cons in Hrest. destruct Hrest as [[i d] [r2 [-> [Hb Hl2]]]].
      unfold binding in Hb. simpl in Hb. injection Hb as Hk Hv. subst v.
      assert (Hd : In (i, d) (import_refs p)).
      { rewrite Hrefs. apply in_or_app. right. simpl. auto. }
      apply in_import_refs in Hd. exists i, d. split; [exact Hd|].
      destruct (Hstr i d Hd) as [s' Hs'].
      assert (Es : source_string d = s') by (unfold source_string; now rewrite Hs').
      rewrite Es in Hk. subst s'.
      split; [exact Hs'|]. split.
      * intros j d' Hlt Hd' Hsrc.
        assert (Hj : In (j, d') (import_refs p)) by now apply in_import_refs.
        assert (Hsorted := import_refs_sorted p). rewrite Hrefs in Hsorted.
        destruct (sorted_split r1 r2 (i, d) Hsorted) as [Hlow Hhigh].
        rewrite Hrefs in Hj. apply in_app_or in Hj. destruct Hj as [Hj|[Hj|Hj]].
        -- specialize (Hlow _ Hj). simpl in Hlow. lia.
        -- inversion Hj. lia.
        -- apply (Hlast (binding d')).
           ++ rewrite <- Hl2. apply in_map_iff. exists (j, d'). auto.
           ++ unfold binding, source_string. simpl. now rewrite Hsrc.
      * now apply name_used_false.
    + intros [i [d [Hd [Hsrc [Hlater Hnames]]]]].
      exists (binding d). unfold binding at 1, source_string. rewrite Hsrc.
      split; [reflexivity|]. apply filter_In. split.
      * apply Hin. left.
        assert (Hr : In (i, d) (import_refs p)) by now apply in_import_refs.
        apply in_split in Hr. destruct Hr as [r1 [r2 Hrefs]].
        exists (map binding (map snd r1)), (map binding (map snd r2)). split.
        -- unfold import_declarations. rewrite Hrefs, !map_app. simpl.
           unfold binding at 2, source_string. now rewrite Hsrc.
        -- intros kv Hkv. rewrite map_map in Hkv. apply in_map_iff in Hkv.
           destruct Hkv as [[j d'] [<- Hj]]. simpl.
           assert (Hsorted := import_refs_sorted p). rewrite Hrefs in Hsorted.
           destruct (sorted_split r1 r2 (i, d) Hsorted) as [_ Hhigh].
           specialize (Hhigh _ Hj). simpl in Hhigh.
           assert (Hd' : nth_error (body p) j = Some (SImportDeclaration d')).
           { apply in_import_refs. rewrite Hrefs. apply in_or_app. right. simpl. auto. }
           destruct (Hstr j d' Hd') as [s' Hs'].
           unfold source_string. rewrite Hs', ?Hsrc. intros E. subst s'.
           now apply (Hlater j d' Hhigh Hd').
      * simpl. apply negb_true_iff. now apply name_used_false.
Qed.

Lemma first_revision_reports_by_last_declaration_witness :
  exists notUsed,
    ModV1.calculateNotUsedImportDeclarations
      (Fixtures.loaded MoreFixtures.twice_src MoreFixtures.twice_ast)
    = ModV1.Ok notUsed
    /\ NoDup notUsed
    /\ forall s,
         In s notUsed
         <-> exists i d,
               nth_error (body MoreFixtures.twice_ast) i = Some (SImportDeclaration d)
               /\ source_value d = VString s
               /\ (forall j d', i < j ->
                                nth_error (body MoreFixtures.twice_ast) j
                                = Some (SImportDeclaration d') ->
                                source_value d' <> VString s)
               /\ forall n, In n (imported_names d) -> ~ In n (called_names MoreFixtures.twice_ast).
Proof.
  refine (proj2 (first_revision_reports_by_last_declaration
                   (Fixtures.loaded MoreFixtures.twice_src MoreFixtures.twice_ast)
                   MoreFixtures.twice_ast _) _).
  - reflexivity.
  - intros i d H.
    destruct i as [|[|[|i]]]; simpl in H; try discriminate.
    + inversion H; subst. eexists. reflexivity.
    + inversion H; subst. eexists. reflexivity.
    + destruct i; discriminate.
Defined.

(** Of two declarations importing from ['./m.js'], the first revision
    looks at the second: the source is reported although the name the
    first one imports is called, where the final revision reports the
    second declaration alone. *)
Example first_revision_reports_a_used_source :
  ModV1.calculateNotUsedImportDeclarations
    (Fixtures.loaded MoreFixtures.twice_src MoreFixtures.twice_ast)
  = ModV1.Ok ["./m.js"%string]
  /\ exists notUsed m,
       Mod.calculateNotUsedImportDeclarations
         (Fixtures.loaded MoreFixtures.twice_src MoreFixtures.twice_ast)
       = Ok (notUsed, m)
       /\ map fst notUsed = [1].
Proof.
  split; [reflexivity|]. eexists. eexists. split; [vm_compute; reflexivity|reflexivity].
Qed.
